(** * snippet-bot: the message archival pipeline of [bot.js]

    A shallow embedding of the classifier ([getCodeBlocks],
    [matchUrlWithDomain], [getLinks]), of the store ([insertRow],
    [createEntry], [storeRevision]) and of the crawler and live handlers
    ([scanHistory], [scanChannel], [processMessageEdits], [processMessage]),
    with the properties the specification states about them. *)

From Stdlib Require Import String Ascii.
From Stdlib Require Import List NArith ZArith Bool Arith Lia.
From Stdlib Require Import Relations.Relation_Operators.
Import ListNotations.

Set Implicit Arguments.

(** ** JavaScript strings

    A JavaScript string is a sequence of 16-bit code units. *)

Definition char := N.
Definition jsstring := list char.
Bind Scope N_scope with char.

Fixpoint str (s : string) : jsstring :=
  match s with
  | EmptyString => []
  | String a s' => N_of_ascii a :: str s'
  end.

Definition nl : char := 10%N.
Definition bt : char := 96%N.

Fixpoint jseqb (a b : jsstring) : bool :=
  match a, b with
  | [], [] => true
  | x :: a', y :: b' => N.eqb x y && jseqb a' b'
  | _, _ => false
  end.

(** [strip_prefix p s] is [Some r] when [s = p ++ r]. *)
Fixpoint strip_prefix (p s : jsstring) : option jsstring :=
  match p with
  | [] => Some s
  | x :: p' =>
      match s with
      | y :: s' => if N.eqb x y then strip_prefix p' s' else None
      | [] => None
      end
  end.

(** ** Regular expressions

    The fragment of ECMAScript patterns used by [bot.js]: literal
    characters, character classes, the dot, capture groups, alternation and
    the quantifiers [*], [+], [?] in their greedy and lazy forms. *)

Inductive citem : Type :=
| CRange (lo hi : char)
| CSpace          (* \s *)
| CNotSpace       (* \S *)
| CDigit          (* \d *)
| CNotDigit       (* \D *)
| CWord           (* \w *)
| CNotWord.       (* \W *)

Definition in_range (lo hi c : char) : bool := N.leb lo c && N.leb c hi.
Arguments in_range (lo hi c)%_N.
Arguments CRange (lo hi)%_N.

(** WhiteSpace and LineTerminator code units, the meaning of [\s]. *)
Definition is_space (c : char) : bool :=
  in_range 9 13 c || N.eqb c 32 || N.eqb c 160 || N.eqb c 5760
  || in_range 8192 8202 c || in_range 8232 8233 c || N.eqb c 8239
  || N.eqb c 8287 || N.eqb c 12288 || N.eqb c 65279.

Definition is_digit (c : char) : bool := in_range 48 57 c.

Definition is_word (c : char) : bool :=
  in_range 97 122 c || in_range 65 90 c || is_digit c || N.eqb c 95.

Definition item_has (i : citem) (c : char) : bool :=
  match i with
  | CRange lo hi => in_range lo hi c
  | CSpace => is_space c
  | CNotSpace => negb (is_space c)
  | CDigit => is_digit c
  | CNotDigit => negb (is_digit c)
  | CWord => is_word c
  | CNotWord => negb (is_word c)
  end.

Definition in_class (neg : bool) (items : list citem) (c : char) : bool :=
  xorb neg (existsb (fun i => item_has i c) items).

Inductive regex : Type :=
| Empty
| Chars (neg : bool) (items : list citem)
| Seq (r1 r2 : regex)
| Alt (r1 r2 : regex)
| Star (greedy : bool) (r : regex)
| Opt (greedy : bool) (r : regex)
| Group (n : nat) (r : regex).

(** [r+] repeats [r] at least once: one [r], then [r*]. *)
Definition Plus (greedy : bool) (r : regex) : regex := Seq r (Star greedy r).

Definition Lit (c : char) : regex := Chars false [CRange c c].

(** The dot: any code unit but a line terminator. *)
Definition Dot : regex :=
  Chars true [CRange 10 10; CRange 13 13; CRange 8232 8233].

(** Capture groups contained in a pattern. *)
Fixpoint groups (r : regex) : list nat :=
  match r with
  | Empty | Chars _ _ => []
  | Seq r1 r2 | Alt r1 r2 => groups r1 ++ groups r2
  | Star _ r1 | Opt _ r1 => groups r1
  | Group n r1 => n :: groups r1
  end.

(** ** The backtracking matcher

    The matcher follows the continuation semantics of the language
    definition: a pattern is run on the rest of the input with the captures
    so far and a continuation; the first alternative whose continuation
    succeeds wins. *)

Definition captures := list (nat * jsstring).

Fixpoint capture (n : nat) (c : captures) : option jsstring :=
  match c with
  | [] => None
  | (k, v) :: c' => if Nat.eqb k n then Some v else capture n c'
  end.

Definition clear (ns : list nat) (c : captures) : captures :=
  filter (fun kv => negb (existsb (Nat.eqb (fst kv)) ns)) c.

Definition set_capture (n : nat) (v : jsstring) (c : captures) : captures :=
  (n, v) :: clear [n] c.

(** The part of [s] in front of its suffix [s']. *)
Definition consumed (s s' : jsstring) : jsstring :=
  firstn (length s - length s') s.

Definition orelse {A} (a b : option A) : option A :=
  match a with
  | Some _ => a
  | None => b
  end.

Section Matcher.
Variable A : Type.

Definition cont := jsstring -> captures -> option A.
Definition matcher := jsstring -> captures -> cont -> option A.

(** One more round of a starred pattern, or the continuation; a round
    that consumes nothing is rejected, and the captures of the body are
    reset before each round. *)
Fixpoint repeat_star (body : matcher) (inner : list nat) (greedy : bool)
         (fuel : nat) (s : jsstring) (c : captures) (k : cont) : option A :=
  match fuel with
  | O => None
  | S f =>
      let again :=
        body s (clear inner c)
             (fun s' c' =>
                if Nat.ltb (length s') (length s)
                then repeat_star body inner greedy f s' c' k
                else None) in
      if greedy then orelse again (k s c) else orelse (k s c) again
  end.

Definition repeat_opt (body : matcher) (inner : list nat) (greedy : bool)
           (s : jsstring) (c : captures) (k : cont) : option A :=
  let once :=
    body s (clear inner c)
         (fun s' c' =>
            if Nat.ltb (length s') (length s) then k s' c' else None) in
  if greedy then orelse once (k s c) else orelse (k s c) once.

Fixpoint run (r : regex) {struct r} : matcher :=
  match r with
  | Empty => fun s c k => k s c
  | Chars neg items => fun s c k =>
      match s with
      | x :: s' => if in_class neg items x then k s' c else None
      | [] => None
      end
  | Seq r1 r2 => fun s c k => run r1 s c (fun s1 c1 => run r2 s1 c1 k)
  | Alt r1 r2 => fun s c k => orelse (run r1 s c k) (run r2 s c k)
  | Star g r1 => fun s c k =>
      repeat_star (run r1) (groups r1) g (S (length s)) s c k
  | Opt g r1 => fun s c k => repeat_opt (run r1) (groups r1) g s c k
  | Group n r1 => fun s c k =>
      run r1 s c (fun s1 c1 => k s1 (set_capture n (consumed s s1) c1))
  end.
End Matcher.

(** A successful match: the matched text, the captures and the rest of the
    input after the match. *)
Record match_result : Type := MatchResult {
  matched : jsstring;
  caps : captures;
  rest : jsstring
}.

(** A match attempt at the start of [s]. *)
Definition match_here (r : regex) (s : jsstring) : option match_result :=
  run r s [] (fun s' c => Some (MatchResult (consumed s s') c s')).

(** [regex.exec] from the current position: the first position, scanning
    forward, where an attempt succeeds. [skipped] is the text passed over. *)
Fixpoint exec (r : regex) (s : jsstring) : option (jsstring * match_result) :=
  match match_here r s with
  | Some res => Some ([], res)
  | None =>
      match s with
      | [] => None
      | x :: s' =>
          match exec r s' with
          | Some (skipped, res) => Some (x :: skipped, res)
          | None => None
          end
      end
  end.

(** ** Pattern sources

    [new RegExp(source)] builds its pattern from text, so the text of a
    pattern is parsed here the way the constructor reads it. [None] stands
    for a source outside the fragment above: one the constructor rejects, or
    one that uses an assertion, a back reference, a brace or a group that
    does not capture. *)

Definition is_syntax_char (c : char) : bool :=
  existsb (N.eqb c) (str "^$\.*+?()[{}|").

(** The character after a backslash. *)
Definition escape_item (e : char) : option citem :=
  if N.eqb e 110 then Some (CRange 10 10)            (* \n *)
  else if N.eqb e 114 then Some (CRange 13 13)       (* \r *)
  else if N.eqb e 116 then Some (CRange 9 9)         (* \t *)
  else if N.eqb e 118 then Some (CRange 11 11)       (* \v *)
  else if N.eqb e 102 then Some (CRange 12 12)       (* \f *)
  else if N.eqb e 115 then Some CSpace
  else if N.eqb e 83 then Some CNotSpace
  else if N.eqb e 100 then Some CDigit
  else if N.eqb e 68 then Some CNotDigit
  else if N.eqb e 119 then Some CWord
  else if N.eqb e 87 then Some CNotWord
  else if is_word e then None
  else Some (CRange e e).                            (* identity escape *)

Definition class_atom (s : jsstring) : option (citem * jsstring) :=
  match s with
  | [] => None
  | c :: s' =>
      if N.eqb c 92 then
        match s' with
        | e :: s'' =>
            match escape_item e with
            | Some i => Some (i, s'')
            | None => None
            end
        | [] => None
        end
      else Some (CRange c c, s')
  end.

(** The items of a class, up to and including the closing bracket. *)
Fixpoint class_items (fuel : nat) (s : jsstring)
  : option (list citem * jsstring) :=
  match fuel with
  | O => None
  | S f =>
      match s with
      | [] => None
      | c :: s' =>
          if N.eqb c 93 then Some ([], s')
          else
            match class_atom s with
            | None => None
            | Some (i, s1) =>
                let single :=
                  match class_items f s1 with
                  | Some (items, s2) => Some (i :: items, s2)
                  | None => None
                  end in
                match s1 with
                | d :: s2 =>
                    if N.eqb d 45 then
                      match s2 with
                      | [] => None
                      | e :: _ =>
                          if N.eqb e 93 then single
                          else
                            match i, class_atom s2 with
                            | CRange lo _, Some (CRange _ hi, s3) =>
                                if N.leb lo hi then
                                  match class_items f s3 with
                                  | Some (items, s4) =>
                                      Some (CRange lo hi :: items, s4)
                                  | None => None
                                  end
                                else None
                            | _, _ => None
                            end
                      end
                    else single
                | [] => None
                end
            end
      end
  end.

Definition parse_class (s : jsstring) : option (regex * jsstring) :=
  let body neg s' :=
    match class_items (S (length s')) s' with
    | Some (items, s'') => Some (Chars neg items, s'')
    | None => None
    end in
  match s with
  | c :: s' => if N.eqb c 94 then body true s' else body false s
  | [] => None
  end.

(** A quantifier after an atom, if there is one. *)
Definition parse_quantifier (a : regex) (s : jsstring) : regex * jsstring :=
  let lazy s' :=
    match s' with
    | q :: s'' => if N.eqb q 63 then (false, s'') else (true, s')
    | [] => (true, s')
    end in
  match s with
  | q :: s' =>
      if N.eqb q 42 then let (g, s'') := lazy s' in (Star g a, s'')
      else if N.eqb q 43 then let (g, s'') := lazy s' in (Plus g a, s'')
      else if N.eqb q 63 then let (g, s'') := lazy s' in (Opt g a, s'')
      else (a, s)
  | [] => (a, s)
  end.

Definition then_ (t r : regex) : regex :=
  match r with
  | Empty => t
  | _ => Seq t r
  end.

(** Disjunction, alternative and atom; [n] counts the groups opened so far,
    which numbers the capture groups by their opening parenthesis. *)
Fixpoint parse_disjunction (fuel n : nat) (s : jsstring)
  : option (regex * nat * jsstring) :=
  match fuel with
  | O => None
  | S f =>
      match parse_alternative f n s with
      | Some (r1, n1, s1) =>
          match s1 with
          | c :: s2 =>
              if N.eqb c 124 then
                match parse_disjunction f n1 s2 with
                | Some (r2, n2, s3) => Some (Alt r1 r2, n2, s3)
                | None => None
                end
              else Some (r1, n1, s1)
          | [] => Some (r1, n1, s1)
          end
      | None => None
      end
  end

with parse_alternative (fuel n : nat) (s : jsstring)
  : option (regex * nat * jsstring) :=
  match fuel with
  | O => None
  | S f =>
      match s with
      | [] => Some (Empty, n, s)
      | c :: _ =>
          if N.eqb c 124 || N.eqb c 41 then Some (Empty, n, s)
          else
            match parse_atom f n s with
            | Some (a, n1, s1) =>
                let (t, s2) := parse_quantifier a s1 in
                match parse_alternative f n1 s2 with
                | Some (r, n2, s3) => Some (then_ t r, n2, s3)
                | None => None
                end
            | None => None
            end
      end
  end

with parse_atom (fuel n : nat) (s : jsstring)
  : option (regex * nat * jsstring) :=
  match fuel with
  | O => None
  | S f =>
      match s with
      | [] => None
      | c :: s' =>
          if N.eqb c 40 then
            match s' with
            | q :: _ =>
                if N.eqb q 63 then None
                else
                  match parse_disjunction f (S n) s' with
                  | Some (r, n1, d :: s1) =>
                      if N.eqb d 41 then Some (Group (S n) r, n1, s1)
                      else None
                  | _ => None
                  end
            | [] => None
            end
          else if N.eqb c 91 then
            match parse_class s' with
            | Some (r, s1) => Some (r, n, s1)
            | None => None
            end
          else if N.eqb c 46 then Some (Dot, n, s')
          else if N.eqb c 92 then
            match s' with
            | e :: s1 =>
                match escape_item e with
                | Some i => Some (Chars false [i], n, s1)
                | None => None
                end
            | [] => None
            end
          else if is_syntax_char c then None
          else Some (Lit c, n, s')
      end
  end.

Definition parse_regex (source : jsstring) : option regex :=
  match parse_disjunction (3 * length source + 3) 0 source with
  | Some (r, _, []) => Some r
  | _ => None
  end.

(** ** ContentClassifier *)

Definition backtick : regex := Lit 96.
Definition lower : regex := Chars false [CRange 97 122].
Definition newline : regex := Lit 10.
Definition anything : regex := Chars false [CSpace; CNotSpace].

(** The pattern of [getCodeBlocks], as the literal is written:
    three backticks, [(([a-z]+)\n)?], [\n*], [([\s\S]*?)], [\n*], three
    backticks. *)
Definition code_source : jsstring :=
  str "\`\`\`(([a-z]+)\n)?\n*([\s\S]*?)\n*\`\`\`".

Definition close_fence : regex := Seq backtick (Seq backtick backtick).
Definition trailer : regex := Seq (Star true newline) close_fence.
Definition body_part : regex := Seq (Group 3 (Star false anything)) trailer.
Definition after_tag : regex := Seq (Star true newline) body_part.
Definition tag_part : regex :=
  Group 1 (Seq (Group 2 (Plus true lower)) newline).

Definition code_regex : regex :=
  Seq backtick (Seq backtick (Seq backtick (Seq (Opt true tag_part) after_tag))).

Record block : Type := Block {
  lang : option jsstring;
  code : option jsstring
}.

(** The [while] loop of [getCodeBlocks]: [exec] resumes after the previous
    match. [None] is a loop that has not ended within [fuel] rounds. *)
Fixpoint exec_loop (fuel : nat) (r : regex) (s : jsstring)
  : option (list block) :=
  match fuel with
  | O => None
  | S f =>
      match exec r s with
      | None => Some []
      | Some (_, res) =>
          match exec_loop f r (rest res) with
          | Some bs =>
              Some (Block (capture 2 (caps res)) (capture 3 (caps res)) :: bs)
          | None => None
          end
      end
  end.

Definition getCodeBlocks (string : jsstring) : option (list block) :=
  exec_loop (S (length string)) code_regex string.

(** [string.match(regex)] for a global pattern: all matches, left to right;
    after an empty match the search moves on by one code unit. *)
Fixpoint match_all (fuel : nat) (r : regex) (s : jsstring)
  : option (list jsstring) :=
  match fuel with
  | O => None
  | S f =>
      match exec r s with
      | None => Some []
      | Some (_, res) =>
          let next :=
            match matched res, rest res with
            | [], [] => Some []
            | [], _ :: t => match_all f r t
            | _ :: _, t => match_all f r t
            end in
          match next with
          | Some ms => Some (matched res :: ms)
          | None => None
          end
      end
  end.

(** The text around the domain in the pattern of [matchUrlWithDomain], after
    the string literals are read. *)
Definition url_prefix : jsstring := str "(https?:\/\/(.+?\.)?".
Definition url_suffix : jsstring :=
  str "(\/[A-Za-z0-9\-\._~:\/\?#\[\]@!$&'()*+,;=]*)?)".

Definition url_regex (domain : jsstring) : option regex :=
  parse_regex (url_prefix ++ domain ++ url_suffix).

Definition matchUrlWithDomain (string domain : jsstring)
  : option (list jsstring) :=
  match url_regex domain with
  | Some regex => match_all (S (length string)) regex string
  | None => None
  end.

(** [config.js] is not part of the sources: the options the pipeline reads
    are a parameter. *)
Record config : Type := Config {
  domains : list jsstring;
  parse : bool;
  oneshot : bool
}.

Fixpoint concat_map_opt {X Y} (f : X -> option (list Y)) (l : list X)
  : option (list Y) :=
  match l with
  | [] => Some []
  | x :: l' =>
      match f x with
      | Some ys =>
          match concat_map_opt f l' with
          | Some zs => Some (ys ++ zs)
          | None => None
          end
      | None => None
      end
  end.

Definition getLinks (cfg : config) (string : jsstring)
  : option (list jsstring) :=
  concat_map_opt (matchUrlWithDomain string) (domains cfg).

Definition containsCode (string : jsstring) : option nat :=
  option_map (@length block) (getCodeBlocks string).

Definition containsUrl (cfg : config) (string : jsstring) : option nat :=
  option_map (@length jsstring) (getLinks cfg string).

(** The condition of [processMessage],
    [containsCode(content) || containsUrl(content)]: the second operand is
    evaluated only when the first is zero. *)
Definition isRelevant (cfg : config) (text : jsstring) : option bool :=
  match containsCode text with
  | None => None
  | Some (S _) => Some true
  | Some O =>
      match containsUrl cfg text with
      | None => None
      | Some n => Some (negb (Nat.eqb n 0))
      end
  end.

(** ** What the code pattern computes

    The backtracking of [code_regex] is resolved here once and for all: the
    result of a match attempt is given by plain list functions. *)

Definition fence : jsstring := [bt; bt; bt].

Definition is_lower (c : char) : bool := in_class false [CRange 97 122] c.
Definition is_newline (c : char) : bool := in_class false [CRange 10 10] c.

Fixpoint drop_while (p : char -> bool) (s : jsstring) : jsstring :=
  match s with
  | x :: s' => if p x then drop_while p s' else s
  | [] => []
  end.

Fixpoint take_while (p : char -> bool) (s : jsstring) : jsstring :=
  match s with
  | x :: s' => if p x then x :: take_while p s' else []
  | [] => []
  end.

(** A language tag: one or more lower-case letters and a newline. *)
Definition lang_tag (s : jsstring) : option (jsstring * jsstring) :=
  match take_while is_lower s, drop_while is_lower s with
  | x :: l, y :: r => if is_newline y then Some (x :: l, r) else None
  | _, _ => None
  end.

(** Newlines, then the closing fence. *)
Definition closing (s : jsstring) : option jsstring :=
  strip_prefix fence (drop_while is_newline s).

(** The shortest body after which the fence closes. *)
Fixpoint find_close (s : jsstring) : option (jsstring * jsstring) :=
  match closing s with
  | Some r => Some ([], r)
  | None =>
      match s with
      | [] => None
      | x :: s' =>
          match find_close s' with
          | Some (b, r) => Some (x :: b, r)
          | None => None
          end
      end
  end.

(** The block that starts at the head of [s]: tag, body, and the text after
    the closing fence. *)
Definition block_at (s : jsstring)
  : option (option jsstring * jsstring * jsstring) :=
  match strip_prefix fence s with
  | None => None
  | Some s1 =>
      let '(tag, s2) :=
        match lang_tag s1 with
        | Some (l, r) => (Some l, r)
        | None => (None, s1)
        end in
      match find_close (drop_while is_newline s2) with
      | Some (b, r) => Some (tag, b, r)
      | None => None
      end
  end.

Definition tag_captures (tag : option jsstring) : captures :=
  match tag with
  | Some l => [(1, l ++ [nl]); (2, l)]
  | None => []
  end.

(** A run of one-character classes, greedy and lazy, without fuel. *)
Section Runs.
Variable A : Type.
Variable p : char -> bool.

Fixpoint greedy_run (s : jsstring) (c : captures) (k : cont A) : option A :=
  match s with
  | x :: s' => if p x then orelse (greedy_run s' c k) (k s c) else k s c
  | [] => k s c
  end.

Fixpoint lazy_run (s : jsstring) (c : captures) (k : cont A) : option A :=
  match s with
  | x :: s' => orelse (k s c) (if p x then lazy_run s' c k else None)
  | [] => k s c
  end.
End Runs.

(** ** Messages and the store *)

Record channel : Type := Channel {
  chan_type : jsstring;        (* channel.type *)
  chan_name : jsstring;        (* channel.name *)
  recipient_tag : jsstring     (* channel.recipient.tag *)
}.

(** One version of a message, as the pipeline reads it. *)
Record snapshot : Type := Snapshot {
  id : jsstring;
  content : jsstring;
  createdTimestamp : Z;
  editedTimestamp : option Z;
  msg_channel : channel;
  author_tag : jsstring        (* message.author.tag *)
}.

(** A fetched message: its current version and the earlier versions it has
    kept, newest first. [message.edits] lists the current version and then
    the earlier ones. *)
Record message : Type := Message {
  latest : snapshot;
  earlier : list snapshot
}.

Definition edits (m : message) : list snapshot := latest m :: earlier m.

Inductive value : Type :=
| VString (s : jsstring)
| VNumber (z : Z)
| VUndefined.

(** The rows handed to the database, in the order of the calls. *)
Definition row := (jsstring * list value)%type.
Definition store := list row.

Definition insertRow (table : jsstring) (values : list value) (db : store)
  : store :=
  db ++ [(table, values)].

(** [message.editedTimestamp || message.createdTimestamp]: an edit time that
    is absent, or zero, gives way to the creation time. *)
Definition getLatestTimestamp (m : snapshot) : Z :=
  match editedTimestamp m with
  | Some t => if Z.eqb t 0 then createdTimestamp m else t
  | None => createdTimestamp m
  end.

Definition getChannelName (ch : channel) : value :=
  if jseqb (chan_type ch) (str "dm") then VString (recipient_tag ch)
  else if jseqb (chan_type ch) (str "group") then VString (chan_name ch)
  else if jseqb (chan_type ch) (str "text")
       then VString (str "#" ++ chan_name ch)
  else VUndefined.

Definition createEntry (m : snapshot) (db : store) : store :=
  insertRow (str "Message")
            [VString (id m); getChannelName (msg_channel m);
             VString (author_tag m)] db.

Definition storeRevision (m : snapshot) (db : store) : store :=
  insertRow (str "Content")
            [VString (content m); VNumber (getLatestTimestamp m);
             VString (id m)] db.

(** [None] is a call whose outcome the model does not determine: the link
    pattern of some domain is outside the fragment. *)
Definition processMessage (cfg : config) (m : snapshot) (edit : bool)
           (db : store) : option store :=
  match isRelevant cfg (content m) with
  | Some true =>
      let db1 := if edit then db else createEntry m db in
      Some (storeRevision m db1)
  | Some false => Some db
  | None => None
  end.

Fixpoint forEach {X S} (f : X -> S -> option S) (l : list X) (st : S)
  : option S :=
  match l with
  | [] => Some st
  | x :: l' =>
      match f x st with
      | Some st' => forEach f l' st'
      | None => None
      end
  end.

Definition processMessageEdits (cfg : config) (m : message) (db : store)
  : option store :=
  match rev (edits m) with
  | [] => None
  | original :: later =>
      match processMessage cfg original false db with
      | Some db1 => forEach (fun v => processMessage cfg v true) later db1
      | None => None
      end
  end.

(** ** HistoryCrawler and LiveIngestor *)

Inductive logline : Type :=
| Preparing
| Scanning (ch : channel)
| FinishedScanning (ch : channel)
| ScanningComplete
| Received (edit : bool) (m : snapshot)     (* logMessage *)
| ErrorLine (e : jsstring).                 (* console.error *)

(** A call [channel.fetchMessages({ limit, before })]. *)
Definition request := (channel * nat * option jsstring)%type.

(** The answer of the gateway to [channel.fetchMessages]: a page, newest
    message first, or a rejection. *)
Inductive response : Type :=
| Page (messages : list message)
| Rejected (e : jsstring).

Definition gateway := channel -> nat -> option jsstring -> response.

Record world : Type := World {
  db : store;
  channelsRemaining : Z;
  pending : list request;       (* fetches not yet answered *)
  requests : list request;      (* every fetch made, in order *)
  console : list logline;
  exit_code : option Z
}.

Definition set_db (d : store) (w : world) : world :=
  World d (channelsRemaining w) (pending w) (requests w) (console w)
        (exit_code w).

Definition set_remaining (n : Z) (w : world) : world :=
  World (db w) n (pending w) (requests w) (console w) (exit_code w).

Definition set_pending (p : list request) (w : world) : world :=
  World (db w) (channelsRemaining w) p (requests w) (console w) (exit_code w).

Definition log (l : logline) (w : world) : world :=
  World (db w) (channelsRemaining w) (pending w) (requests w)
        (console w ++ [l]) (exit_code w).

Definition quit (l : logline) (w : world) : world :=
  World (db w) (channelsRemaining w) (pending w) (requests w)
        (console w ++ [l]) (Some 0%Z).

Definition limit : nat := 100.

(** The inner [fetch(before)] of [scanChannel]: the request goes out. *)
Definition fetch (ch : channel) (before : option jsstring) (w : world)
  : world :=
  World (db w) (channelsRemaining w) (pending w ++ [(ch, limit, before)])
        (requests w ++ [(ch, limit, before)]) (console w) (exit_code w).

(** The [then] and [catch] callbacks of the fetch. *)
Definition on_response (cfg : config) (ch : channel) (r : response)
           (w : world) : option world :=
  match r with
  | Rejected e => Some (log (ErrorLine e) w)
  | Page messages =>
      match forEach (processMessageEdits cfg) messages (db w) with
      | None => None
      | Some d =>
          let w1 := set_db d w in
          if Nat.eqb (length messages) limit then
            match rev messages with
            | oldest :: _ => Some (fetch ch (Some (id (latest oldest))) w1)
            | [] => None
            end
          else
            let w2 := log (FinishedScanning ch) w1 in
            let n := (channelsRemaining w2 - 1)%Z in
            let w3 := set_remaining n w2 in
            if Z.eqb n 0 then
              if oneshot cfg then Some (quit ScanningComplete w3)
              else Some (log ScanningComplete w3)
            else Some w3
      end
  end.

Definition scanChannel (ch : channel) (w : world) : world :=
  fetch ch None (log (Scanning ch) w).

Record guild : Type := Guild {
  guild_name : jsstring;
  guild_channels : list channel
}.

Definition text_channels (guilds : list guild) : list channel :=
  flat_map (fun g => filter (fun ch => jseqb (chan_type ch) (str "text"))
                            (guild_channels g)) guilds.

Definition scanHistory (guilds : list guild) (w : world) : world :=
  let channels := text_channels guilds in
  fold_left (fun w' ch => scanChannel ch w') channels
            (set_remaining (Z.of_nat (length channels)) (log Preparing w)).

(** The handlers of "ready", "message" and "messageUpdate". *)
Definition on_ready (cfg : config) (guilds : list guild) (w : world) : world :=
  if parse cfg then scanHistory guilds w else w.

Definition on_message (cfg : config) (m : snapshot) (w : world)
  : option world :=
  if parse cfg && oneshot cfg then Some w
  else
    let w1 := log (Received false m) w in
    option_map (fun d => set_db d w1) (processMessage cfg m false (db w1)).

Definition on_messageUpdate (cfg : config) (oldMessage newMessage : snapshot)
           (w : world) : option world :=
  if parse cfg && oneshot cfg then Some w
  else
    let w1 := log (Received true newMessage) w in
    option_map (fun d => set_db d w1)
               (processMessage cfg newMessage true (db w1)).

Definition start : world := World [] 0 [] [] [] None.

(** One callback runs at a time, in any order the gateway answers; nothing
    runs once the process has exited. *)
Inductive step (cfg : config) (gw : gateway) : world -> world -> Prop :=
| step_response : forall w ch n before (pre post : list request) w',
    exit_code w = None ->
    pending w = pre ++ ((ch, n, before) : request) :: post ->
    on_response cfg ch (gw ch n before) (set_pending (pre ++ post) w)
      = Some w' ->
    step cfg gw w w'
| step_message : forall w m w',
    exit_code w = None ->
    on_message cfg m w = Some w' ->
    step cfg gw w w'
| step_messageUpdate : forall w m0 m1 w',
    exit_code w = None ->
    on_messageUpdate cfg m0 m1 w = Some w' ->
    step cfg gw w w'.

Definition steps (cfg : config) (gw : gateway) : world -> world -> Prop :=
  clos_refl_trans_1n world (step cfg gw).

(** ** Fenced blocks, as the specification describes them *)

(** A triple backtick occurs somewhere in [s]. *)
Fixpoint has_fence (s : jsstring) : bool :=
  match strip_prefix fence s with
  | Some _ => true
  | None =>
      match s with
      | [] => false
      | _ :: s' => has_fence s'
      end
  end.

Definition newlines (n : nat) : jsstring := repeat nl n.

Definition tag_line (tag : option jsstring) : jsstring :=
  match tag with
  | Some l => l ++ [nl]
  | None => []
  end.

(** An opening fence, an optional tag line, blank lines, the body, blank
    lines, a closing fence. *)
Definition fenced (tag : option jsstring) (a : nat) (body : jsstring)
           (b : nat) : jsstring :=
  fence ++ tag_line tag ++ newlines a ++ body ++ newlines b ++ fence.

(** The last character, if any, is not a newline. *)
Definition ends_clean (u : jsstring) : bool :=
  match rev u with
  | x :: _ => negb (is_newline x)
  | [] => true
  end.

(** A body with no blank line left at either end. *)
Definition trimmed (body : jsstring) : bool :=
  match body with
  | x :: _ => negb (is_newline x)
  | [] => true
  end
  && ends_clean body.

(** A tag the pattern takes for a language. *)
Definition lower_tag (l : jsstring) : bool :=
  negb (Nat.eqb (length l) 0) && forallb is_lower l.

(** The text holds an opening and, after it, a closing triple backtick. *)
Definition contains_fenced (s : jsstring) : Prop :=
  exists u v w, s = u ++ fence ++ v ++ fence ++ w.

(** ** The language of a pattern

    The texts a pattern matches, without regard to the order in which the
    matcher tries them. *)
Inductive matches : regex -> jsstring -> Prop :=
| M_empty : matches Empty []
| M_chars : forall neg items x,
    in_class neg items x = true -> matches (Chars neg items) [x]
| M_seq : forall r1 r2 w1 w2,
    matches r1 w1 -> matches r2 w2 -> matches (Seq r1 r2) (w1 ++ w2)
| M_alt_l : forall r1 r2 w, matches r1 w -> matches (Alt r1 r2) w
| M_alt_r : forall r1 r2 w, matches r2 w -> matches (Alt r1 r2) w
| M_star_nil : forall g r, matches (Star g r) []
| M_star_cons : forall g r w1 w2,
    matches r w1 -> matches (Star g r) w2 -> matches (Star g r) (w1 ++ w2)
| M_opt_none : forall g r, matches (Opt g r) []
| M_opt_some : forall g r w, matches r w -> matches (Opt g r) w
| M_group : forall n r w, matches r w -> matches (Group n r) w.

(** Some part of the text is matched by the pattern. *)
Definition occurs (r : regex) (s : jsstring) : Prop :=
  exists u w v, s = u ++ w ++ v /\ matches r w.

(** The text holds a link in the sense of [matchUrlWithDomain], for some
    configured domain. *)
Definition has_link (cfg : config) (s : jsstring) : Prop :=
  exists d r, In d (domains cfg) /\ url_regex d = Some r /\ occurs r s.

(** Every configured domain gives a pattern of the fragment. *)
Definition domains_ok (cfg : config) : Prop :=
  forall d, In d (domains cfg) -> exists r, url_regex d = Some r.

(** ** Links, as the specification words them

    These definitions follow the words of the specification, not the code,
    and are there to be compared with what the code does: the host of a URL
    is what stands between the scheme and the next slash, question mark or
    hash, and it is allow-listed when it ends in a configured domain. *)

Definition host_end (c : char) : bool :=
  N.eqb c 47 || N.eqb c 63 || N.eqb c 35.

Definition claimed_host (url : jsstring) : option jsstring :=
  let host r := take_while (fun c => negb (host_end c)) r in
  match strip_prefix (str "https://") url with
  | Some r => Some (host r)
  | None =>
      match strip_prefix (str "http://") url with
      | Some r => Some (host r)
      | None => None
      end
  end.

Definition ends_with (suffix s : jsstring) : bool :=
  match strip_prefix (rev suffix) (rev s) with
  | Some _ => true
  | None => false
  end.

Definition claimed_allow_listed (cfg : config) (host : jsstring) : bool :=
  existsb (fun d => ends_with d host) (domains cfg).

(** ** Rows and classifications, as the specification names them *)

Definition entry_row (m : snapshot) : row :=
  (str "Message",
   [VString (id m); getChannelName (msg_channel m); VString (author_tag m)]).

Definition revision_row (m : snapshot) : row :=
  (str "Content",
   [VString (content m); VNumber (getLatestTimestamp m); VString (id m)]).

Definition identity_rows (d : store) : store :=
  filter (fun r => jseqb (fst r) (str "Message")) d.

Definition revision_rows (d : store) : store :=
  filter (fun r => jseqb (fst r) (str "Content")) d.

(** The original version of a message: the last of [message.edits]. *)
Definition original (m : message) : snapshot := last (edits m) (latest m).

Record classification : Type := Classification {
  hasCode : bool;
  links : list jsstring
}.

Definition classify (cfg : config) (text : jsstring)
  : option classification :=
  match getCodeBlocks text, getLinks cfg text with
  | Some bs, Some ls => Some (Classification (negb (Nat.eqb (length bs) 0)) ls)
  | _, _ => None
  end.

Definition hasLinks (c : classification) : bool :=
  negb (Nat.eqb (length (links c)) 0).

Definition errors (lines : list logline) : nat :=
  length (filter (fun l => match l with ErrorLine _ => true | _ => false end)
                 lines).

Definition completed (w : world) : Prop :=
  In ScanningComplete (console w) \/ exit_code w <> None.

(** ** Example data *)

Definition general : channel := Channel (str "text") (str "general") [].

Definition example_config : config :=
  Config [str "pastebin.com"; str "hastebin.com"] true false.

Definition code_text : jsstring :=
  str "check this out ```js" ++ nl :: str "console.log(1)" ++ nl :: str "```".

Definition edited_text : jsstring :=
  str "see ``` js" ++ nl :: str "console.log(2)" ++ nl :: str "``` thanks".

Definition link_text : jsstring := str "look at https://pastebin.com/Ab12".

Definition plain_text : jsstring := str "hello world".

(** A link whose host is not a configured domain and whose path holds
    one. *)
Definition unlisted_text : jsstring := str "http://evil.org/a.pastebin.com".

Definition created_at : Z := 1500000000000.
Definition first_edit_at : Z := 1500000000500.
Definition second_edit_at : Z := 1500000000900.

Definition version (text : jsstring) (edited : option Z) : snapshot :=
  Snapshot (str "1001") text created_at edited general (str "alice#0001").

(** The requests of a channel whose history is one full page: the first
    page, and the page before its oldest message. *)
Definition first_request (ch : channel) : request := (ch, limit, None).

Definition next_request (ch : channel) (oldest : message) : request :=
  (ch, limit, Some (id (latest oldest))).

(** A page of one hundred messages and a gateway that serves it, then an
    empty page. *)
Definition id_of (i : nat) : jsstring :=
  [N.of_nat (48 + i / 10); N.of_nat (48 + i mod 10)].

Definition plain_message (i : nat) : message :=
  Message (Snapshot (id_of i) plain_text created_at None general
                    (str "bob#0002")) [].

Definition full_page_front : list message := map plain_message (seq 0 99).
Definition full_page_oldest : message := plain_message 99.

Definition one_page_gateway : gateway :=
  fun _ _ before =>
    match before with
    | None => Page (full_page_front ++ [full_page_oldest])
    | Some _ => Page []
    end.

(** A gateway that rejects every fetch, and a community with one text
    channel. *)
Definition failing_gateway : gateway :=
  fun _ _ _ => Rejected (str "Missing Access").

Definition example_guild : guild := Guild (str "snippets") [general].

(** The state after the only fetch of that community has been rejected. *)
Definition stalled_world : world :=
  log (ErrorLine (str "Missing Access"))
      (set_pending [] (scanHistory [example_guild] start)).

(** ** Statements about the matcher and the pipeline *)

(** Whatever the matcher returns comes from a text of the language and a
    successful continuation. *)
Definition sound_for (A : Type) (r : regex) (m : matcher A) : Prop :=
  forall s c k a,
    m s c k = Some a ->
    exists w s' c', s = w ++ s' /\ matches r w /\ k s' c' = Some a.

(** The matcher succeeds on every text of the language whose continuation
    cannot fail. *)
Definition complete_for (A : Type) (r : regex) (m : matcher A) : Prop :=
  forall w, matches r w ->
  forall s' c k, (forall c', k s' c' <> None) -> m (w ++ s') c k <> None.

(** The classification of a version, where it is defined. *)
Definition relevance (cfg : config) (v : snapshot) : bool :=
  match isRelevant cfg (content v) with
  | Some b => b
  | None => false
  end.

(** The rows a call adds come after the rows already stored. *)
Definition extends (d d' : store) : Prop := exists rows, d' = d ++ rows.

(** The crawl of a one-page channel is waiting for the first page, or for
    the second, or is over. *)
Definition one_page_state (ch : channel) (oldest : message) (w0 w : world)
  : Prop :=
  (pending w = [first_request ch]
   /\ requests w = requests w0 ++ [first_request ch])
  \/ (pending w = [next_request ch oldest]
      /\ requests w
         = requests w0 ++ [first_request ch; next_request ch oldest])
  \/ (pending w = []
      /\ requests w
         = requests w0 ++ [first_request ch; next_request ch oldest]).

(** The counter is the number of channels still being fetched plus the
    number of channels whose fetch failed, and completion is only ever
    signalled at zero. *)
Definition counter_ok (w : world) : Prop :=
  channelsRemaining w
  = Z.of_nat (length (pending w) + errors (console w))
  /\ (completed w -> channelsRemaining w = 0%Z).

(** A channel with no fetch under way. *)
Definition idle (ch : channel) (w : world) : Prop :=
  forall r, In r (pending w) -> fst (fst r) <> ch.

Ltac reassoc :=
  repeat (rewrite <- app_assoc || rewrite <- app_comm_cons); reflexivity.

(** ** Console output: [tabNewlines] and [logMessage] *)

Definition tab : char := 9%N.

(** [string.split(sep)] for a separator of one code unit: the pieces
    between the separators, at least one. *)
Fixpoint js_split (sep : char) (s : jsstring) : list jsstring :=
  match s with
  | [] => [[]]
  | x :: s' =>
      if N.eqb x sep then [] :: js_split sep s'
      else
        match js_split sep s' with
        | piece :: pieces => (x :: piece) :: pieces
        | [] => [[x]]
        end
  end.

(** [array.join(sep)]. *)
Fixpoint join (sep : jsstring) (parts : list jsstring) : jsstring :=
  match parts with
  | [] => []
  | p :: ps =>
      p ++ match ps with
           | [] => []
           | _ :: _ => sep ++ join sep ps
           end
  end.

(** [array.map((x, i) => f(x, i))], counting from [i]. *)
Fixpoint map_indexed {X Y} (f : X -> nat -> Y) (i : nat) (l : list X)
  : list Y :=
  match l with
  | [] => []
  | x :: l' => f x i :: map_indexed f (S i) l'
  end.

Definition tabNewlines (string : jsstring) : jsstring :=
  join [nl]
       (map_indexed (fun line i => match i with
                                   | O => line
                                   | S _ => tab :: line
                                   end)
                    0 (js_split nl string)).

(** The text [logMessage] prints; [guild] is [message.guild.name], absent
    for a direct message. *)
Definition logMessage (guild : option jsstring) (message : snapshot)
           (edit : bool) : jsstring :=
  let loggedMsg := tabNewlines (content message) in
  let e := if edit then str "(edit) " else [] in
  match guild with
  | None => e ++ author_tag message ++ str "> " ++ loggedMsg
  | Some name =>
      e ++ name ++ str "> #" ++ chan_name (msg_channel message) ++ str "> "
        ++ author_tag message ++ str "> " ++ loggedMsg
  end.

(** Every newline of [s] is followed by a tab. *)
Definition tabbed (s : jsstring) : Prop :=
  forall u v, s = u ++ nl :: v -> exists v', v = tab :: v'.

Definition newline_free (s : jsstring) : Prop := ~ In nl s.

(** ** The statements sent to the database *)

(** The tables [prepareDatabase] asserts, with their columns. *)
Definition schema : list (jsstring * list jsstring) :=
  [(str "Message", [str "msgId"; str "channel"; str "author"]);
   (str "Content", [str "fullMessage"; str "date"; str "associatedMsg"])].

(** The statement of [assertTable]. *)
Definition assertTable (table : jsstring) (columns : list jsstring)
  : jsstring :=
  str "CREATE TABLE IF NOT EXISTS " ++ table ++ str "("
      ++ join (str ", ") columns ++ str ")".

Definition prepareDatabase : list jsstring :=
  map (fun t => assertTable (fst t) (snd t)) schema.

(** The statement of [insertRow]: one question mark for each value. *)
Definition insert_query (table : jsstring) (values : list value)
  : jsstring :=
  str "INSERT INTO " ++ table ++ str " VALUES("
      ++ join (str ", ") (repeat (str "?") (length values)) ++ str ")".

Fixpoint columns_of (tables : list (jsstring * list jsstring))
         (table : jsstring) : option (list jsstring) :=
  match tables with
  | [] => None
  | (name, columns) :: rest =>
      if jseqb name table then Some columns else columns_of rest table
  end.

(** A row fits the schema: its table is declared and it has one value for
    each column. *)
Definition fits_schema (r : row) : Prop :=
  exists columns,
    columns_of schema (fst r) = Some columns
    /\ length (snd r) = length columns.

Definition question_marks (s : jsstring) : nat :=
  length (filter (N.eqb 63) s).

(** ** Rows as they are written *)

(** Rows written by calls of [processMessage]: a revision on its own, or an
    identity row and at once the revision of the same version. *)
Inductive written : store -> Prop :=
| written_nil : written []
| written_revision : forall m rows,
    written rows -> written (revision_row m :: rows)
| written_new : forall m rows,
    written rows -> written (entry_row m :: revision_row m :: rows).

(** ** Matches in a text *)

(** The texts [ms] are matched by [r] and lie in [s] one after the other,
    without overlap. *)
Inductive found_in (r : regex) : list jsstring -> jsstring -> Prop :=
| found_none : forall s, found_in r [] s
| found_next : forall u m v ms,
    matches r m -> found_in r ms v -> found_in r (m :: ms) (u ++ m ++ v).

(** ** States of the backfill *)

(** Completion has been signalled and the counter is at zero, or neither;
    the process has exited only through completion in one-shot mode. *)
Definition completion_ok (cfg : config) (w : world) : Prop :=
  (channelsRemaining w = 0%Z
   /\ In ScanningComplete (console w)
   /\ exit_code w = if oneshot cfg then Some 0%Z else None)
  \/ (channelsRemaining w <> 0%Z
      /\ ~ In ScanningComplete (console w)
      /\ exit_code w = None).

(** Every fetch made or under way asks for [limit] messages of a text
    channel among [channels]. *)
Definition request_ok (channels : list channel) (r : request) : Prop :=
  snd (fst r) = limit /\ In (fst (fst r)) channels.

Definition requests_ok (channels : list channel) (w : world) : Prop :=
  Forall (request_ok channels) (pending w)
  /\ Forall (request_ok channels) (requests w).

(** Nothing is being fetched and nothing has completed. *)
Definition quiet (w : world) : Prop :=
  pending w = [] /\ ~ completed w.

(** The state after the handler of "message" has stored a first message. *)
Definition created_world : world :=
  set_db (storeRevision (version code_text None)
                        (createEntry (version code_text None) []))
         (log (Received false (version code_text None)) start).

(** A gateway whose channels are empty, a one-shot configuration, and the
    states after the only channel of the community has been scanned. *)
Definition empty_gateway : gateway := fun _ _ _ => Page [].

Definition one_shot_config : config := Config [str "pastebin.com"] true true.

Definition scanned_world : world :=
  set_remaining 0
    (log (FinishedScanning general)
         (set_db [] (set_pending [] (scanHistory [example_guild] start)))).

Definition finished_world : world := log ScanningComplete scanned_world.

Definition exited_world : world := quit ScanningComplete scanned_world.

(** ** Closed forms used by the further properties *)

(** What [tabNewlines] does to a text, character by character: a tab after
    every newline. *)
Fixpoint expand_newlines (s : jsstring) : jsstring :=
  match s with
  | [] => []
  | x :: s' =>
      if N.eqb x nl then nl :: tab :: expand_newlines s'
      else x :: expand_newlines s'
  end.

(** The callback of [tabNewlines]. *)
Definition tab_line (line : jsstring) (i : nat) : jsstring :=
  match i with
  | O => line
  | S _ => tab :: line
  end.

(** *** The pattern of [matchUrlWithDomain] for a plain domain *)

(** A character of a domain that the pattern source takes for itself, or
    the dot. *)
Definition domain_char (c : char) : bool :=
  N.eqb c 46 || negb (is_syntax_char c).

Definition domain_atom (c : char) : regex :=
  if N.eqb c 46 then Dot else Lit c.

Fixpoint domain_part (d : jsstring) (r : regex) : regex :=
  match d with
  | [] => r
  | c :: d' => Seq (domain_atom c) (domain_part d' r)
  end.

Definition slash : regex := Chars false [CRange 47 47].

Definition subdomain_part : regex :=
  Opt true (Group 2 (Seq (Plus false Dot) (Chars false [CRange 46 46]))).

Definition path_chars : list citem :=
  [CRange 65 90; CRange 97 122; CRange 48 57; CRange 45 45; CRange 46 46;
   CRange 95 95; CRange 126 126; CRange 58 58; CRange 47 47; CRange 63 63;
   CRange 35 35; CRange 91 91; CRange 93 93; CRange 64 64; CRange 33 33;
   CRange 36 36; CRange 38 38; CRange 39 39; CRange 40 40; CRange 41 41;
   CRange 42 42; CRange 43 43; CRange 44 44; CRange 59 59; CRange 61 61].

Definition path_part : regex :=
  Opt true (Group 3 (Seq slash (Star true (Chars false path_chars)))).

Definition url_pattern (d : jsstring) : regex :=
  Group 1
    (Seq (Lit 104) (Seq (Lit 116) (Seq (Lit 116) (Seq (Lit 112)
      (Seq (Opt true (Lit 115))
        (Seq (Lit 58) (Seq slash (Seq slash
          (Seq subdomain_part (domain_part d path_part)))))))))).

Definition scheme (secure : bool) : jsstring :=
  if secure then str "https://" else str "http://".

(** The text starts with a quantifier of the pattern syntax. *)
Definition starts_quantifier (s : jsstring) : bool :=
  match s with
  | c :: _ => N.eqb c 42 || N.eqb c 43 || N.eqb c 63
  | [] => false
  end.

(** The character [x] of a text can stand where the domain has [c]: the
    dot of a domain is the dot of the pattern. *)
Definition stands_for (c x : char) : bool :=
  if N.eqb c 46
  then in_class true [CRange 10 10; CRange 13 13; CRange 8232 8233] x
  else N.eqb c x.

Definition plain_config (cfg : config) : Prop :=
  forall d, In d (domains cfg) -> forallb domain_char d = true.

(** * Properties *)

(** ** Patterns and examples *)

(** The pattern of [getCodeBlocks] is what its source text denotes. *)
Lemma code_regex_source : parse_regex code_source = Some code_regex.
Proof. vm_compute. reflexivity. Qed.

(** The matcher on the example of the language definition: the captures of
    a repeated group are those of its last round. *)
Example captures_of_last_round :
  option_map
    (fun r =>
       option_map
         (fun found =>
            (matched (snd found),
             map (fun n => capture n (caps (snd found))) [1; 2; 3; 4; 5]))
         (exec r (str "zaacbbbcac")))
    (parse_regex (str "(z)((a+)?(b+)?(c))*"))
  = Some (Some (str "zaacbbbcac",
                [Some (str "z"); Some (str "ac"); Some (str "a"); None;
                 Some (str "c")])).
Proof. vm_compute. reflexivity. Qed.

(** Empty matches of a global pattern move the search on by one. *)
Example empty_matches :
  option_map (fun r => match_all 7 r (str "abcabc")) (parse_regex (str "b*"))
  = Some (Some [[]; str "b"; []; []; str "b"; []; []]).
Proof. vm_compute. reflexivity. Qed.

Example blocks_of_two_fences :
  getCodeBlocks (str "a ```js" ++ nl :: str "x = 1" ++ nl :: nl
                     :: str "``` and `````` end")
  = Some [Block (Some (str "js")) (Some (str "x = 1"));
          Block None (Some [])].
Proof. vm_compute. reflexivity. Qed.

Example links_of_listed_domains :
  getLinks example_config link_text = Some [str "https://pastebin.com/Ab12"]
  /\ getLinks example_config (str "it is at http://www.hastebin.com/x?y=1#z !")
     = Some [str "http://www.hastebin.com/x?y=1#z"].
Proof. vm_compute. split; reflexivity. Qed.

Example no_link_on_other_domain :
  getLinks example_config (str "http://example.org/pastebin") = Some [].
Proof. vm_compute. reflexivity. Qed.

Example relevance_of_examples :
  isRelevant example_config code_text = Some true
  /\ isRelevant example_config link_text = Some true
  /\ isRelevant example_config plain_text = Some false.
Proof. vm_compute. repeat split. Qed.

(** The scenario of the specification: a message with a fenced block is
    created, then edited; one identity row, then one revision per event,
    the second with the edit time. *)
Example created_then_edited :
  let created := version code_text None in
  let edited := version edited_text (Some second_edit_at) in
  exists w1 w2,
    on_message example_config created start = Some w1
    /\ on_messageUpdate example_config created edited w1 = Some w2
    /\ db w1 = [(str "Message",
                 [VString (str "1001"); VString (str "#general");
                  VString (str "alice#0001")]);
                (str "Content",
                 [VString code_text; VNumber created_at;
                  VString (str "1001")])]
    /\ db w2 = db w1 ++ [(str "Content",
                          [VString edited_text; VNumber second_edit_at;
                           VString (str "1001")])].
Proof.
  cbv zeta. eexists. eexists.
  split; [vm_compute; reflexivity|]. split; [vm_compute; reflexivity|].
  split; vm_compute; reflexivity.
Qed.

(** ** The matcher on one-character classes *)

Lemma clear_no_names (c : captures) : clear [] c = c.
Proof.
  induction c as [|kv c IH]; [reflexivity|].
  change (clear [] (kv :: c)) with (kv :: clear [] c). now rewrite IH.
Qed.

Lemma orelse_none_r {A} (a : option A) : orelse a None = a.
Proof. now destruct a. Qed.

Section RunLemmas.
Variable A : Type.
Variables (neg : bool) (items : list citem).
Let p := in_class neg items.

Lemma star_greedy_chars (fuel : nat) :
  forall s c (k : cont A),
    length s < fuel ->
    repeat_star (@run A (Chars neg items)) [] true fuel s c k
    = greedy_run p s c k.
Proof.
  induction fuel as [|f IH]; intros s c k Hlen; [lia|].
  destruct s as [|x s']; simpl.
  - reflexivity.
  - rewrite clear_no_names. fold p. destruct (p x); [|reflexivity].
    assert (Hlt : Nat.ltb (length s') (S (length s')) = true)
      by (apply Nat.ltb_lt; lia).
    rewrite Hlt. f_equal. apply IH. simpl in Hlen. lia.
Qed.

Lemma star_lazy_chars (fuel : nat) :
  forall s c (k : cont A),
    length s < fuel ->
    repeat_star (@run A (Chars neg items)) [] false fuel s c k
    = lazy_run p s c k.
Proof.
  induction fuel as [|f IH]; intros s c k Hlen; [lia|].
  destruct s as [|x s']; simpl.
  - now rewrite orelse_none_r.
  - rewrite clear_no_names. fold p. destruct (p x); [|reflexivity].
    assert (Hlt : Nat.ltb (length s') (S (length s')) = true)
      by (apply Nat.ltb_lt; lia).
    rewrite Hlt. f_equal. apply IH. simpl in Hlen. lia.
Qed.

Lemma run_seq_star_chars (g : bool) (r : regex) s c (k : cont A) :
  run (Seq (Star g (Chars neg items)) r) s c k
  = (if g then greedy_run p else lazy_run p) s c
      (fun s1 c1 => run r s1 c1 k).
Proof.
  change (run (Seq (Star g (Chars neg items)) r) s c k)
    with (repeat_star (@run A (Chars neg items)) [] g (S (length s)) s c
            (fun s1 c1 => run r s1 c1 k)).
  destruct g; [apply star_greedy_chars | apply star_lazy_chars]; lia.
Qed.

Lemma run_seq_group_star_chars (n : nat) (g : bool) (r : regex) s c
      (k : cont A) :
  run (Seq (Group n (Star g (Chars neg items))) r) s c k
  = (if g then greedy_run p else lazy_run p) s c
      (fun s1 c1 => run r s1 (set_capture n (consumed s s1) c1) k).
Proof.
  change (run (Seq (Group n (Star g (Chars neg items))) r) s c k)
    with (repeat_star (@run A (Chars neg items)) [] g (S (length s)) s c
            (fun s1 c1 => run r s1 (set_capture n (consumed s s1) c1) k)).
  destruct g; [apply star_greedy_chars | apply star_lazy_chars]; lia.
Qed.

End RunLemmas.

Section LazyLemmas.
Variable A : Type.
Variable p : char -> bool.

Lemma lazy_run_ext (k k' : cont A) :
  (forall s c, k s c = k' s c) ->
  forall s c, lazy_run p s c k = lazy_run p s c k'.
Proof.
  intros H s c. induction s as [|x s' IH]; simpl; [apply H|].
  rewrite IH, H. reflexivity.
Qed.
Lemma greedy_run_ext (k k' : cont A) :
  (forall s c, k s c = k' s c) ->
  forall s c, greedy_run p s c k = greedy_run p s c k'.
Proof.
  intros H s c. induction s as [|x s' IH]; simpl; [apply H|].
  rewrite IH, H. reflexivity.
Qed.

(** When the continuation cannot succeed one character earlier than it
    fails, the greedy run is decided by its longest attempt. *)
Lemma greedy_run_longest (k : cont A) :
  (forall x s c, p x = true -> k s c = None -> k (x :: s) c = None) ->
  forall s c, greedy_run p s c k = k (drop_while p s) c.
Proof.
  intros Hk s c.
  assert (Hback : forall s, k (drop_while p s) c = None -> k s c = None).
  { intros s0. induction s0 as [|x s0 IH]; simpl; [auto|].
    destruct (p x) eqn:Hx; [|auto]. intros H. apply Hk; auto. }
  induction s as [|x s' IH]; simpl; [reflexivity|].
  destruct (p x) eqn:Hx; [|reflexivity].
  rewrite IH. destruct (k (drop_while p s') c) eqn:Hd; simpl; [reflexivity|].
  apply Hk; auto.
Qed.
End LazyLemmas.

Lemma in_class_lit (a x : char) : in_class false [CRange a a] x = N.eqb a x.
Proof.
  unfold in_class. cbn [existsb item_has xorb]. unfold in_range.
  rewrite orb_false_r.
  destruct (N.eqb_spec a x) as [->|Hne].
  - now rewrite N.leb_refl.
  - destruct (N.leb_spec a x), (N.leb_spec x a); simpl; try reflexivity.
    exfalso. apply Hne. lia.
Qed.

Lemma anything_all (x : char) : in_class false [CSpace; CNotSpace] x = true.
Proof.
  unfold in_class. cbn [existsb item_has xorb]. now destruct (is_space x).
Qed.

Lemma is_newline_eq (x : char) : is_newline x = true -> x = nl.
Proof.
  unfold is_newline. rewrite in_class_lit. intros H.
  apply N.eqb_eq in H. now subst.
Qed.

Lemma is_lower_not_newline (x : char) : is_lower x = true -> is_newline x = false.
Proof.
  unfold is_lower, is_newline, in_class. cbn [existsb item_has xorb].
  unfold in_range. rewrite !orb_false_r.
  intros H. apply andb_true_iff in H as [H1 _]. apply N.leb_le in H1.
  destruct (N.leb_spec 10 x), (N.leb_spec x 10); simpl; try reflexivity. lia.
Qed.

Lemma is_lower_not_backtick (x : char) : is_lower x = true -> N.eqb bt x = false.
Proof.
  unfold is_lower, in_class. cbn [existsb item_has xorb]. unfold in_range.
  rewrite !orb_false_r.
  intros H. apply andb_true_iff in H as [H1 _]. apply N.leb_le in H1.
  apply N.eqb_neq. unfold bt. lia.
Qed.

Lemma consumed_app (pre s : jsstring) : consumed (pre ++ s) s = pre.
Proof.
  unfold consumed. rewrite length_app.
  replace (length pre + length s - length s) with (length pre) by lia.
  rewrite firstn_app, firstn_all, Nat.sub_diag. simpl. apply app_nil_r.
Qed.

Lemma take_drop_while (p : char -> bool) (s : jsstring) :
  take_while p s ++ drop_while p s = s.
Proof.
  induction s as [|x s IH]; simpl; [reflexivity|].
  destruct (p x); simpl; [now rewrite IH | reflexivity].
Qed.

Lemma strip_prefix_app (p s r : jsstring) :
  strip_prefix p s = Some r <-> s = p ++ r.
Proof.
  revert s. induction p as [|x p IH]; intros s; simpl.
  - split; intros H; [now inversion H | now subst].
  - destruct s as [|y s]; [split; discriminate|].
    destruct (N.eqb_spec x y) as [->|Hne].
    + rewrite IH. split; intros H; [now subst | now inversion H].
    + split; [discriminate | intros H; congruence].
Qed.

(** ** The closing fence *)

Lemma closing_newline (s : jsstring) : closing (nl :: s) = closing s.
Proof. reflexivity. Qed.

Lemma closing_other (x : char) (s : jsstring) :
  N.eqb bt x = false -> is_newline x = false -> closing (x :: s) = None.
Proof.
  intros Hb Hn. unfold closing. cbn [drop_while]. rewrite Hn.
  unfold fence. cbn [strip_prefix]. now rewrite Hb.
Qed.

Lemma find_close_closing (s : jsstring) :
  find_close s = None -> closing s = None.
Proof.
  intros H. destruct (closing s) eqn:E; [exfalso|reflexivity].
  destruct s as [|x s]; cbn [find_close] in H; rewrite E in H; discriminate.
Qed.

Lemma find_close_cons (x : char) (s : jsstring) :
  N.eqb bt x = false -> find_close s = None -> find_close (x :: s) = None.
Proof.
  intros Hb Hs.
  assert (Hc : closing (x :: s) = None).
  { destruct (is_newline x) eqn:Hn.
    - apply is_newline_eq in Hn. subst x. rewrite closing_newline.
      now apply find_close_closing.
    - now apply closing_other. }
  cbn [find_close]. rewrite Hc, Hs. reflexivity.
Qed.

Lemma find_close_skip_newlines (s : jsstring) :
  find_close (drop_while is_newline s) = None -> find_close s = None.
Proof.
  induction s as [|x s IH]; simpl; [auto|].
  destruct (is_newline x) eqn:Hn; [|auto].
  intros H. apply is_newline_eq in Hn. subst x.
  apply find_close_cons; [reflexivity | auto].
Qed.

Lemma find_close_lower_run (l s : jsstring) :
  forallb is_lower l = true -> find_close s = None ->
  find_close (l ++ s) = None.
Proof.
  induction l as [|x l IH]; simpl; [auto|].
  intros H Hs. apply andb_true_iff in H as [Hx Hl].
  apply find_close_cons; [now apply is_lower_not_backtick | auto].
Qed.

(** ** The code pattern, part by part *)

Section CodePattern.
Variable A : Type.
Variable f : jsstring -> captures -> A.
Let K : cont A := fun s c => Some (f s c).

Lemma run_close_fence (s : jsstring) (c : captures) (k : cont A) :
  run close_fence s c k
  = match strip_prefix fence s with Some r => k r c | None => None end.
Proof.
  unfold close_fence, backtick, Lit, fence, bt. cbn [run strip_prefix].
  destruct s as [|x s]; [reflexivity|]. rewrite in_class_lit.
  destruct (N.eqb 96 x); [|reflexivity].
  destruct s as [|y s]; [reflexivity|]. rewrite in_class_lit.
  destruct (N.eqb 96 y); [|reflexivity].
  destruct s as [|z s]; [reflexivity|]. rewrite in_class_lit.
  now destruct (N.eqb 96 z).
Qed.

Lemma run_trailer (s : jsstring) (c : captures) (k : cont A) :
  run trailer s c k
  = match closing s with Some r => k r c | None => None end.
Proof.
  unfold trailer, newline, Lit. rewrite run_seq_star_chars.
  rewrite greedy_run_longest.
  - fold is_newline. rewrite run_close_fence. reflexivity.
  - intros x s0 c0 Hx _. rewrite run_close_fence.
    apply is_newline_eq in Hx. subst x. reflexivity.
Qed.

Lemma lazy_body (whole : jsstring) (c : captures) :
  forall s pre,
    whole = pre ++ s ->
    lazy_run (in_class false [CSpace; CNotSpace]) s c
      (fun s1 c1 =>
         run trailer s1 (set_capture 3 (consumed whole s1) c1) K)
    = match find_close s with
      | Some (b, r) => Some (f r (set_capture 3 (pre ++ b) c))
      | None => None
      end.
Proof.
  induction s as [|x s IH]; intros pre Hw.
  - cbn [lazy_run find_close]. rewrite run_trailer.
    subst whole. rewrite consumed_app.
    destruct (closing []); [now rewrite app_nil_r | reflexivity].
  - cbn [lazy_run find_close]. rewrite run_trailer, anything_all.
    subst whole. rewrite consumed_app.
    destruct (closing (x :: s)); [now rewrite app_nil_r|].
    cbn [orelse]. rewrite (IH (pre ++ [x])).
    + destruct (find_close s) as [[b r]|]; [|reflexivity].
      now rewrite <- app_assoc.
    + now rewrite <- app_assoc.
Qed.

Lemma run_body_part (s : jsstring) (c : captures) :
  run body_part s c K
  = match find_close s with
    | Some (b, r) => Some (f r (set_capture 3 b c))
    | None => None
    end.
Proof.
  unfold body_part, anything. rewrite run_seq_group_star_chars.
  apply (@lazy_body s c s []). reflexivity.
Qed.

Lemma run_after_tag (s : jsstring) (c : captures) :
  run after_tag s c K
  = match find_close (drop_while is_newline s) with
    | Some (b, r) => Some (f r (set_capture 3 b c))
    | None => None
    end.
Proof.
  unfold after_tag, newline, Lit. rewrite run_seq_star_chars.
  rewrite greedy_run_longest.
  - fold is_newline. apply run_body_part.
  - intros x s0 c0 Hx. rewrite !run_body_part.
    apply is_newline_eq in Hx. subst x.
    destruct (find_close s0) as [[b r]|] eqn:E; [discriminate|].
    intros _. rewrite find_close_cons; auto.
Qed.
End CodePattern.

Section TagPart.
Variable A : Type.

Lemma run_group_plus_chars (neg : bool) (items : list citem) (n : nat)
      (r : regex) s c (k : cont A) :
  run (Seq (Group n (Plus true (Chars neg items))) r) s c k
  = match s with
    | x :: s' =>
        if in_class neg items x
        then greedy_run (in_class neg items) s' c
               (fun s1 c1 => run r s1 (set_capture n (consumed s s1) c1) k)
        else None
    | [] => None
    end.
Proof.
  destruct s as [|x s']; [reflexivity|].
  change (run (Seq (Group n (Plus true (Chars neg items))) r) (x :: s') c k)
    with (if in_class neg items x
          then repeat_star (@run A (Chars neg items)) [] true
                 (S (length s')) s' c
                 (fun s1 c1 =>
                    run r s1 (set_capture n (consumed (x :: s') s1) c1) k)
          else None).
  destruct (in_class neg items x); [|reflexivity].
  apply star_greedy_chars. lia.
Qed.

Lemma run_tag_part (s : jsstring) (k : cont A) :
  run tag_part s [] k
  = match lang_tag s with
    | Some (l, r) => k r (tag_captures (Some l))
    | None => None
    end.
Proof.
  unfold tag_part.
  change (run (Group 1 (Seq (Group 2 (Plus true lower)) newline)) s [] k)
    with (run (Seq (Group 2 (Plus true lower)) newline) s []
            (fun sa ca => k sa (set_capture 1 (consumed s sa) ca))).
  unfold lower. rewrite run_group_plus_chars.
  change (in_class false [CRange 97 122]) with is_lower.
  unfold lang_tag. destruct s as [|x s']; [reflexivity|].
  cbn [take_while drop_while]. destruct (is_lower x) eqn:Hx; [|reflexivity].
  rewrite greedy_run_longest.
  - pose proof (take_drop_while is_lower s') as Hsplit.
    destruct (drop_while is_lower s') as [|y sa]; [reflexivity|].
    unfold newline, Lit. cbn [run].
    change (in_class false [CRange 10 10] y) with (is_newline y).
    destruct (is_newline y) eqn:Hy; [|reflexivity].
    apply is_newline_eq in Hy. subst y.
    assert (H2 : consumed (x :: s') (nl :: sa) = x :: take_while is_lower s').
    { rewrite <- Hsplit at 1.
      apply (consumed_app (x :: take_while is_lower s') (nl :: sa)). }
    assert (H1 : consumed (x :: s') sa
                 = (x :: take_while is_lower s') ++ [nl]).
    { rewrite <- Hsplit at 1.
      change (x :: take_while is_lower s' ++ nl :: sa)
        with ((x :: take_while is_lower s') ++ [nl] ++ sa).
      rewrite app_assoc. apply consumed_app. }
    rewrite H1, H2. reflexivity.
  - intros y s0 c0 Hy _. unfold newline, Lit. cbn [run].
    change (in_class false [CRange 10 10] y) with (is_newline y).
    now rewrite (is_lower_not_newline y Hy).
Qed.
End TagPart.

Lemma lang_tag_shape (s l r : jsstring) :
  lang_tag s = Some (l, r) ->
  s = l ++ nl :: r /\ l <> [] /\ forallb is_lower l = true.
Proof.
  unfold lang_tag. intros H.
  pose proof (take_drop_while is_lower s) as Hsplit.
  assert (Hall : forallb is_lower (take_while is_lower s) = true).
  { clear. induction s as [|x s IH]; simpl; [reflexivity|].
    destruct (is_lower x) eqn:Hx; simpl; [now rewrite Hx | reflexivity]. }
  revert H Hsplit Hall.
  destruct (take_while is_lower s) as [|x l0]; [discriminate|].
  destruct (drop_while is_lower s) as [|y r0]; [discriminate|].
  destruct (is_newline y) eqn:Hy; [|discriminate].
  apply is_newline_eq in Hy. intros H Hsplit Hall. inversion H. subst.
  split; [reflexivity|]. split; [discriminate | assumption].
Qed.

(** A match attempt of the code pattern is [block_at]. *)
Lemma match_here_code (s : jsstring) :
  match_here code_regex s
  = match block_at s with
    | Some (tag, b, r) =>
        Some (MatchResult (consumed s r) ((3, b) :: tag_captures tag) r)
    | None => None
    end.
Proof.
  unfold match_here, block_at.
  set (f := fun s' c => MatchResult (consumed s s') c s').
  change (fun s' c => Some (MatchResult (consumed s s') c s'))
    with (fun s' c => Some (f s' c)).
  assert (Hfence : forall t (k : cont match_result),
             run (Seq backtick (Seq backtick (Seq backtick t))) s [] k
             = match strip_prefix fence s with
               | Some s1 => run t s1 [] k
               | None => None
               end).
  { intros t k.
    change (run (Seq backtick (Seq backtick (Seq backtick t))) s [] k)
      with (run close_fence s [] (fun s1 c1 => run t s1 c1 k)).
    apply run_close_fence. }
  unfold code_regex. rewrite Hfence.
  destruct (strip_prefix fence s) as [s1|]; [|reflexivity].
  change (run (Seq (Opt true tag_part) after_tag) s1 [] (fun s' c => Some (f s' c)))
    with (orelse
            (run tag_part s1 []
               (fun s' c' =>
                  if Nat.ltb (length s') (length s1)
                  then run after_tag s' c' (fun s' c => Some (f s' c))
                  else None))
            (run after_tag s1 [] (fun s' c => Some (f s' c)))).
  rewrite run_tag_part, !run_after_tag.
  destruct (lang_tag s1) as [[l r]|] eqn:Htag.
  - apply lang_tag_shape in Htag as (Hs1 & Hl & Hlow).
    assert (Hlt : Nat.ltb (length r) (length s1) = true).
    { apply Nat.ltb_lt. subst s1. rewrite length_app. simpl. lia. }
    rewrite Hlt, run_after_tag.
    destruct (find_close (drop_while is_newline r)) as [[b r']|] eqn:Hfc.
    + reflexivity.
    + cbn [orelse].
      assert (Hnone : find_close (drop_while is_newline s1) = None).
      { assert (Hdw : drop_while is_newline s1 = s1).
        { subst s1. destruct l as [|x l]; [contradiction|].
          simpl in Hlow. apply andb_true_iff in Hlow as [Hx _].
          simpl. now rewrite (is_lower_not_newline x Hx). }
        rewrite Hdw. subst s1. apply find_close_lower_run; [assumption|].
        apply find_close_cons; [reflexivity|].
        now apply find_close_skip_newlines. }
      now rewrite Hnone.
  - cbn [orelse].
    destruct (find_close (drop_while is_newline s1)) as [[b r']|]; reflexivity.
Qed.

(** ** The search and the loop of [getCodeBlocks] *)

Lemma block_at_shorter (s : jsstring) tag b r :
  block_at s = Some (tag, b, r) -> length r < length s.
Proof.
  unfold block_at. destruct (strip_prefix fence s) as [s1|] eqn:Hs; [|discriminate].
  apply strip_prefix_app in Hs. subst s.
  assert (Hfc : forall t b0 r0, find_close t = Some (b0, r0) ->
                                length r0 < length t).
  { induction t as [|x t IH]; intros b0 r0; cbn [find_close].
    - unfold closing. simpl. discriminate.
    - destruct (closing (x :: t)) as [r1|] eqn:Hc.
      + intros H. inversion H. subst. unfold closing in Hc.
        apply strip_prefix_app in Hc.
        assert (Hle : length (drop_while is_newline (x :: t))
                      <= length (x :: t)).
        { generalize (x :: t). intros u. induction u as [|y u IHu]; simpl; [lia|].
          destruct (is_newline y); simpl; lia. }
        rewrite Hc in Hle. rewrite length_app in Hle. simpl in Hle |- *. lia.
      + destruct (find_close t) as [[b1 r1]|]; [|discriminate].
        intros H. inversion H. subst. specialize (IH _ _ eq_refl).
        simpl. lia. }
  assert (Hdw : forall t, length (drop_while is_newline t) <= length t).
  { induction t as [|y u IHu]; simpl; [lia|].
    destruct (is_newline y); simpl; lia. }
  destruct (lang_tag s1) as [[l r1]|] eqn:Htag.
  - apply lang_tag_shape in Htag as (Hs1 & _).
    destruct (find_close (drop_while is_newline r1)) as [[b1 r2]|] eqn:E;
      [|discriminate].
    intros H. inversion H. subst. apply Hfc in E. specialize (Hdw r1).
    rewrite !length_app. simpl. lia.
  - destruct (find_close (drop_while is_newline s1)) as [[b1 r2]|] eqn:E;
      [|discriminate].
    intros H. inversion H. subst. apply Hfc in E. specialize (Hdw s1).
    rewrite !length_app. simpl. lia.
Qed.

Lemma exec_code_here (s : jsstring) tag b r :
  block_at s = Some (tag, b, r) ->
  exec code_regex s
  = Some ([], MatchResult (consumed s r) ((3, b) :: tag_captures tag) r).
Proof.
  intros H. destruct s; cbn [exec]; rewrite match_here_code, H; reflexivity.
Qed.

Lemma exec_code_skip (x : char) (s : jsstring) :
  block_at (x :: s) = None ->
  exec code_regex (x :: s)
  = match exec code_regex s with
    | Some (skipped, res) => Some (x :: skipped, res)
    | None => None
    end.
Proof. intros H. cbn [exec]. rewrite match_here_code, H. reflexivity. Qed.

Lemma exec_code_shorter (s skipped : jsstring) (res : match_result) :
  exec code_regex s = Some (skipped, res) -> length (rest res) < length s.
Proof.
  revert skipped res. induction s as [|x s IH]; intros skipped res.
  - cbn [exec]. rewrite match_here_code.
    destruct (block_at []) as [[[tag b] r]|] eqn:E; [|discriminate].
    apply block_at_shorter in E. simpl in E. lia.
  - destruct (block_at (x :: s)) as [[[tag b] r]|] eqn:E.
    + erewrite exec_code_here by exact E. intros H. inversion H. subst. simpl.
      now apply block_at_shorter in E.
    + rewrite exec_code_skip by exact E.
      destruct (exec code_regex s) as [[sk r0]|] eqn:Hs; [|discriminate].
      intros H. inversion H. subst. specialize (IH _ _ eq_refl). simpl. lia.
Qed.

Lemma exec_loop_code_fuel (f1 : nat) :
  forall f2 s, length s < f1 -> length s < f2 ->
               exec_loop f1 code_regex s = exec_loop f2 code_regex s.
Proof.
  induction f1 as [|f1 IH]; intros f2 s H1 H2; [lia|].
  destruct f2 as [|f2]; [lia|]. cbn [exec_loop].
  destruct (exec code_regex s) as [[sk res]|] eqn:E; [|reflexivity].
  apply exec_code_shorter in E. rewrite (IH f2) by lia. reflexivity.
Qed.

Lemma exec_loop_code_total (f : nat) :
  forall s, length s < f -> exists bs, exec_loop f code_regex s = Some bs.
Proof.
  induction f as [|f IH]; intros s H; [lia|]. cbn [exec_loop].
  destruct (exec code_regex s) as [[sk res]|] eqn:E; [|now exists []].
  apply exec_code_shorter in E. destruct (IH (rest res)) as [bs Hbs]; [lia|].
  rewrite Hbs. eauto.
Qed.

(** The loop of [getCodeBlocks] always ends. *)
Lemma getCodeBlocks_total (s : jsstring) : exists bs, getCodeBlocks s = Some bs.
Proof. apply exec_loop_code_total. lia. Qed.

Lemma getCodeBlocks_unfold (s : jsstring) :
  getCodeBlocks s
  = match exec code_regex s with
    | None => Some []
    | Some (_, res) =>
        option_map (cons (Block (capture 2 (caps res)) (capture 3 (caps res))))
                   (getCodeBlocks (rest res))
    end.
Proof.
  unfold getCodeBlocks at 1. cbn [exec_loop].
  destruct (exec code_regex s) as [[sk res]|] eqn:E; [|reflexivity].
  apply exec_code_shorter in E. unfold getCodeBlocks.
  rewrite (@exec_loop_code_fuel (length s) (S (length (rest res)))) by lia.
  now destruct (exec_loop _ _ _).
Qed.

(** ** Fenced blocks *)

Lemma strip_prefix_none_app (p u w : jsstring) :
  strip_prefix p u = None -> length p <= length u ->
  strip_prefix p (u ++ w) = None.
Proof.
  revert u. induction p as [|x p IH]; intros u; simpl; [discriminate|].
  destruct u as [|y u]; simpl; [lia|].
  destruct (N.eqb x y); [|reflexivity]. intros H Hlen. apply IH; [assumption|lia].
Qed.

Lemma has_fence_tail (x : char) (s : jsstring) :
  has_fence (x :: s) = false ->
  strip_prefix fence (x :: s) = None /\ has_fence s = false.
Proof.
  cbn [has_fence]. destruct (strip_prefix fence (x :: s)); [discriminate|auto].
Qed.

Lemma has_fence_drop_while (p : char -> bool) (u t : jsstring) :
  has_fence (u ++ t) = false -> has_fence (drop_while p u ++ t) = false.
Proof.
  induction u as [|x u IH]; simpl; [auto|].
  destruct (p x); [|auto]. intros H. apply IH.
  now apply (has_fence_tail x (u ++ t)).
Qed.

Lemma drop_while_app (p : char -> bool) (u t : jsstring) :
  drop_while p u <> [] -> drop_while p (u ++ t) = drop_while p u ++ t.
Proof.
  induction u as [|x u IH]; simpl; [contradiction|].
  destruct (p x); [apply IH | reflexivity].
Qed.

Lemma drop_while_newlines (n : nat) (t : jsstring) :
  drop_while is_newline (newlines n ++ t) = drop_while is_newline t.
Proof. induction n as [|n IH]; simpl; [reflexivity | exact IH]. Qed.

Lemma ends_clean_tail (x : char) (u : jsstring) :
  ends_clean (x :: u) = true -> ends_clean u = true.
Proof.
  unfold ends_clean. simpl. destruct (rev u) as [|y l]; [reflexivity|]. auto.
Qed.

Lemma drop_while_ends_clean (u : jsstring) :
  u <> [] -> ends_clean u = true -> drop_while is_newline u <> [].
Proof.
  induction u as [|x u IH]; [contradiction|]. intros _ Hc. simpl.
  destruct (is_newline x) eqn:Hx; [|discriminate].
  apply IH; [|now apply ends_clean_tail in Hc].
  intros ->. unfold ends_clean in Hc. simpl in Hc. now rewrite Hx in Hc.
Qed.

Lemma find_close_here (s r : jsstring) :
  closing s = Some r -> find_close s = Some ([], r).
Proof. intros H. destruct s; cbn [find_close]; now rewrite H. Qed.

Lemma find_close_body (body post : jsstring) (b : nat) :
  ends_clean body = true ->
  has_fence (body ++ newlines b ++ [bt; bt]) = false ->
  find_close (body ++ newlines b ++ fence ++ post) = Some (body, post).
Proof.
  induction body as [|x body IH]; intros Hc Hf.
  - cbn [app]. apply find_close_here. unfold closing.
    rewrite drop_while_newlines. reflexivity.
  - assert (Hclosing :
      closing ((x :: body) ++ newlines b ++ fence ++ post) = None).
    { unfold closing.
      pose proof (@drop_while_ends_clean (x :: body)) as Hne.
      specialize (Hne ltac:(discriminate) Hc).
      rewrite drop_while_app by assumption.
      apply (has_fence_drop_while is_newline) in Hf.
      destruct (drop_while is_newline (x :: body)) as [|y u] eqn:E;
        [contradiction|].
      apply has_fence_tail in Hf as [Hs _].
      change ((y :: u) ++ newlines b ++ fence ++ post)
        with ((y :: u) ++ newlines b ++ [bt; bt] ++ bt :: post).
      rewrite !app_assoc. rewrite <- (app_assoc (y :: u)).
      apply strip_prefix_none_app; [exact Hs|].
      simpl. rewrite !length_app. simpl. lia. }
    change ((x :: body) ++ newlines b ++ fence ++ post)
      with (x :: (body ++ newlines b ++ fence ++ post)) in *.
    cbn [find_close]. rewrite Hclosing.
    rewrite IH; [reflexivity | now apply ends_clean_tail in Hc |].
    now apply (has_fence_tail x (body ++ newlines b ++ [bt; bt])).
Qed.

Lemma trimmed_ends_clean (body : jsstring) :
  trimmed body = true -> ends_clean body = true.
Proof. unfold trimmed. intros H. now apply andb_true_iff in H. Qed.

Lemma find_close_fenced_body (a b : nat) (body post : jsstring) :
  trimmed body = true ->
  has_fence (body ++ newlines b ++ [bt; bt]) = false ->
  find_close (drop_while is_newline
                (newlines a ++ body ++ newlines b ++ fence ++ post))
  = Some (body, post).
Proof.
  intros Ht Hf. rewrite drop_while_newlines.
  destruct body as [|x body].
  - cbn [app]. rewrite drop_while_newlines. reflexivity.
  - pose proof Ht as Hx. unfold trimmed in Hx.
    apply andb_true_iff in Hx as [Hx _]. apply negb_true_iff in Hx.
    cbn [app drop_while]. rewrite Hx.
    apply (find_close_body (x :: body)); [now apply trimmed_ends_clean | exact Hf].
Qed.

Lemma lang_tag_intro (l t : jsstring) :
  lower_tag l = true -> lang_tag (l ++ nl :: t) = Some (l, t).
Proof.
  unfold lower_tag. intros H. apply andb_true_iff in H as [Hne Hl].
  assert (Htw : take_while is_lower (l ++ nl :: t) = l
                /\ drop_while is_lower (l ++ nl :: t) = nl :: t).
  { clear Hne. induction l as [|x l IH]; simpl; [split; reflexivity|].
    simpl in Hl. apply andb_true_iff in Hl as [Hx Hl]. rewrite Hx.
    destruct (IH Hl) as [-> ->]. split; reflexivity. }
  destruct Htw as [Htw Hdw]. unfold lang_tag. rewrite Htw, Hdw.
  destruct l as [|x l]; [discriminate|]. reflexivity.
Qed.

(** The block at the head of a fenced block is its tag and its body. *)
Lemma block_at_fenced (tag : option jsstring) (a b : nat)
      (body post : jsstring) :
  match tag with
  | Some l => lower_tag l = true
  | None => lang_tag (newlines a ++ body ++ newlines b ++ fence ++ post) = None
  end ->
  trimmed body = true ->
  has_fence (body ++ newlines b ++ [bt; bt]) = false ->
  block_at (fenced tag a body b ++ post) = Some (tag, body, post).
Proof.
  intros Htag Ht Hf. unfold fenced, block_at.
  rewrite <- !app_assoc.
  assert (Hs : strip_prefix fence
                 (fence ++ tag_line tag ++ newlines a ++ body ++ newlines b
                        ++ fence ++ post)
               = Some (tag_line tag ++ newlines a ++ body ++ newlines b
                                ++ fence ++ post))
    by (now apply strip_prefix_app).
  rewrite Hs. destruct tag as [l|]; cbn [tag_line].
  - rewrite <- app_assoc. cbn [app]. rewrite lang_tag_intro by exact Htag.
    now rewrite find_close_fenced_body.
  - cbn [app]. rewrite Htag. now rewrite find_close_fenced_body.
Qed.

Lemma exec_code_after (pre t : jsstring) tag b r :
  has_fence (pre ++ [bt; bt]) = false ->
  block_at (fence ++ t) = Some (tag, b, r) ->
  exec code_regex (pre ++ fence ++ t)
  = Some (pre, MatchResult (consumed (fence ++ t) r)
                           ((3, b) :: tag_captures tag) r).
Proof.
  intros Hpre Hb. induction pre as [|x pre IH].
  - now apply exec_code_here.
  - apply (has_fence_tail x (pre ++ [bt; bt])) in Hpre as [Hs Hpre].
    change ((x :: pre) ++ fence ++ t) with (x :: (pre ++ fence ++ t)).
    rewrite exec_code_skip.
    + now rewrite IH.
    + unfold block_at.
      change (x :: pre ++ fence ++ t)
        with ((x :: pre) ++ [bt; bt] ++ (bt :: t)).
      rewrite app_assoc.
      rewrite strip_prefix_none_app; [reflexivity | exact Hs |].
      simpl. rewrite length_app. simpl. lia.
Qed.

(** ** When a text contains code *)


Lemma has_fence_iff (s : jsstring) :
  has_fence s = true <-> exists u w, s = u ++ fence ++ w.
Proof.
  split.
  - induction s as [|x s IH]; cbn [has_fence].
    + simpl. discriminate.
    + destruct (strip_prefix fence (x :: s)) as [r|] eqn:E.
      * intros _. apply strip_prefix_app in E. now exists [], r.
      * intros H. destruct (IH H) as (u & w & ->). now exists (x :: u), w.
  - intros (u & w & ->). induction u as [|x u IH].
    + reflexivity.
    + cbn [app has_fence]. rewrite IH.
      now destruct (strip_prefix fence (x :: u ++ fence ++ w)).
Qed.

Lemma has_fence_cons (x : char) (s : jsstring) :
  N.eqb bt x = false -> has_fence (x :: s) = has_fence s.
Proof.
  intros H. cbn [has_fence]. unfold fence at 1. cbn [strip_prefix].
  now rewrite H.
Qed.

Lemma has_fence_skip_newlines (s : jsstring) :
  has_fence (drop_while is_newline s) = has_fence s.
Proof.
  induction s as [|x s IH]; [reflexivity|]. cbn [drop_while].
  destruct (is_newline x) eqn:Hx; [|reflexivity].
  apply is_newline_eq in Hx. subst x. rewrite IH.
  symmetry. now apply has_fence_cons.
Qed.

Lemma has_fence_lower_run (l s : jsstring) :
  forallb is_lower l = true -> has_fence (l ++ s) = has_fence s.
Proof.
  induction l as [|x l IH]; [reflexivity|]. simpl forallb. intros H.
  apply andb_true_iff in H as [Hx Hl]. cbn [app].
  rewrite has_fence_cons by now apply is_lower_not_backtick. auto.
Qed.

Lemma find_close_complete (t : jsstring) :
  has_fence t = true -> exists b r, find_close t = Some (b, r).
Proof.
  induction t as [|x t IH]; cbn [has_fence find_close].
  - simpl. discriminate.
  - destruct (closing (x :: t)) as [r|] eqn:Hc; [eauto|].
    destruct (strip_prefix fence (x :: t)) as [r|] eqn:E.
    + exfalso. unfold closing in Hc. apply strip_prefix_app in E.
      rewrite E in Hc. discriminate.
    + intros H. destruct (IH H) as (b & r & ->). eauto.
Qed.

Lemma drop_while_newlines_split (s : jsstring) :
  exists j, s = newlines j ++ drop_while is_newline s.
Proof.
  induction s as [|x s IH]; [now exists 0|]. cbn [drop_while].
  destruct (is_newline x) eqn:Hx; [|now exists 0].
  apply is_newline_eq in Hx. subst x. destruct IH as [j Hj].
  exists (S j). cbn [newlines repeat app]. now rewrite <- Hj at 1.
Qed.

Lemma find_close_sound (t b r : jsstring) :
  find_close t = Some (b, r) -> exists j, t = b ++ newlines j ++ fence ++ r.
Proof.
  revert b r. induction t as [|x t IH]; intros b r; cbn [find_close].
  - unfold closing. simpl. discriminate.
  - destruct (closing (x :: t)) as [r0|] eqn:Hc.
    + intros H. inversion H. subst. unfold closing in Hc.
      apply strip_prefix_app in Hc.
      destruct (drop_while_newlines_split (x :: t)) as [j Hj].
      exists j. rewrite Hc in Hj. exact Hj.
    + destruct (find_close t) as [[b0 r0]|]; [|discriminate].
      intros H. inversion H. subst.
      destruct (IH _ _ eq_refl) as [j ->]. now exists j.
Qed.

Lemma block_at_iff (s : jsstring) :
  (exists tag b r, block_at s = Some (tag, b, r))
  <-> exists v w, s = fence ++ v ++ fence ++ w.
Proof.
  unfold block_at. split.
  - intros (tag & b & r & H).
    destruct (strip_prefix fence s) as [s1|] eqn:Hs; [|discriminate].
    apply strip_prefix_app in Hs. subst s.
    destruct (lang_tag s1) as [[l r1]|] eqn:Htag.
    + apply lang_tag_shape in Htag as (-> & _).
      destruct (find_close (drop_while is_newline r1)) as [[b1 r2]|] eqn:E;
        [|discriminate].
      apply find_close_sound in E as [j E].
      destruct (drop_while_newlines_split r1) as [i Hi].
      rewrite E in Hi. rewrite Hi.
      exists (l ++ nl :: newlines i ++ b1 ++ newlines j), r2.
      reassoc.
    + destruct (find_close (drop_while is_newline s1)) as [[b1 r2]|] eqn:E;
        [|discriminate].
      apply find_close_sound in E as [j E].
      destruct (drop_while_newlines_split s1) as [i Hi].
      rewrite E in Hi. rewrite Hi.
      exists (newlines i ++ b1 ++ newlines j), r2.
      reassoc.
  - intros (v & w & ->).
    assert (Hs : strip_prefix fence (fence ++ v ++ fence ++ w)
                 = Some (v ++ fence ++ w)) by now apply strip_prefix_app.
    rewrite Hs.
    assert (Hf : has_fence (v ++ fence ++ w) = true)
      by (apply has_fence_iff; eauto).
    destruct (lang_tag (v ++ fence ++ w)) as [[l r1]|] eqn:Htag.
    + apply lang_tag_shape in Htag as (Hv & _ & Hl).
      rewrite Hv in Hf. rewrite has_fence_lower_run in Hf by assumption.
      rewrite has_fence_cons in Hf by reflexivity.
      rewrite <- has_fence_skip_newlines in Hf.
      destruct (find_close_complete _ Hf) as (b & r & ->). eauto.
    + rewrite <- has_fence_skip_newlines in Hf.
      destruct (find_close_complete _ Hf) as (b & r & ->). eauto.
Qed.

Lemma exec_code_iff (s : jsstring) :
  (exists skipped res, exec code_regex s = Some (skipped, res))
  <-> contains_fenced s.
Proof.
  unfold contains_fenced. split.
  - induction s as [|x s IH]; intros (sk & res & H).
    + cbn [exec] in H. rewrite match_here_code in H. discriminate.
    + destruct (block_at (x :: s)) as [[[tag b] r]|] eqn:E.
      * assert (Hb : exists v w, x :: s = fence ++ v ++ fence ++ w)
          by (apply block_at_iff; eauto).
        destruct Hb as (v & w & Hb). now exists [], v, w.
      * rewrite exec_code_skip in H by exact E.
        destruct (exec code_regex s) as [[sk0 res0]|]; [|discriminate].
        destruct IH as (u & v & w & ->); [eauto|].
        now exists (x :: u), v, w.
  - intros (u & v & w & ->). induction u as [|x u IH].
    + assert (Hb : exists tag b r,
                 block_at (fence ++ v ++ fence ++ w) = Some (tag, b, r))
        by (apply block_at_iff; eauto).
      destruct Hb as (tag & b & r & Hb).
      erewrite (@exec_code_here ([] ++ fence ++ v ++ fence ++ w)) by exact Hb.
      eauto.
    + cbn [app].
      destruct (block_at (x :: u ++ fence ++ v ++ fence ++ w))
        as [[[tag b] r]|] eqn:E.
      * erewrite exec_code_here by exact E. eauto.
      * rewrite exec_code_skip by exact E.
        destruct IH as (sk & res & ->). eauto.
Qed.

(** [containsCode] is always defined, and it is positive exactly on the
    texts with an opening and a closing triple backtick. *)
Lemma containsCode_total (s : jsstring) : exists n, containsCode s = Some n.
Proof.
  unfold containsCode. destruct (getCodeBlocks_total s) as [bs ->].
  simpl. eauto.
Qed.

Lemma containsCode_positive (s : jsstring) :
  (exists n, containsCode s = Some (S n)) <-> contains_fenced s.
Proof.
  rewrite <- exec_code_iff. unfold containsCode.
  rewrite getCodeBlocks_unfold.
  destruct (exec code_regex s) as [[sk res]|].
  - destruct (getCodeBlocks_total (rest res)) as [bs ->]. simpl.
    split; eauto.
  - simpl. split; [intros [n H]; discriminate | intros (sk & res & H); discriminate].
Qed.

Lemma containsCode_zero (s : jsstring) :
  containsCode s = Some 0 <-> ~ contains_fenced s.
Proof.
  rewrite <- containsCode_positive.
  destruct (containsCode_total s) as [[|n] ->].
  - split; [intros _ [n H]; discriminate | reflexivity].
  - split; [discriminate | intros H; exfalso; eauto].
Qed.

(** ** The matcher and the language of a pattern *)

Lemma orelse_some {A} (x y : option A) (a : A) :
  orelse x y = Some a -> x = Some a \/ y = Some a.
Proof. destruct x; simpl; auto. Qed.

Lemma orelse_defined {A} (x y : option A) :
  x <> None \/ y <> None -> orelse x y <> None.
Proof. destruct x; simpl; [discriminate | intros [H|H]; auto]. Qed.

Section Soundness.
Variable A : Type.

Lemma repeat_star_sound (r : regex) (inner : list nat) (g : bool) :
sound_for r (@run A r) ->
forall fuel, sound_for (Star g r) (repeat_star (@run A r) inner g fuel).
Proof.
intros Hr fuel. induction fuel as [|f IH]; intros s c k a; [discriminate|].
cbn [repeat_star]. intros H.
assert (Hcases :
  run r s (clear inner c)
      (fun s' c' => if Nat.ltb (length s') (length s)
                    then repeat_star (run r) inner g f s' c' k else None)
  = Some a \/ k s c = Some a).
{ destruct g; apply orelse_some in H; tauto. }
destruct Hcases as [Hagain|Hstop].
- apply Hr in Hagain as (w1 & s1 & c1 & -> & Hw1 & Hk).
  destruct (Nat.ltb (length s1) (length (w1 ++ s1))); [|discriminate].
  apply IH in Hk as (w2 & s2 & c2 & -> & Hw2 & Hk).
  exists (w1 ++ w2), s2, c2. rewrite <- app_assoc.
  repeat split; [now constructor | assumption].
- exists [], s, c. repeat split; [constructor | assumption].
Qed.

Lemma run_sound (r : regex) : sound_for r (@run A r).
Proof.
induction r as [|neg items|r1 IH1 r2 IH2|r1 IH1 r2 IH2|g r1 IH1|g r1 IH1
                |n r1 IH1]; intros s c k a; cbn [run].
- intros H. exists [], s, c. repeat split; [constructor | assumption].
- destruct s as [|x s']; [discriminate|].
  destruct (in_class neg items x) eqn:Hx; [|discriminate].
  intros H. exists [x], s', c. repeat split; [now constructor | assumption].
- intros H. apply IH1 in H as (w1 & s1 & c1 & -> & Hw1 & H).
  apply IH2 in H as (w2 & s2 & c2 & -> & Hw2 & H).
  exists (w1 ++ w2), s2, c2. rewrite <- app_assoc.
  repeat split; [now constructor | assumption].
- intros H. apply orelse_some in H as [H|H].
  + apply IH1 in H as (w & s' & c' & -> & Hw & H).
    exists w, s', c'. repeat split; [now apply M_alt_l | assumption].
  + apply IH2 in H as (w & s' & c' & -> & Hw & H).
    exists w, s', c'. repeat split; [now apply M_alt_r | assumption].
- apply repeat_star_sound. exact IH1.
- unfold repeat_opt. intros H.
  assert (Hcases :
    run r1 s (clear (groups r1) c)
        (fun s' c' => if Nat.ltb (length s') (length s)
                      then k s' c' else None)
    = Some a \/ k s c = Some a).
  { destruct g; apply orelse_some in H; tauto. }
  destruct Hcases as [Honce|Hstop].
  + apply IH1 in Honce as (w & s' & c' & -> & Hw & H').
    destruct (Nat.ltb (length s') (length (w ++ s'))); [|discriminate].
    exists w, s', c'. repeat split; [now apply M_opt_some | assumption].
  + exists [], s, c. repeat split; [constructor | assumption].
- intros H. apply IH1 in H as (w & s' & c' & -> & Hw & H).
  exists w, s', (set_capture n (consumed (w ++ s') s') c').
  repeat split; [now constructor | assumption].
Qed.
End Soundness.

Section Completeness.
Variable A : Type.

Lemma repeat_star_complete (r : regex) (inner : list nat) (g : bool) :
complete_for r (@run A r) ->
forall w, matches (Star g r) w ->
forall fuel s' c (k : cont A),
  length (w ++ s') < fuel ->
  (forall c', k s' c' <> None) ->
  repeat_star (run r) inner g fuel (w ++ s') c k <> None.
Proof.
intros Hr w Hw. remember (Star g r) as r0 eqn:Hr0.
induction Hw as [| | | | | g0 r1 | g0 r1 w1 w2 Hw1 _ Hw2 IH2 | | |];
  try discriminate; inversion Hr0; subst g0 r1; clear Hr0;
  intros fuel s' c k Hfuel Hk.
- destruct fuel as [|f]; [lia|]. cbn [repeat_star app].
  destruct g; apply orelse_defined; auto.
- destruct w1 as [|x w1]; [now apply IH2|].
  destruct fuel as [|f]; [lia|]. cbn [repeat_star].
  assert (Hagain :
    run r (((x :: w1) ++ w2) ++ s') (clear inner c)
        (fun s1 c1 =>
           if Nat.ltb (length s1) (length (((x :: w1) ++ w2) ++ s'))
           then repeat_star (run r) inner g f s1 c1 k else None)
    <> None).
  { rewrite <- app_assoc. apply Hr; [assumption|]. intros c'.
    assert (Hlt : Nat.ltb (length (w2 ++ s'))
                          (length ((x :: w1) ++ w2 ++ s')) = true).
    { apply Nat.ltb_lt. rewrite !length_app. simpl. lia. }
    rewrite Hlt. apply IH2; [reflexivity| |assumption].
    rewrite !length_app in Hfuel. simpl in Hfuel.
    rewrite length_app. lia. }
  destruct g; apply orelse_defined; auto.
Qed.

Lemma run_complete (r : regex) : complete_for r (@run A r).
Proof.
induction r as [|neg items|r1 IH1 r2 IH2|r1 IH1 r2 IH2|g r1 IH1|g r1 IH1
                |n r1 IH1]; intros w Hw s' c k Hk; cbn [run].
- inversion Hw. subst. apply Hk.
- inversion Hw. subst. cbn [app]. rewrite H2. apply Hk.
- inversion Hw. subst. rewrite <- app_assoc.
  apply IH1; [assumption|]. intros c'. now apply IH2.
- inversion Hw; subst; apply orelse_defined; [left|right]; auto.
- apply repeat_star_complete; auto.
- unfold repeat_opt. inversion Hw; subst.
  + cbn [app]. destruct g; apply orelse_defined; auto.
  + destruct w as [|x w]; [cbn [app]; destruct g; apply orelse_defined; auto|].
    assert (Honce :
      run r1 ((x :: w) ++ s') (clear (groups r1) c)
          (fun s1 c1 =>
             if Nat.ltb (length s1) (length ((x :: w) ++ s'))
             then k s1 c1 else None) <> None).
    { apply IH1; [assumption|]. intros c'.
      assert (Hlt : Nat.ltb (length s') (length ((x :: w) ++ s')) = true).
      { apply Nat.ltb_lt. rewrite length_app. simpl. lia. }
      rewrite Hlt. apply Hk. }
    destruct g; apply orelse_defined; auto.
- inversion Hw. subst. apply IH1; [assumption|]. intros c'. apply Hk.
Qed.
End Completeness.

(** ** The search, for any pattern *)

Lemma match_here_sound (r : regex) (s : jsstring) (res : match_result) :
  match_here r s = Some res ->
  s = matched res ++ rest res /\ matches r (matched res).
Proof.
  unfold match_here. intros H.
  apply run_sound in H as (w & s' & c' & -> & Hw & H).
  inversion H. subst res. cbn [matched rest]. rewrite consumed_app. auto.
Qed.

Lemma match_here_complete (r : regex) (w s' : jsstring) :
  matches r w -> match_here r (w ++ s') <> None.
Proof.
  intros Hw. unfold match_here.
  set (k := fun s1 c1 =>
              Some (MatchResult (consumed (w ++ s') s1) c1 s1)).
  apply (@run_complete match_result r w Hw s' [] k). intros c'. discriminate.
Qed.

Lemma exec_sound (r : regex) (s skipped : jsstring) (res : match_result) :
  exec r s = Some (skipped, res) ->
  s = skipped ++ matched res ++ rest res /\ matches r (matched res).
Proof.
  revert skipped res. induction s as [|x s IH]; intros skipped res; cbn [exec].
  - destruct (match_here r []) as [res0|] eqn:E; [|discriminate].
    intros H. inversion H. subst. now apply match_here_sound.
  - destruct (match_here r (x :: s)) as [res0|] eqn:E.
    + intros H. inversion H. subst. now apply match_here_sound.
    + destruct (exec r s) as [[sk res0]|]; [|discriminate].
      intros H. inversion H. subst.
      destruct (IH _ _ eq_refl) as [Hs Hm]. split; [|assumption].
      cbn [app]. now rewrite <- Hs.
Qed.

Lemma exec_complete (r : regex) (s : jsstring) :
  occurs r s -> exec r s <> None.
Proof.
  intros (u & w & v & -> & Hw). induction u as [|x u IH].
  - cbn [app]. pose proof (match_here_complete v Hw) as H.
    destruct (w ++ v); cbn [exec];
      destruct (match_here r _); [discriminate|contradiction|discriminate|contradiction].
  - cbn [app exec]. destruct (match_here r (x :: u ++ w ++ v)); [discriminate|].
    destruct (exec r (u ++ w ++ v)) as [[sk res]|]; [discriminate|contradiction].
Qed.

Lemma exec_occurs (r : regex) (s : jsstring) :
  (exists skipped res, exec r s = Some (skipped, res)) <-> occurs r s.
Proof.
  split.
  - intros (sk & res & H). apply exec_sound in H as [Hs Hm].
    now exists sk, (matched res), (rest res).
  - intros H. apply exec_complete in H.
    destruct (exec r s) as [[sk res]|]; [eauto | contradiction].
Qed.

Lemma match_all_total (r : regex) (fuel : nat) :
  forall s, length s < fuel -> exists ms, match_all fuel r s = Some ms.
Proof.
  induction fuel as [|f IH]; intros s Hlen; [lia|]. cbn [match_all].
  destruct (exec r s) as [[sk res]|] eqn:E; [|now exists []].
  apply exec_sound in E as [Hs _].
  assert (Hl : length s = length sk + length (matched res) + length (rest res)).
  { rewrite Hs at 1. rewrite !length_app. lia. }
  destruct (matched res) as [|y m]; destruct (rest res) as [|z t].
  - eauto.
  - destruct (IH t) as [ms ->]; [simpl in Hl; lia | eauto].
  - destruct (IH []) as [ms ->]; [simpl in Hl |- *; lia | eauto].
  - destruct (IH (z :: t)) as [ms ->]; [simpl in Hl |- *; lia | eauto].
Qed.

Lemma match_all_found (r : regex) (s : jsstring) :
  exists ms, match_all (S (length s)) r s = Some ms
             /\ (ms <> [] <-> occurs r s).
Proof.
  destruct (@match_all_total r (S (length s)) s) as [ms Hms]; [lia|].
  exists ms. split; [assumption|]. rewrite <- exec_occurs.
  cbn [match_all] in Hms.
  destruct (exec r s) as [[sk res]|].
  - destruct (match matched res with [] => _ | _ => _ end);
      [|discriminate].
    inversion Hms. split; [eauto | discriminate].
  - inversion Hms. split; [contradiction | intros (sk & res & H); discriminate].
Qed.

(** ** Links and relevance *)

Lemma getLinks_found (cfg : config) (s : jsstring) :
  domains_ok cfg ->
  exists links, getLinks cfg s = Some links
                /\ (links <> [] <-> has_link cfg s).
Proof.
  unfold getLinks, has_link, domains_ok.
  induction (domains cfg) as [|d ds IH]; intros Hok.
  - exists []. split; [reflexivity|].
    split; [contradiction | intros (d & r & [] & _)].
  - destruct IH as (links & Hl & Hiff); [intros d' Hd'; apply Hok; now right|].
    destruct (Hok d) as [r Hr]; [now left|].
    destruct (match_all_found r s) as (ms & Hms & Hocc).
    exists (ms ++ links). cbn [concat_map_opt]. unfold matchUrlWithDomain at 1.
    rewrite Hr, Hms, Hl. split; [reflexivity|]. split.
    + intros Hne. destruct ms as [|m ms].
      * destruct Hiff as [Hiff _].
        destruct Hiff as (d' & r' & Hin & Hr' & Ho); [assumption|].
        exists d', r'. repeat split; [now right | assumption | assumption].
      * exists d, r. repeat split; [now left | assumption |].
        apply Hocc. discriminate.
    + intros (d' & r' & [<-|Hin] & Hr' & Ho).
      * rewrite Hr in Hr'. inversion Hr'. subst r'.
        apply Hocc in Ho. destruct ms; [contradiction | discriminate].
      * assert (Hne : links <> []) by (apply Hiff; eauto).
        destruct ms; [assumption | discriminate].
Qed.

Lemma containsUrl_found (cfg : config) (s : jsstring) :
  domains_ok cfg ->
  exists n, containsUrl cfg s = Some n /\ (n <> 0 <-> has_link cfg s).
Proof.
  intros Hok. destruct (getLinks_found s Hok) as (links & Hl & Hiff).
  exists (length links). unfold containsUrl. rewrite Hl. split; [reflexivity|].
  rewrite <- Hiff. destruct links; simpl; split; intros H; congruence.
Qed.

(** The condition of [processMessage] holds exactly on the texts with a
    fenced block or a link. *)
Lemma isRelevant_iff (cfg : config) (s : jsstring) :
  domains_ok cfg ->
  exists b, isRelevant cfg s = Some b
            /\ (b = true <-> contains_fenced s \/ has_link cfg s).
Proof.
  intros Hok. unfold isRelevant.
  destruct (containsCode_total s) as [[|n] Hn]; rewrite Hn.
  - apply containsCode_zero in Hn.
    destruct (containsUrl_found s Hok) as (k & -> & Hiff).
    exists (negb (Nat.eqb k 0)). split; [reflexivity|].
    rewrite negb_true_iff, Nat.eqb_neq, Hiff. tauto.
  - exists true. split; [reflexivity|]. split; [|reflexivity].
    intros _. left. apply containsCode_positive. eauto.
Qed.

(** ** The store under [processMessage] *)

Lemma processMessage_rows (cfg : config) (m : snapshot) (edit : bool)
      (d : store) (b : bool) :
  isRelevant cfg (content m) = Some b ->
  processMessage cfg m edit d
  = Some (d ++ if b
               then (if edit then [] else [entry_row m]) ++ [revision_row m]
               else []).
Proof.
  intros H. unfold processMessage. rewrite H.
  destruct b; [|now rewrite app_nil_r].
  unfold storeRevision, createEntry, insertRow.
  fold (entry_row m). fold (revision_row m).
  destruct edit; [reflexivity | now rewrite <- app_assoc].
Qed.

Lemma forEach_edits (cfg : config) (rel : snapshot -> bool)
      (later : list snapshot) :
  (forall v, In v later -> isRelevant cfg (content v) = Some (rel v)) ->
  forall d, forEach (fun v => processMessage cfg v true) later d
            = Some (d ++ map revision_row (filter rel later)).
Proof.
  induction later as [|v later IH]; intros Hrel d.
  - cbn. now rewrite app_nil_r.
  - cbn [forEach].
    erewrite processMessage_rows by (apply Hrel; now left).
    rewrite IH by (intros v' Hv'; apply Hrel; now right).
    cbn [filter]. destruct (rel v); cbn [map app];
      rewrite <- app_assoc; reflexivity.
Qed.

Lemma rev_edits (m : message) :
  rev (edits m) = original m :: rev (removelast (edits m)).
Proof.
  unfold original.
  assert (Hne : edits m <> []) by discriminate.
  rewrite (app_removelast_last (latest m) Hne) at 1.
  now rewrite rev_unit.
Qed.

Lemma processMessageEdits_rows (cfg : config) (m : message) (d : store)
      (rel : snapshot -> bool) :
  (forall v, In v (edits m) -> isRelevant cfg (content v) = Some (rel v)) ->
  processMessageEdits cfg m d
  = Some (d ++ (if rel (original m) then [entry_row (original m)] else [])
            ++ map revision_row (filter rel (rev (edits m)))).
Proof.
  intros Hrel. unfold processMessageEdits. rewrite rev_edits.
  assert (Hin : forall v, In v (original m :: rev (removelast (edits m))) ->
                          In v (edits m)).
  { intros v Hv. rewrite <- rev_edits in Hv. now apply in_rev in Hv. }
  erewrite processMessage_rows by (apply Hrel, Hin; now left).
  rewrite (@forEach_edits cfg rel)
    by (intros v Hv; apply Hrel, Hin; now right).
  cbn [filter]. destruct (rel (original m)); cbn [map app];
    rewrite <- ?app_assoc; reflexivity.
Qed.

(** Under a configuration whose domains all give patterns, every message is
    classified. *)
Lemma isRelevant_total (cfg : config) (s : jsstring) :
  domains_ok cfg -> exists b, isRelevant cfg s = Some b.
Proof.
  intros Hok. destruct (isRelevant_iff s Hok) as (b & Hb & _). eauto.
Qed.

Lemma relevance_spec (cfg : config) (v : snapshot) :
  domains_ok cfg -> isRelevant cfg (content v) = Some (relevance cfg v).
Proof.
  intros Hok. unfold relevance.
  now destruct (isRelevant_total (content v) Hok) as [b ->].
Qed.

Lemma extends_refl (d : store) : extends d d.
Proof. exists []. now rewrite app_nil_r. Qed.

Lemma extends_trans (d1 d2 d3 : store) :
  extends d1 d2 -> extends d2 d3 -> extends d1 d3.
Proof.
  intros [r1 ->] [r2 ->]. exists (r1 ++ r2). now rewrite app_assoc.
Qed.

Lemma processMessage_extends (cfg : config) (m : snapshot) (edit : bool)
      (d d' : store) :
  processMessage cfg m edit d = Some d' -> extends d d'.
Proof.
  unfold processMessage.
  destruct (isRelevant cfg (content m)) as [b|] eqn:E; [|discriminate].
  intros H.
  assert (H' : processMessage cfg m edit d = Some d').
  { unfold processMessage. now rewrite E. }
  erewrite processMessage_rows in H' by exact E.
  inversion H'. eexists; reflexivity.
Qed.

Lemma forEach_extends {X} (f : X -> store -> option store) (l : list X) :
  (forall x d d', f x d = Some d' -> extends d d') ->
  forall d d', forEach f l d = Some d' -> extends d d'.
Proof.
  intros Hf. induction l as [|x l IH]; intros d d'; cbn [forEach].
  - intros H. inversion H. apply extends_refl.
  - destruct (f x d) as [d1|] eqn:E; [|discriminate].
    intros H. eapply extends_trans; [eapply Hf; eassumption | eauto].
Qed.

Lemma processMessageEdits_extends (cfg : config) (m : message)
      (d d' : store) :
  processMessageEdits cfg m d = Some d' -> extends d d'.
Proof.
  unfold processMessageEdits. destruct (rev (edits m)) as [|v later];
    [discriminate|].
  destruct (processMessage cfg v false d) as [d1|] eqn:E; [|discriminate].
  intros H. eapply extends_trans; [eapply processMessage_extends; eassumption|].
  eapply forEach_extends; [|eassumption].
  intros x d0 d0'. apply processMessage_extends.
Qed.

Lemma example_config_ok : domains_ok example_config.
Proof.
  intros d [<-|[<-|[]]]; eexists; vm_compute; reflexivity.
Qed.

(** ** C1: revisions reach the store in chronological order *)

(** C1, as amended. Processing a fetched message hands the store the
    revisions of the versions classified relevant, in chronological order,
    original first, after one identity row when the original is relevant.
    For three versions that are all relevant this is one identity row for
    the original and three revisions, oldest first. *)
Theorem C1_revisions_chronological (cfg : config) (m : message) (d : store)
        (rel : snapshot -> bool) :
  (forall v, In v (edits m) -> isRelevant cfg (content v) = Some (rel v)) ->
  processMessageEdits cfg m d
  = Some (d ++ (if rel (original m) then [entry_row (original m)] else [])
            ++ map revision_row (filter rel (rev (edits m))))
  /\ (forall v1 v2 v3,
         edits m = [v3; v2; v1] ->
         rel v1 = true -> rel v2 = true -> rel v3 = true ->
         processMessageEdits cfg m d
         = Some (d ++ [entry_row v1; revision_row v1; revision_row v2;
                       revision_row v3])).
Proof.
  intros Hrel. pose proof (@processMessageEdits_rows cfg m d rel Hrel) as H.
  split; [exact H|]. intros v1 v2 v3 He H1 H2 H3. rewrite H.
  unfold original. rewrite He. cbn [last rev app filter].
  rewrite H1, H2, H3. reflexivity.
Qed.

Lemma C1_revisions_chronological_witness :
  processMessageEdits example_config
    (Message (version edited_text (Some second_edit_at))
             [version link_text (Some first_edit_at);
              version code_text None]) []
  = Some [entry_row (version code_text None);
          revision_row (version code_text None);
          revision_row (version link_text (Some first_edit_at));
          revision_row (version edited_text (Some second_edit_at))].
Proof.
  refine (proj2 (@C1_revisions_chronological example_config
                   (Message (version edited_text (Some second_edit_at))
                            [version link_text (Some first_edit_at);
                             version code_text None])
                   [] (fun _ => true) _) _ _ _ eq_refl eq_refl eq_refl eq_refl).
  intros v [<-|[<-|[<-|[]]]]; vm_compute; reflexivity.
Defined.

(** C1 as stated fails: three versions, a relevant original, and two edits
    that are not relevant give one revision, not three. *)
Lemma C1_counterexample :
  ~ (forall cfg m d',
        length (edits m) = 3 ->
        isRelevant cfg (content (original m)) = Some true ->
        processMessageEdits cfg m [] = Some d' ->
        length (revision_rows d') = 3 /\ length (identity_rows d') = 1).
Proof.
  intros H.
  destruct (H example_config
              (Message (version plain_text (Some second_edit_at))
                       [version plain_text (Some first_edit_at);
                        version code_text None])
              [entry_row (version code_text None);
               revision_row (version code_text None)]
              eq_refl eq_refl eq_refl) as [H3 _].
  vm_compute in H3. discriminate.
Qed.

(** ** C6: an edit adds a revision and no identity *)

(** C6. A version processed as an edit whose content is relevant adds
    exactly one revision row and no identity row: in [processMessage], in
    the handler of "messageUpdate", and in the crawler, where an original
    that was not relevant leaves the revision of its edit without an
    identity row. *)
Theorem C6_edit_appends_revision_only (cfg : config) (m : snapshot)
        (d : store) :
  isRelevant cfg (content m) = Some true ->
  processMessage cfg m true d = Some (d ++ [revision_row m])
  /\ (forall old w,
         parse cfg && oneshot cfg = false ->
         option_map db (on_messageUpdate cfg old m w)
         = Some (db w ++ [revision_row m]))
  /\ (forall orig,
         isRelevant cfg (content orig) = Some false ->
         processMessageEdits cfg (Message m [orig]) d
         = Some (d ++ [revision_row m])
         /\ identity_rows (d ++ [revision_row m]) = identity_rows d).
Proof.
  intros Hrel.
  assert (H : processMessage cfg m true d = Some (d ++ [revision_row m])).
  { erewrite processMessage_rows by exact Hrel. reflexivity. }
  split; [exact H|]. split.
  - intros old w Hlive. unfold on_messageUpdate. rewrite Hlive.
    cbn [db log]. erewrite processMessage_rows by exact Hrel. reflexivity.
  - intros orig Horig. split.
    + unfold processMessageEdits, edits. cbn [latest earlier rev app].
      erewrite processMessage_rows by exact Horig. cbn [forEach].
      rewrite app_nil_r. rewrite H. reflexivity.
    + unfold identity_rows. rewrite filter_app. cbn. apply app_nil_r.
Qed.

Lemma C6_edit_appends_revision_only_witness :
  processMessage example_config (version edited_text (Some second_edit_at))
                 true []
  = Some [revision_row (version edited_text (Some second_edit_at))].
Proof.
  refine (proj1 (@C6_edit_appends_revision_only example_config
                   (version edited_text (Some second_edit_at)) [] _)).
  vm_compute. reflexivity.
Defined.

(** ** C8: the timestamp of a revision *)

(** C8. The timestamp stored with a revision is the edit time of the
    version when it has one, and its creation time otherwise. Times are
    milliseconds since the epoch of messages the service holds, so an edit
    time is not zero, which [||] would take for absent. *)
Theorem C8_revision_timestamp (m : snapshot) (d : store) :
  (forall t, editedTimestamp m = Some t -> t <> 0%Z) ->
  storeRevision m d
  = d ++ [(str "Content",
           [VString (content m);
            VNumber (match editedTimestamp m with
                     | Some t => t
                     | None => createdTimestamp m
                     end);
            VString (id m)])].
Proof.
  intros Hnz. unfold storeRevision, insertRow, getLatestTimestamp.
  destruct (editedTimestamp m) as [t|]; [|reflexivity].
  specialize (Hnz t eq_refl). apply Z.eqb_neq in Hnz. now rewrite Hnz.
Qed.

Lemma C8_revision_timestamp_witness :
  storeRevision (version edited_text (Some second_edit_at)) []
  = [(str "Content",
      [VString edited_text; VNumber second_edit_at; VString (str "1001")])].
Proof.
  refine (@C8_revision_timestamp (version edited_text (Some second_edit_at))
            [] _).
  intros t H. inversion H. discriminate.
Defined.

(** ** The store under the callbacks *)

Lemma forEach_edits_extends (cfg : config) (messages : list message)
      (d d' : store) :
  forEach (processMessageEdits cfg) messages d = Some d' -> extends d d'.
Proof.
  apply forEach_extends. intros m d0 d0'. apply processMessageEdits_extends.
Qed.

Lemma on_response_extends (cfg : config) (ch : channel) (r : response)
      (w w' : world) :
  on_response cfg ch r w = Some w' -> extends (db w) (db w').
Proof.
  unfold on_response. destruct r as [messages|e].
  - destruct (forEach (processMessageEdits cfg) messages (db w)) as [d|] eqn:E;
      [|discriminate].
    apply forEach_edits_extends in E.
    destruct (Nat.eqb (length messages) limit).
    + destruct (rev messages); [discriminate|].
      intros H. inversion H. exact E.
    + cbn [channelsRemaining log set_db set_remaining].
      destruct (Z.eqb (channelsRemaining w - 1) 0);
        [destruct (oneshot cfg)|]; intros H; inversion H; exact E.
  - intros H. inversion H. apply extends_refl.
Qed.

Lemma on_message_extends (cfg : config) (m : snapshot) (w w' : world) :
  on_message cfg m w = Some w' -> extends (db w) (db w').
Proof.
  unfold on_message. destruct (parse cfg && oneshot cfg).
  - intros H. inversion H. apply extends_refl.
  - cbn [db log].
    destruct (processMessage cfg m false (db w)) as [d|] eqn:E;
      [|discriminate].
    intros H. inversion H. cbn [db set_db].
    eapply processMessage_extends. eassumption.
Qed.

Lemma on_messageUpdate_extends (cfg : config) (m0 m1 : snapshot)
      (w w' : world) :
  on_messageUpdate cfg m0 m1 w = Some w' -> extends (db w) (db w').
Proof.
  unfold on_messageUpdate. destruct (parse cfg && oneshot cfg).
  - intros H. inversion H. apply extends_refl.
  - cbn [db log].
    destruct (processMessage cfg m1 true (db w)) as [d|] eqn:E;
      [|discriminate].
    intros H. inversion H. cbn [db set_db].
    eapply processMessage_extends. eassumption.
Qed.

Lemma step_extends (cfg : config) (gw : gateway) (w w' : world) :
  step cfg gw w w' -> extends (db w) (db w').
Proof.
  intros [w0 ch n before pre post w1 _ _ H | w0 m w1 _ H | w0 m0 m1 w1 _ H].
  - apply on_response_extends in H. exact H.
  - now apply on_message_extends in H.
  - now apply on_messageUpdate_extends in H.
Qed.

Lemma on_ready_db (cfg : config) (guilds : list guild) (w : world) :
  db (on_ready cfg guilds w) = db w.
Proof.
  unfold on_ready, scanHistory. destruct (parse cfg); [|reflexivity].
  assert (H : forall chs w0,
             db (fold_left (fun w1 ch => scanChannel ch w1) chs w0) = db w0).
  { induction chs as [|ch chs IH]; intros w0; cbn [fold_left];
      [reflexivity | now rewrite IH]. }
  now rewrite H.
Qed.

(** ** C9: the revision table only grows *)

(** C9. Rows are only ever added after the rows already stored: by
    [insertRow], by every callback of the pipeline and by any run of them;
    starting the backfill adds none.
    A message stored when it was created and then edited into a text that
    is not relevant keeps the revision of its creation. *)
Theorem C9_append_only (cfg : config) (gw : gateway) :
  (forall table values d, extends d (insertRow table values d))
  /\ (forall guilds w, db (on_ready cfg guilds w) = db w)
  /\ (forall w w', steps cfg gw w w' -> extends (db w) (db w'))
  /\ (forall m m' w w1 w2,
         parse cfg && oneshot cfg = false ->
         isRelevant cfg (content m) = Some true ->
         isRelevant cfg (content m') = Some false ->
         on_message cfg m w = Some w1 ->
         on_messageUpdate cfg m m' w1 = Some w2 ->
         In (revision_row m) (db w2)).
Proof.
  split; [|split; [|split]].
  - intros table values d. unfold insertRow. now eexists.
  - intros guilds w. apply on_ready_db.
  - intros w w' H. induction H as [|w0 w1 w2 Hstep _ IH].
    + apply extends_refl.
    + eapply extends_trans; [eapply step_extends; eassumption | exact IH].
  - intros m m' w w1 w2 Hlive Hm Hm' H1 H2.
    unfold on_message in H1. rewrite Hlive in H1. cbn [db log] in H1.
    erewrite processMessage_rows in H1 by exact Hm.
    inversion H1. subst w1. clear H1.
    unfold on_messageUpdate in H2. rewrite Hlive in H2.
    cbn [db log set_db] in H2.
    erewrite processMessage_rows in H2 by exact Hm'.
    inversion H2. cbn [db set_db]. rewrite app_nil_r.
    apply in_or_app. right. cbn. auto.
Qed.

Lemma C9_append_only_witness :
  exists w1 w2,
    on_message example_config (version code_text None) start = Some w1
    /\ on_messageUpdate example_config (version code_text None)
         (version plain_text (Some first_edit_at)) w1 = Some w2
    /\ In (revision_row (version code_text None)) (db w2).
Proof.
  eexists. eexists. split; [vm_compute; reflexivity|].
  split; [vm_compute; reflexivity|].
  refine (proj2 (proj2 (proj2 (@C9_append_only example_config
                                 (fun _ _ _ => Page []))))
                (version code_text None)
                (version plain_text (Some first_edit_at))
                start _ _ eq_refl _ _ _ _).
  - vm_compute. reflexivity.
  - vm_compute. reflexivity.
  - vm_compute. reflexivity.
  - vm_compute. reflexivity.
Defined.

(** ** C4: the relevance predicate *)

Lemma classify_total (cfg : config) (s : jsstring) :
  domains_ok cfg ->
  exists c, classify cfg s = Some c
            /\ (hasCode c = true <-> contains_fenced s)
            /\ (hasLinks c = true <-> has_link cfg s)
            /\ isRelevant cfg s = Some (hasCode c || hasLinks c).
Proof.
  intros Hok. unfold classify, isRelevant.
  destruct (getLinks_found s Hok) as (ls & Hl & Hlinks).
  pose proof (containsCode_positive s) as Hpos.
  pose proof (containsCode_zero s) as Hzero.
  unfold containsUrl. unfold containsCode in *.
  destruct (getCodeBlocks s) as [bs|]; [|destruct (getCodeBlocks_total s) as [bs Hbs]].
  - rewrite Hl. eexists. split; [reflexivity|].
    cbn [hasCode hasLinks links option_map] in *.
    assert (Hls : negb (Nat.eqb (length ls) 0) = true <-> has_link cfg s).
    { rewrite <- Hlinks. destruct ls; cbn; split; intros H; congruence. }
    split; [|split; [exact Hls|]].
    + rewrite <- Hpos. destruct bs; cbn; split.
      * discriminate.
      * intros [n H]. discriminate.
      * eauto.
      * reflexivity.
    + destruct bs; reflexivity.
  - destruct (getCodeBlocks_total s) as [bs' Hbs'].
    cbn in Hpos. destruct Hzero as [_ Hzero]. exfalso.
    assert (H : ~ contains_fenced s).
    { intros Hc. apply Hpos in Hc as [n Hn]. discriminate. }
    specialize (Hzero H). discriminate.
Qed.

(** C4, at the failing input. With [pastebin.com] and [hastebin.com]
    allowed, the text [http://evil.org/a.pastebin.com] holds no fenced
    block, and the host of its only URL, [evil.org], ends in no allowed
    domain. The text is relevant all the same, through the same link pattern
    as in C2: processed as new, by [processMessage], by the crawler and by
    the handler of "message", it gets an identity row and a revision row;
    processed as an edit, by the handler of "messageUpdate", a revision
    row. *)
Theorem C4_unlisted_host_persisted :
  getCodeBlocks unlisted_text = Some []
  /\ ~ contains_fenced unlisted_text
  /\ claimed_host unlisted_text = Some (str "evil.org")
  /\ claimed_allow_listed example_config (str "evil.org") = false
  /\ classify example_config unlisted_text
     = Some (Classification false [unlisted_text])
  /\ isRelevant example_config unlisted_text = Some true
  /\ (forall d,
        processMessage example_config (version unlisted_text None) false d
        = Some (d ++ [(str "Message",
                       [VString (str "1001"); VString (str "#general");
                        VString (str "alice#0001")]);
                      (str "Content",
                       [VString unlisted_text; VNumber created_at;
                        VString (str "1001")])]))
  /\ (forall d,
        processMessageEdits example_config
          (Message (version unlisted_text None) []) d
        = Some (d ++ [(str "Message",
                       [VString (str "1001"); VString (str "#general");
                        VString (str "alice#0001")]);
                      (str "Content",
                       [VString unlisted_text; VNumber created_at;
                        VString (str "1001")])]))
  /\ (forall w,
        option_map db (on_message example_config
                                  (version unlisted_text None) w)
        = Some (db w ++ [(str "Message",
                          [VString (str "1001"); VString (str "#general");
                           VString (str "alice#0001")]);
                         (str "Content",
                          [VString unlisted_text; VNumber created_at;
                           VString (str "1001")])]))
  /\ (forall old w,
        option_map db (on_messageUpdate example_config old
                         (version unlisted_text (Some first_edit_at)) w)
        = Some (db w ++ [(str "Content",
                          [VString unlisted_text; VNumber first_edit_at;
                           VString (str "1001")])])).
Proof.
  assert (Hrel : isRelevant example_config unlisted_text = Some true)
    by (vm_compute; reflexivity).
  assert (Hnew : forall d,
             processMessage example_config (version unlisted_text None)
                            false d
             = Some (d ++ [entry_row (version unlisted_text None);
                           revision_row (version unlisted_text None)])).
  { intros d.
    exact (@processMessage_rows example_config (version unlisted_text None)
             false d true Hrel). }
  split; [vm_compute; reflexivity|].
  split; [apply containsCode_zero; vm_compute; reflexivity|].
  split; [vm_compute; reflexivity|].
  split; [vm_compute; reflexivity|].
  split; [vm_compute; reflexivity|].
  split; [exact Hrel|].
  split; [exact Hnew|].
  split.
  { intros d. unfold processMessageEdits.
    cbn [edits latest earlier rev app]. rewrite Hnew. reflexivity. }
  split.
  { intros w. unfold on_message.
    change (parse example_config && oneshot example_config) with false.
    cbn iota. rewrite Hnew. reflexivity. }
  intros old w. unfold on_messageUpdate.
  change (parse example_config && oneshot example_config) with false.
  cbn iota.
  rewrite (@processMessage_rows example_config
             (version unlisted_text (Some first_edit_at)) true _ true Hrel).
  reflexivity.
Qed.

(** ** Blocks and their tags *)

Lemma capture_tag (tag : option jsstring) (b : jsstring) :
  capture 2 ((3, b) :: tag_captures tag) = tag
  /\ capture 3 ((3, b) :: tag_captures tag) = Some b.
Proof. destruct tag; split; reflexivity. Qed.

Lemma getCodeBlocks_fenced (pre : jsstring) (tag : option jsstring)
      (a b : nat) (body post : jsstring) :
  has_fence (pre ++ [bt; bt]) = false ->
  match tag with
  | Some l => lower_tag l = true
  | None => lang_tag (newlines a ++ body ++ newlines b ++ fence ++ post) = None
  end ->
  trimmed body = true ->
  has_fence (body ++ newlines b ++ [bt; bt]) = false ->
  exists blocks,
    getCodeBlocks post = Some blocks
    /\ getCodeBlocks (pre ++ fenced tag a body b ++ post)
       = Some (Block tag (Some body) :: blocks).
Proof.
  intros Hpre Htag Ht Hf.
  destruct (getCodeBlocks_total post) as [blocks Hpost].
  exists blocks. split; [exact Hpost|].
  pose proof (block_at_fenced tag a b body post Htag Ht Hf) as Hb.
  rewrite getCodeBlocks_unfold.
  assert (Hshape : fenced tag a body b ++ post
                   = fence ++ (tag_line tag ++ newlines a ++ body
                                        ++ newlines b ++ fence ++ post)).
  { unfold fenced. now rewrite <- !app_assoc. }
  rewrite Hshape in Hb |- *.
  erewrite exec_code_after by eassumption.
  cbn [rest caps]. rewrite Hpost. cbn [option_map].
  destruct (capture_tag tag body) as [-> ->]. reflexivity.
Qed.

Lemma exec_code_inv (s skipped : jsstring) (res : match_result) :
  exec code_regex s = Some (skipped, res) ->
  exists tag b u,
    s = skipped ++ u
    /\ block_at u = Some (tag, b, rest res)
    /\ caps res = (3, b) :: tag_captures tag.
Proof.
  revert skipped res. induction s as [|x s IH]; intros skipped res.
  - cbn [exec]. rewrite match_here_code.
    destruct (block_at []) as [[[tag b] r]|] eqn:E; [|discriminate].
    intros H. inversion H. exists tag, b, []. auto.
  - destruct (block_at (x :: s)) as [[[tag b] r]|] eqn:E.
    + erewrite exec_code_here by exact E. intros H. inversion H.
      exists tag, b, (x :: s). auto.
    + rewrite exec_code_skip by exact E.
      destruct (exec code_regex s) as [[sk res0]|]; [|discriminate].
      intros H. inversion H. subst.
      destruct (IH _ _ eq_refl) as (tag & b & u & -> & Hb & Hc).
      exists tag, b, u. auto.
Qed.

Lemma block_at_tag (u l b r : jsstring) :
  block_at u = Some (Some l, b, r) ->
  lower_tag l = true /\ exists t, u = fence ++ l ++ nl :: t.
Proof.
  unfold block_at.
  destruct (strip_prefix fence u) as [s1|] eqn:Hs; [|discriminate].
  apply strip_prefix_app in Hs.
  destruct (lang_tag s1) as [[l0 r0]|] eqn:Htag.
  - destruct (find_close _) as [[b0 r1]|]; [|discriminate].
    intros H. inversion H. subst.
    apply lang_tag_shape in Htag as (-> & Hne & Hlow).
    split; [|eauto]. unfold lower_tag. rewrite Hlow.
    destruct l; [contradiction | reflexivity].
  - destruct (find_close _) as [[b0 r1]|]; discriminate.
Qed.

Lemma blocks_tagged (n : nat) :
  forall s blocks l c,
    length s < n ->
    getCodeBlocks s = Some blocks ->
    In (Block (Some l) c) blocks ->
    lower_tag l = true /\ exists pre t, s = pre ++ fence ++ l ++ nl :: t.
Proof.
  induction n as [|n IH]; intros s blocks l c Hlen; [lia|].
  rewrite getCodeBlocks_unfold.
  destruct (exec code_regex s) as [[sk res]|] eqn:E.
  - pose proof (exec_code_shorter _ E) as Hshort.
    pose proof (exec_sound _ _ E) as [Hs _].
    apply exec_code_inv in E as (tag & b & u & Hu & Hb & Hc).
    destruct (getCodeBlocks (rest res)) as [bs|] eqn:Hbs; [|discriminate].
    cbn [option_map]. intros H. inversion H. subst blocks. clear H.
    intros [Hin|Hin].
    + rewrite Hc in Hin. destruct (capture_tag tag b) as [H2 _].
      rewrite H2 in Hin. inversion Hin. subst tag.
      apply block_at_tag in Hb as [Hlow [t Ht]].
      split; [assumption|]. exists sk, t. now rewrite Hu, Ht.
    + destruct (IH (rest res) bs l c) as [Hlow (pre & t & Hr)];
        [lia | assumption | assumption |].
      split; [assumption|].
      exists (sk ++ matched res ++ pre), t. rewrite Hs at 1. rewrite Hr.
      now rewrite <- !app_assoc.
  - intros H. inversion H. contradiction.
Qed.

Lemma drop_while_first_failure (p : char -> bool) (tg t : jsstring) :
  forallb p tg = false ->
  exists y r, drop_while p (tg ++ t) = y :: r /\ In y tg.
Proof.
  induction tg as [|x tg IH]; cbn [forallb app drop_while]; [discriminate|].
  destruct (p x) eqn:Hx; cbn [andb].
  - intros H. destruct (IH H) as (y & r & Hd & Hin).
    exists y, r. split; [assumption | now right].
  - intros _. exists x, (tg ++ t). split; [reflexivity | now left].
Qed.

(** A first line with a character that is not a lower-case letter is not a
    language tag. *)
Lemma lang_tag_not_lower (tg t : jsstring) :
  forallb is_lower tg = false -> existsb is_newline tg = false ->
  lang_tag (tg ++ t) = None.
Proof.
  intros Hlow Hnl. unfold lang_tag.
  destruct (drop_while_first_failure is_lower tg t Hlow) as (y & r & -> & Hin).
  assert (Hy : is_newline y = false).
  { destruct (is_newline y) eqn:E; [|reflexivity].
    assert (H : existsb is_newline tg = true)
      by (apply existsb_exists; eauto).
    congruence. }
  rewrite Hy. now destruct (take_while is_lower (tg ++ t)).
Qed.

(** ** C5: fenced blocks are found and their bodies extracted *)



(** ** C10: which tags are language tags *)

(** C10. A block has a language only where lower-case letters and a
    newline follow the opening fence directly. A first line with any other
    character (an upper-case letter, a digit, a space) still gives a block,
    without a language and with that line at the head of its code. Two
    fences with nothing between them give a block with empty code. *)
Theorem C10_language_tag :
  (forall s blocks l c,
      getCodeBlocks s = Some blocks ->
      In (Block (Some l) c) blocks ->
      lower_tag l = true /\ exists pre t, s = pre ++ fence ++ l ++ nl :: t)
  /\ (forall pre tg mid b post,
         has_fence (pre ++ [bt; bt]) = false ->
         forallb is_lower tg = false ->
         existsb is_newline tg = false ->
         trimmed (tg ++ mid) = true ->
         has_fence ((tg ++ mid) ++ newlines b ++ [bt; bt]) = false ->
         exists blocks,
           getCodeBlocks post = Some blocks
           /\ getCodeBlocks (pre ++ fenced None 0 (tg ++ mid) b ++ post)
              = Some (Block None (Some (tg ++ mid)) :: blocks))
  /\ (forall pre post,
         has_fence (pre ++ [bt; bt]) = false ->
         exists blocks,
           getCodeBlocks post = Some blocks
           /\ getCodeBlocks (pre ++ (fence ++ fence) ++ post)
              = Some (Block None (Some []) :: blocks))
  /\ getCodeBlocks (str "``````") = Some [Block None (Some [])]
  /\ containsCode (str "``````") = Some 1.
Proof.
  split; [|split; [|split; [|split]]].
  - intros s blocks l c. apply (@blocks_tagged (S (length s))). lia.
  - intros pre tg mid b post Hpre Hlow Hnl Ht Hf.
    apply getCodeBlocks_fenced; try assumption.
    cbn [newlines repeat app]. rewrite <- app_assoc.
    now apply lang_tag_not_lower.
  - intros pre post Hpre.
    apply (@getCodeBlocks_fenced pre None 0 0 [] post); auto.
  - vm_compute. reflexivity.
  - vm_compute. reflexivity.
Qed.

Lemma C10_language_tag_witness :
  exists blocks,
    getCodeBlocks (str " thanks") = Some blocks
    /\ getCodeBlocks (str "see "
                        ++ fenced None 0
                             (str " js" ++ nl :: str "console.log(2)") 1
                        ++ str " thanks")
       = Some (Block None (Some (str " js" ++ nl :: str "console.log(2)"))
                     :: blocks).
Proof.
  refine (proj1 (proj2 C10_language_tag) (str "see ") (str " js")
                (nl :: str "console.log(2)") 1 (str " thanks") _ _ _ _ _);
    vm_compute; reflexivity.
Defined.

(** ** C2: what the link pattern returns *)

(** C2, at the failing inputs. With [pastebin.com] allowed, a link whose
    host is [evil.org] is returned because the allowed name occurs in its
    path; a link on an allowed host that follows another link is returned
    only as part of a longer text that starts at the other link; and the
    dot of the allowed name stands for any character. *)
Theorem C2_links_returned :
  getLinks example_config (str "http://evil.org/a.pastebin.com")
  = Some [str "http://evil.org/a.pastebin.com"]
  /\ getLinks example_config
       (str "see http://x.org and http://www.pastebin.com/abc")
     = Some [str "http://x.org and http://www.pastebin.com/abc"]
  /\ getLinks example_config (str "http://pastebinXcom/")
     = Some [str "http://pastebinXcom/"].
Proof. vm_compute. repeat split. Qed.

(** ** The crawler, callback by callback *)

Lemma forEach_edits_total (cfg : config) (messages : list message) :
  domains_ok cfg ->
  forall d, exists d', forEach (processMessageEdits cfg) messages d = Some d'.
Proof.
  intros Hok. induction messages as [|m ms IH]; intros d; cbn [forEach].
  - eauto.
  - rewrite (@processMessageEdits_rows cfg m d (relevance cfg))
      by (intros v _; now apply relevance_spec).
    apply IH.
Qed.

Lemma on_response_full (cfg : config) (ch : channel)
      (front : list message) (oldest : message) (w : world) (d : store) :
  length (front ++ [oldest]) = limit ->
  forEach (processMessageEdits cfg) (front ++ [oldest]) (db w) = Some d ->
  on_response cfg ch (Page (front ++ [oldest])) w
  = Some (fetch ch (Some (id (latest oldest))) (set_db d w)).
Proof.
  intros Hlen Hd. unfold on_response. rewrite Hd, Hlen, Nat.eqb_refl.
  now rewrite rev_unit.
Qed.

Lemma on_response_short (cfg : config) (ch : channel)
      (messages : list message) (w : world) (d : store) :
  length messages <> limit ->
  forEach (processMessageEdits cfg) messages (db w) = Some d ->
  on_response cfg ch (Page messages) w
  = Some (let w3 := set_remaining (channelsRemaining w - 1)
                      (log (FinishedScanning ch) (set_db d w)) in
          if Z.eqb (channelsRemaining w - 1) 0
          then if oneshot cfg then quit ScanningComplete w3
               else log ScanningComplete w3
          else w3).
Proof.
  intros Hlen Hd. unfold on_response. rewrite Hd.
  apply Nat.eqb_neq in Hlen. rewrite Hlen.
  cbn [channelsRemaining log set_db].
  destruct (Z.eqb (channelsRemaining w - 1) 0);
    [destruct (oneshot cfg)|]; reflexivity.
Qed.

Lemma last_split (messages : list message) :
  length messages = limit ->
  exists front oldest, messages = front ++ [oldest].
Proof.
  intros Hlen. destruct messages as [|m ms]; [discriminate|].
  exists (removelast (m :: ms)), (last (m :: ms) m).
  apply app_removelast_last. discriminate.
Qed.

(** What a page does to the crawl: a full page asks for the next one, from
    the oldest message of this one; any other page ends the channel. *)
Lemma on_response_page (cfg : config) (ch : channel)
      (messages : list message) (w w' : world) :
  on_response cfg ch (Page messages) w = Some w' ->
  if Nat.eqb (length messages) limit
  then exists front oldest,
         messages = front ++ [oldest]
         /\ requests w'
            = requests w ++ [(ch, limit, Some (id (latest oldest)))]
         /\ pending w'
            = pending w ++ [(ch, limit, Some (id (latest oldest)))]
         /\ channelsRemaining w' = channelsRemaining w
         /\ console w' = console w
         /\ exit_code w' = exit_code w
  else requests w' = requests w
       /\ pending w' = pending w
       /\ channelsRemaining w' = (channelsRemaining w - 1)%Z
       /\ (console w' = console w ++ [FinishedScanning ch]
           /\ exit_code w' = exit_code w
           /\ channelsRemaining w' <> 0%Z
           \/ console w'
              = console w ++ [FinishedScanning ch; ScanningComplete]
              /\ channelsRemaining w' = 0%Z
              /\ exit_code w'
                 = if oneshot cfg then Some 0%Z else exit_code w).
Proof.
  intros H.
  assert (Hd : exists d, forEach (processMessageEdits cfg) messages (db w)
                         = Some d).
  { unfold on_response in H.
    destruct (forEach (processMessageEdits cfg) messages (db w));
      [eauto | discriminate]. }
  destruct Hd as [d Hd].
  destruct (Nat.eqb (length messages) limit) eqn:Hlen.
  - apply Nat.eqb_eq in Hlen.
    destruct (last_split messages Hlen) as (front & oldest & ->).
    erewrite on_response_full in H by eassumption.
    inversion H. exists front, oldest. cbn. repeat split; reflexivity.
  - apply Nat.eqb_neq in Hlen.
    erewrite on_response_short in H by eassumption. inversion H. clear H.
    cbn zeta. destruct (Z.eqb (channelsRemaining w - 1) 0) eqn:Hz.
    + apply Z.eqb_eq in Hz.
      destruct (oneshot cfg); cbn; rewrite <- app_assoc;
        repeat split; right; repeat split; assumption.
    + apply Z.eqb_neq in Hz. cbn. repeat split. left. repeat split.
      assumption.
Qed.

Lemma on_message_fields (cfg : config) (m : snapshot) (w w' : world) :
  on_message cfg m w = Some w' ->
  requests w' = requests w /\ pending w' = pending w
  /\ channelsRemaining w' = channelsRemaining w
  /\ exit_code w' = exit_code w
  /\ (console w' = console w \/ console w' = console w ++ [Received false m]).
Proof.
  unfold on_message. destruct (parse cfg && oneshot cfg).
  - intros H. inversion H. subst. repeat split. now left.
  - destruct (processMessage cfg m false _); [|discriminate].
    intros H. inversion H. cbn. repeat split. now right.
Qed.

Lemma on_messageUpdate_fields (cfg : config) (m0 m1 : snapshot)
      (w w' : world) :
  on_messageUpdate cfg m0 m1 w = Some w' ->
  requests w' = requests w /\ pending w' = pending w
  /\ channelsRemaining w' = channelsRemaining w
  /\ exit_code w' = exit_code w
  /\ (console w' = console w \/ console w' = console w ++ [Received true m1]).
Proof.
  unfold on_messageUpdate. destruct (parse cfg && oneshot cfg).
  - intros H. inversion H. subst. repeat split. now left.
  - destruct (processMessage cfg m1 true _); [|discriminate].
    intros H. inversion H. cbn. repeat split. now right.
Qed.

(** ** C3: pagination *)

Lemma singleton_split {X} (x y : X) (pre post : list X) :
  [x] = pre ++ y :: post -> pre = [] /\ y = x /\ post = [].
Proof.
  destruct pre as [|z pre]; cbn.
  - intros H. inversion H. auto.
  - intros H. inversion H. destruct pre; discriminate.
Qed.

Section OnePage.
Variable cfg : config.
Variable gw : gateway.
Variable ch : channel.
Variable front : list message.
Variable oldest : message.
Variable w0 : world.

Hypothesis Hok : domains_ok cfg.
Hypothesis Hfull : length (front ++ [oldest]) = limit.
Hypothesis Hfirst : gw ch limit None = Page (front ++ [oldest]).
Hypothesis Hnext : gw ch limit (Some (id (latest oldest))) = Page [].
Hypothesis Hrunning : exit_code w0 = None.
Hypothesis Hidle : pending w0 = [].

Let r1 := first_request ch.
Let r2 := next_request ch oldest.

Lemma one_page_start : one_page_state ch oldest w0 (scanChannel ch w0).
Proof. left. cbn. rewrite Hidle. split; reflexivity. Qed.

Lemma one_page_step (w w' : world) :
  one_page_state ch oldest w0 w -> step cfg gw w w' ->
  one_page_state ch oldest w0 w'.
Proof.
  intros Hs Hstep.
  destruct Hstep as [w ch' n before pre post w' _ Hp H | w m w' _ H
                     | w m0 m1 w' _ H].
  - destruct Hs as [[Hpend Hreq] | [[Hpend Hreq] | [Hpend Hreq]]];
      rewrite Hpend in Hp.
    + apply singleton_split in Hp as (-> & Heq & ->).
      inversion Heq. subst ch' n before. rewrite Hfirst in H.
      apply on_response_page in H. rewrite Hfull, Nat.eqb_refl in H.
      destruct H as (front' & oldest' & Hm & Hr & Hq & _).
      apply app_inj_tail in Hm as [_ <-].
      right. left. cbn in Hr, Hq. rewrite Hr, Hq, Hreq.
      split; [reflexivity | now rewrite <- app_assoc].
    + apply singleton_split in Hp as (-> & Heq & ->).
      inversion Heq. subst ch' n before. rewrite Hnext in H.
      apply on_response_page in H. cbn [length] in H.
      change (Nat.eqb 0 limit) with false in H.
      destruct H as (Hr & Hq & _).
      right. right. cbn in Hr, Hq. rewrite Hr, Hq. auto.
    + destruct pre; discriminate.
  - apply on_message_fields in H as (Hr & Hq & _).
    unfold one_page_state. rewrite Hr, Hq. exact Hs.
  - apply on_messageUpdate_fields in H as (Hr & Hq & _).
    unfold one_page_state. rewrite Hr, Hq. exact Hs.
Qed.

Lemma one_page_reachable (w : world) :
  steps cfg gw (scanChannel ch w0) w -> one_page_state ch oldest w0 w.
Proof.
  intros H. pose proof one_page_start as Hs. revert Hs.
  induction H as [|w1 w2 w3 Hstep _ IH]; [auto|].
  intros Hs. apply IH. eapply one_page_step; eassumption.
Qed.

Lemma one_page_run :
  exists w1 w2,
    step cfg gw (scanChannel ch w0) w1
    /\ step cfg gw w1 w2
    /\ requests w1 = requests w0 ++ [r1; r2]
    /\ pending w1 = [r2]
    /\ console w1 = console w0 ++ [Scanning ch]
    /\ channelsRemaining w1 = channelsRemaining w0
    /\ requests w2 = requests w0 ++ [r1; r2]
    /\ pending w2 = []
    /\ In (FinishedScanning ch) (console w2)
    /\ channelsRemaining w2 = (channelsRemaining w0 - 1)%Z.
Proof.
  set (wa := set_pending [] (scanChannel ch w0)).
  destruct (forEach_edits_total (front ++ [oldest]) Hok (db wa)) as [d Hd].
  set (w1 := fetch ch (Some (id (latest oldest))) (set_db d wa)).
  set (wb := set_pending [] w1).
  set (w3 := set_remaining (channelsRemaining wb - 1)
               (log (FinishedScanning ch) (set_db (db wb) wb))).
  set (w2 := if Z.eqb (channelsRemaining wb - 1) 0
             then if oneshot cfg then quit ScanningComplete w3
                  else log ScanningComplete w3
             else w3).
  exists w1, w2.
  assert (Hstep1 : step cfg gw (scanChannel ch w0) w1).
  { apply step_response with (ch := ch) (n := limit) (before := None)
                             (pre := []) (post := []).
    - exact Hrunning.
    - cbn. now rewrite Hidle.
    - rewrite Hfirst. now apply on_response_full. }
  assert (Hstep2 : step cfg gw w1 w2).
  { apply step_response
      with (ch := ch) (n := limit) (before := Some (id (latest oldest)))
           (pre := []) (post := []).
    - exact Hrunning.
    - reflexivity.
    - rewrite Hnext. apply on_response_short; [discriminate | reflexivity]. }
  split; [exact Hstep1|]. split; [exact Hstep2|].
  split; [cbn; now rewrite <- app_assoc|].
  split; [reflexivity|]. split; [reflexivity|]. split; [reflexivity|].
  assert (H2 : requests w2 = requests w0 ++ [r1; r2] /\ pending w2 = []
               /\ In (FinishedScanning ch) (console w2)
               /\ channelsRemaining w2 = (channelsRemaining w0 - 1)%Z).
  { unfold w2. destruct (Z.eqb (channelsRemaining wb - 1) 0);
      [destruct (oneshot cfg)|]; cbn; rewrite <- ?app_assoc;
      repeat split; try reflexivity;
      rewrite ?in_app_iff; cbn; auto 10. }
  exact H2.
Qed.
End OnePage.

(** C3. Every fetch asks for at most 100 messages. A page of exactly 100
    messages makes the crawler fetch again, before the oldest message of
    that page; any other page ends the channel and counts it down. For a
    channel with exactly 100 messages, the crawl makes exactly two fetches,
    the first for the newest page and the second before its oldest message,
    and the channel is finished after the second and not before. *)
Theorem C3_pagination (cfg : config) (gw : gateway) (ch : channel) :
  limit = 100
  /\ (forall before w,
         requests (fetch ch before w) = requests w ++ [(ch, 100, before)])
  /\ (forall messages w w',
         on_response cfg ch (Page messages) w = Some w' ->
         if Nat.eqb (length messages) limit
         then exists front oldest,
                messages = front ++ [oldest]
                /\ requests w' = requests w ++ [next_request ch oldest]
                /\ pending w' = pending w ++ [next_request ch oldest]
                /\ channelsRemaining w' = channelsRemaining w
                /\ console w' = console w
         else requests w' = requests w
              /\ pending w' = pending w
              /\ channelsRemaining w' = (channelsRemaining w - 1)%Z
              /\ In (FinishedScanning ch) (console w'))
  /\ (forall front oldest w0,
         domains_ok cfg ->
         length (front ++ [oldest]) = limit ->
         gw ch limit None = Page (front ++ [oldest]) ->
         gw ch limit (Some (id (latest oldest))) = Page [] ->
         exit_code w0 = None ->
         pending w0 = [] ->
         (exists w1 w2,
             step cfg gw (scanChannel ch w0) w1
             /\ step cfg gw w1 w2
             /\ requests w1
                = requests w0 ++ [first_request ch; next_request ch oldest]
             /\ pending w1 = [next_request ch oldest]
             /\ console w1 = console w0 ++ [Scanning ch]
             /\ channelsRemaining w1 = channelsRemaining w0
             /\ requests w2
                = requests w0 ++ [first_request ch; next_request ch oldest]
             /\ pending w2 = []
             /\ In (FinishedScanning ch) (console w2)
             /\ channelsRemaining w2 = (channelsRemaining w0 - 1)%Z)
         /\ (forall w,
                steps cfg gw (scanChannel ch w0) w ->
                requests w = requests w0 ++ [first_request ch]
                \/ requests w
                   = requests w0 ++ [first_request ch; next_request ch oldest])).
Proof.
  split; [reflexivity|]. split; [reflexivity|]. split.
  - intros messages w w' H. apply on_response_page in H.
    destruct (Nat.eqb (length messages) limit).
    + destruct H as (front & oldest & Hm & Hr & Hp & Hc & Hl & _).
      exists front, oldest. auto.
    + destruct H as (Hr & Hp & Hc & [(Hl & _) | (Hl & _)]);
        repeat split; try assumption; rewrite Hl; rewrite in_app_iff;
        right; now left.
  - intros front oldest w0 Hok Hfull Hfirst Hnext Hrun Hidle. split.
    + eapply one_page_run; eassumption.
    + intros w Hw.
      destruct (@one_page_reachable cfg gw ch front oldest w0
                  Hfull Hfirst Hnext Hidle w Hw)
        as [[_ H] | [[_ H] | [_ H]]]; auto.
Qed.

Lemma C3_pagination_witness :
  (exists w1 w2,
      step example_config one_page_gateway (scanChannel general start) w1
      /\ step example_config one_page_gateway w1 w2
      /\ requests w1
         = requests start
             ++ [first_request general;
                 next_request general full_page_oldest]
      /\ pending w1 = [next_request general full_page_oldest]
      /\ console w1 = console start ++ [Scanning general]
      /\ channelsRemaining w1 = channelsRemaining start
      /\ requests w2
         = requests start
             ++ [first_request general;
                 next_request general full_page_oldest]
      /\ pending w2 = []
      /\ In (FinishedScanning general) (console w2)
      /\ channelsRemaining w2 = (channelsRemaining start - 1)%Z)
  /\ (forall w,
         steps example_config one_page_gateway (scanChannel general start) w ->
         requests w = requests start ++ [first_request general]
         \/ requests w
            = requests start
                ++ [first_request general;
                    next_request general full_page_oldest]).
Proof.
  refine (proj2 (proj2 (proj2 (@C3_pagination example_config one_page_gateway
                                 general)))
                full_page_front full_page_oldest start example_config_ok
                _ _ _ _ _).
  - vm_compute. reflexivity.
  - reflexivity.
  - reflexivity.
  - reflexivity.
  - reflexivity.
Defined.

(** ** C7: a failed fetch *)

Lemma errors_app (l1 l2 : list logline) :
  errors (l1 ++ l2) = errors l1 + errors l2.
Proof. unfold errors. now rewrite filter_app, length_app. Qed.

Lemma scan_channels_fields (chs : list channel) :
  forall w,
    let w' := fold_left (fun w1 ch => scanChannel ch w1) chs w in
    length (pending w') = length (pending w) + length chs
    /\ channelsRemaining w' = channelsRemaining w
    /\ errors (console w') = errors (console w)
    /\ (In ScanningComplete (console w') -> In ScanningComplete (console w))
    /\ exit_code w' = exit_code w.
Proof.
  induction chs as [|ch chs IH]; intros w; cbn [fold_left].
  - cbn. repeat split; auto.
  - destruct (IH (scanChannel ch w)) as (Hp & Hc & He & Hs & Hx).
    cbn zeta. rewrite Hp, Hc, He, Hx. unfold scanChannel, fetch, log.
    cbn [pending channelsRemaining console exit_code].
    rewrite length_app, errors_app. cbn.
    repeat split; try lia. intros H. apply Hs in H.
    unfold scanChannel, fetch, log in H. cbn [console] in H.
    apply in_app_iff in H as [H|[H|[]]]; [assumption | discriminate].
Qed.

Lemma scanHistory_counter_ok (guilds : list guild) :
  counter_ok (scanHistory guilds start).
Proof.
  unfold scanHistory, counter_ok, completed.
  destruct (scan_channels_fields (text_channels guilds)
              (set_remaining (Z.of_nat (length (text_channels guilds)))
                             (log Preparing start)))
    as (Hp & Hc & He & Hs & Hx).
  cbn zeta in *. rewrite Hp, Hc, He, Hx. cbn. split; [f_equal; lia|].
  intros [H|H]; [|contradiction]. apply Hs in H. cbn in H.
  destruct H as [H|[]]. discriminate.
Qed.

Lemma completed_log (l : logline) (w : world) :
  l <> ScanningComplete -> completed (log l w) -> completed w.
Proof.
  unfold completed. cbn. intros Hl [H|H]; [|now right].
  apply in_app_iff in H as [H|[H|[]]]; [now left | congruence].
Qed.

Lemma step_counter_ok (cfg : config) (gw : gateway) (w w' : world) :
  counter_ok w -> step cfg gw w w' -> counter_ok w'.
Proof.
  intros [Hcount Hdone] Hstep.
  destruct Hstep as [w ch n before pre post w' Hrun Hp H | w m w' _ H
                     | w m0 m1 w' _ H].
  - assert (Hlen : length (pending w) = S (length (pre ++ post))).
    { rewrite Hp, !length_app. cbn. lia. }
    assert (Hnot : ~ completed w).
    { intros Hc. apply Hdone in Hc. lia. }
    destruct (gw ch n before) as [messages|e].
    + apply on_response_page in H. cbn [requests pending channelsRemaining
                                        console exit_code set_pending] in H.
      destruct (Nat.eqb (length messages) limit).
      * destruct H as (front & oldest & _ & _ & Hq & Hc & Hl & Hx).
        unfold counter_ok, completed. rewrite Hq, Hc, Hl, Hx, length_app.
        cbn. split; [unfold errors in *; cbn; lia|]. intros Hcomp. exfalso. apply Hnot. exact Hcomp.
      * destruct H as (_ & Hq & Hc & [(Hl & Hx & Hnz) | (Hl & Hz & Hx)]);
          unfold counter_ok, completed; rewrite Hq, Hl, errors_app; cbn.
        -- split; [unfold errors in *; cbn; lia|]. rewrite Hx. intros [Hin|Hex].
           ++ exfalso. apply Hnot. left.
              apply in_app_iff in Hin as [Hin|[Hin|[]]];
                [assumption | discriminate].
           ++ exfalso. apply Hnot. now right.
        -- split; [unfold errors in *; cbn; lia | auto].
    + inversion H. subst w'. unfold counter_ok.
      cbn [pending console channelsRemaining log set_pending].
      rewrite errors_app. cbn. split; [unfold errors in *; cbn; lia|].
      intros Hc. exfalso. apply Hnot.
      apply completed_log in Hc; [|discriminate]. exact Hc.
  - apply on_message_fields in H as (_ & Hq & Hc & Hx & Hl).
    unfold counter_ok, completed. rewrite Hq, Hc, Hx.
    destruct Hl as [-> | ->]; [auto|]. rewrite errors_app. cbn.
    split; [unfold errors in *; cbn; lia|]. intros [Hin|Hex]; apply Hdone; [left | now right].
    apply in_app_iff in Hin as [Hin|[Hin|[]]]; [assumption | discriminate].
  - apply on_messageUpdate_fields in H as (_ & Hq & Hc & Hx & Hl).
    unfold counter_ok, completed. rewrite Hq, Hc, Hx.
    destruct Hl as [-> | ->]; [auto|]. rewrite errors_app. cbn.
    split; [unfold errors in *; cbn; lia|]. intros [Hin|Hex]; apply Hdone; [left | now right].
    apply in_app_iff in Hin as [Hin|[Hin|[]]]; [assumption | discriminate].
Qed.

Lemma steps_counter_ok (cfg : config) (gw : gateway) (w w' : world) :
  counter_ok w -> steps cfg gw w w' -> counter_ok w'.
Proof.
  intros Hw H. induction H as [|w1 w2 w3 Hstep _ IH]; [assumption|].
  apply IH. eapply step_counter_ok; eassumption.
Qed.

Lemma step_idle (cfg : config) (gw : gateway) (ch : channel) (w w' : world) :
  idle ch w -> step cfg gw w w' ->
  idle ch w'
  /\ (forall r, In r (requests w') -> fst (fst r) = ch -> In r (requests w)).
Proof.
  intros Hidle Hstep.
  destruct Hstep as [w ch' n before pre post w' _ Hp H | w m w' _ H
                     | w m0 m1 w' _ H].
  - assert (Hch : ch' <> ch).
    { apply (Hidle (ch', n, before)). rewrite Hp. apply in_app_iff.
      right. now left. }
    assert (Hrest : forall r, In r (pre ++ post) -> fst (fst r) <> ch).
    { intros r Hr. apply Hidle. rewrite Hp.
      apply in_app_iff in Hr as [Hr|Hr]; apply in_app_iff;
        [now left | right; now right]. }
    destruct (gw ch' n before) as [messages|e].
    + apply on_response_page in H.
      cbn [requests pending set_pending] in H.
      destruct (Nat.eqb (length messages) limit).
      * destruct H as (front & oldest & _ & Hr & Hq & _).
        unfold idle. rewrite Hr, Hq. split.
        -- intros r Hin. apply in_app_iff in Hin as [Hin|[<-|[]]];
             [now apply Hrest | exact Hch].
        -- intros r Hin Heq. apply in_app_iff in Hin as [Hin|[<-|[]]];
             [assumption | contradiction].
      * destruct H as (Hr & Hq & _). unfold idle. rewrite Hr, Hq.
        split; [exact Hrest | auto].
    + inversion H. subst w'. unfold idle. cbn. split; [exact Hrest | auto].
  - apply on_message_fields in H as (Hr & Hq & _).
    unfold idle. rewrite Hr, Hq. auto.
  - apply on_messageUpdate_fields in H as (Hr & Hq & _).
    unfold idle. rewrite Hr, Hq. auto.
Qed.

Lemma steps_idle (cfg : config) (gw : gateway) (ch : channel) (w w' : world) :
  idle ch w -> steps cfg gw w w' ->
  idle ch w'
  /\ (forall r, In r (requests w') -> fst (fst r) = ch -> In r (requests w)).
Proof.
  intros Hw H. induction H as [|w1 w2 w3 Hstep _ IH]; [auto|].
  destruct (step_idle Hw Hstep) as [Hidle Hreq].
  destruct (IH Hidle) as [Hidle' Hreq']. split; [assumption|].
  intros r Hin Heq. apply Hreq; [|assumption]. now apply Hreq'.
Qed.

(** C7. When the fetch of a page is rejected, the error is logged, the
    request is dropped and no other is made for that channel, then or
    later, and the counter of channels keeps its value. After such a
    failure in a backfill the counter stays above zero for good: completion
    is never logged and the process never exits through it. *)
Theorem C7_fetch_failure_stalls (cfg : config) (gw : gateway) :
  (forall w ch n before (pre post : list request) e,
      exit_code w = None ->
      pending w = pre ++ (ch, n, before) :: post ->
      gw ch n before = Rejected e ->
      exists w',
        step cfg gw w w'
        /\ console w' = console w ++ [ErrorLine e]
        /\ pending w' = pre ++ post
        /\ requests w' = requests w
        /\ channelsRemaining w' = channelsRemaining w
        /\ db w' = db w
        /\ exit_code w' = None)
  /\ (forall ch w w',
         idle ch w -> steps cfg gw w w' ->
         idle ch w'
         /\ (forall r, In r (requests w') -> fst (fst r) = ch ->
                       In r (requests w)))
  /\ (forall guilds w,
         steps cfg gw (scanHistory guilds start) w ->
         0 < errors (console w) ->
         (0 < channelsRemaining w)%Z
         /\ ~ In ScanningComplete (console w)
         /\ exit_code w = None).
Proof.
  split; [|split].
  - intros w ch n before pre post e Hrun Hp He.
    exists (log (ErrorLine e) (set_pending (pre ++ post) w)).
    split.
    + eapply step_response; [exact Hrun | exact Hp |]. rewrite He. reflexivity.
    + cbn. repeat split; assumption.
  - intros ch w w'. apply steps_idle.
  - intros guilds w Hsteps Herr.
    destruct (steps_counter_ok (scanHistory_counter_ok guilds) Hsteps)
      as [Hcount Hdone].
    assert (Hpos : (0 < channelsRemaining w)%Z) by lia.
    split; [exact Hpos|].
    assert (Hnot : ~ completed w).
    { intros Hc. apply Hdone in Hc. lia. }
    split.
    + intros Hin. apply Hnot. now left.
    + destruct (exit_code w) eqn:E; [|reflexivity].
      exfalso. apply Hnot. right. congruence.
Qed.

Lemma C7_fetch_failure_stalls_witness :
  (0 < channelsRemaining stalled_world)%Z
  /\ ~ In ScanningComplete (console stalled_world)
  /\ exit_code stalled_world = None.
Proof.
  refine (proj2 (proj2 (@C7_fetch_failure_stalls example_config
                          failing_gateway))
                [example_guild] stalled_world _ _).
  - eapply rt1n_trans; [|apply rt1n_refl].
    eapply step_response with (pre := []) (post := []);
      [reflexivity | reflexivity | reflexivity].
  - vm_compute. apply Nat.lt_0_succ.
Defined.

(** * Further properties of the code *)

(** ** [tabNewlines] and [logMessage] *)

Lemma js_split_cons (sep : char) (s : jsstring) :
  exists piece pieces, js_split sep s = piece :: pieces.
Proof.
  induction s as [|x s IH]; cbn [js_split]; [eauto|].
  destruct (N.eqb x sep); [eauto|].
  destruct IH as (piece & pieces & ->). eauto.
Qed.

Lemma join_cons_cons (sep p q : jsstring) (ps : list jsstring) :
  join sep (p :: q :: ps) = p ++ sep ++ join sep (q :: ps).
Proof. reflexivity. Qed.

(** Splitting at a separator and joining with it gives the text back. *)
Lemma join_split (sep : char) (s : jsstring) :
  join [sep] (js_split sep s) = s.
Proof.
  induction s as [|x s IH]; [reflexivity|]. cbn [js_split].
  destruct (js_split_cons sep s) as (piece & pieces & E).
  rewrite E in IH |- *. destruct (N.eqb_spec x sep) as [->|_].
  - rewrite join_cons_cons, IH. reflexivity.
  - cbn [join app] in IH |- *. now rewrite IH.
Qed.

Lemma join_map_cons (i : nat) (p : jsstring) (ps : list jsstring) :
  join [nl] (map_indexed tab_line i (p :: ps))
  = tab_line p i
      ++ match ps with
         | [] => []
         | _ :: _ => [nl] ++ join [nl] (map_indexed tab_line (S i) ps)
         end.
Proof. destruct ps; reflexivity. Qed.

Lemma join_map_later (pieces : list jsstring) :
  forall i j,
    join [nl] (map_indexed tab_line (S i) pieces)
    = join [nl] (map_indexed tab_line (S j) pieces).
Proof.
  induction pieces as [|p ps IH]; intros i j; [reflexivity|].
  rewrite !join_map_cons. cbn [tab_line].
  destruct ps; [reflexivity|]. now rewrite (IH (S i) (S j)).
Qed.

Lemma join_tabbed_lines (s : jsstring) :
  join [nl] (map_indexed tab_line 0 (js_split nl s)) = expand_newlines s
  /\ join [nl] (map_indexed tab_line 1 (js_split nl s))
     = tab :: expand_newlines s.
Proof.
  induction s as [|x s [IH0 IH1]]; [split; reflexivity|].
  cbn [js_split expand_newlines].
  destruct (js_split_cons nl s) as (piece & pieces & E).
  rewrite E in IH0, IH1 |- *.
  assert (Hhead : forall i q,
             join [nl] (map_indexed tab_line i (q :: piece :: pieces))
             = tab_line q i ++ nl :: tab :: expand_newlines s).
  { intros i q. rewrite join_map_cons.
    rewrite (join_map_later (piece :: pieces) i 0), IH1. reflexivity. }
  assert (Hgrow : forall i,
             join [nl] (map_indexed tab_line i ((x :: piece) :: pieces))
             = tab_line [x] i ++ expand_newlines s).
  { intros i. rewrite join_map_cons. rewrite join_map_cons in IH0.
    rewrite <- IH0.
    replace (tab_line (x :: piece) i) with (tab_line [x] i ++ piece)
      by (destruct i; reflexivity).
    cbn [tab_line]. rewrite <- app_assoc. f_equal. f_equal.
    destruct pieces as [|q qs]; [reflexivity|].
    now rewrite (join_map_later (q :: qs) i 0). }
  destruct (N.eqb x nl).
  - rewrite !Hhead. split; reflexivity.
  - rewrite !Hgrow. split; reflexivity.
Qed.

Lemma expand_newlines_length (s : jsstring) :
  length (expand_newlines s) = length s + count_occ N.eq_dec s nl.
Proof.
  induction s as [|x s IH]; [reflexivity|]. cbn [expand_newlines count_occ].
  destruct (N.eqb_spec x nl) as [->|Hne].
  - destruct (N.eq_dec nl nl); [|contradiction]. cbn [length]. lia.
  - destruct (N.eq_dec x nl); [contradiction|]. cbn [length]. lia.
Qed.

Lemma expand_newlines_tabbed (s : jsstring) : tabbed (expand_newlines s).
Proof.
  unfold tabbed. induction s as [|x s IH]; intros u v H.
  - destruct u; discriminate.
  - cbn [expand_newlines] in H. destruct (N.eqb_spec x nl) as [->|Hne].
    + destruct u as [|y u]; [inversion H; eauto|].
      injection H as _ H.
      destruct u as [|z u]; [discriminate H|].
      injection H as _ H. eauto.
    + destruct u as [|y u]; [inversion H; congruence|].
      injection H as _ H. eauto.
Qed.

Lemma expand_newlines_injective (s1 : jsstring) :
  forall s2, expand_newlines s1 = expand_newlines s2 -> s1 = s2.
Proof.
  induction s1 as [|x1 s1 IH]; intros [|x2 s2]; cbn [expand_newlines].
  - reflexivity.
  - destruct (N.eqb x2 nl); discriminate.
  - destruct (N.eqb x1 nl); discriminate.
  - destruct (N.eqb_spec x1 nl) as [->|H1], (N.eqb_spec x2 nl) as [->|H2];
      intros H; inversion H; try congruence; f_equal; auto.
Qed.

Lemma tabNewlines_expand (s : jsstring) :
  tabNewlines s = expand_newlines s.
Proof. exact (proj1 (join_tabbed_lines s)). Qed.

(** X1. [tabNewlines] puts a tab after every newline of the text and
    changes nothing else: splitting into lines, tabbing every line but the
    first and joining again is that substitution, so the result is longer
    by one code unit for each newline. *)
Theorem X1_tabNewlines_expands (s : jsstring) :
  tabNewlines s = expand_newlines s
  /\ length (tabNewlines s) = length s + count_occ N.eq_dec s nl.
Proof.
  pose proof (tabNewlines_expand s) as H.
  split; [exact H|]. rewrite H. apply expand_newlines_length.
Qed.

Lemma tabNewlines_is_tabbed (s : jsstring) : tabbed (tabNewlines s).
Proof.
  rewrite tabNewlines_expand. apply expand_newlines_tabbed.
Qed.

(** X2. In the text [tabNewlines] returns, every newline is followed by a
    tab: each line after the first starts with a tab. *)
Theorem X2_tabNewlines_tabbed (s : jsstring) :
  forall u v, tabNewlines s = u ++ nl :: v -> exists v', v = tab :: v'.
Proof. apply tabNewlines_is_tabbed. Qed.

Lemma X2_tabNewlines_tabbed_witness :
  exists v', tab :: str "console.log(1)" ++ nl :: tab :: str "```" = tab :: v'.
Proof.
  apply (@X2_tabNewlines_tabbed code_text (str "check this out ```js")).
  vm_compute. reflexivity.
Defined.

(** X3. [tabNewlines] loses nothing: two texts with the same tabbed form
    are the same text. *)
Theorem X3_tabNewlines_injective (s1 s2 : jsstring) :
  tabNewlines s1 = tabNewlines s2 -> s1 = s2.
Proof.
  rewrite !tabNewlines_expand. apply expand_newlines_injective.
Qed.

Lemma X3_tabNewlines_injective_witness : code_text = code_text.
Proof.
  exact (@X3_tabNewlines_injective code_text code_text eq_refl).
Defined.

Lemma tabbed_after_header (header body : jsstring) :
  newline_free header -> tabbed body -> tabbed (header ++ body).
Proof.
  unfold tabbed, newline_free. induction header as [|x header IH];
    intros Hfree Hbody u v H; [eauto|].
  destruct u as [|y u]; inversion H.
  - subst x. exfalso. apply Hfree. now left.
  - eapply IH; [|exact Hbody|eassumption].
    intros Hin. apply Hfree. now right.
Qed.

Lemma newline_free_app (a b : jsstring) :
  newline_free a -> newline_free b -> newline_free (a ++ b).
Proof.
  unfold newline_free. intros Ha Hb H. apply in_app_iff in H. tauto.
Qed.

Lemma newline_free_literal (s : jsstring) :
  forallb (fun c => negb (N.eqb c nl)) s = true -> newline_free s.
Proof.
  unfold newline_free. intros H Hin.
  rewrite forallb_forall in H. specialize (H _ Hin).
  now rewrite N.eqb_refl in H.
Qed.

(** X4. A logged message cannot start a line of its own in the console:
    when the names in the header hold no newline, every newline of the text
    [logMessage] prints is followed by a tab, for a direct message and for
    one from a guild, edited or not. *)
Theorem X4_logMessage_tabbed (guild : option jsstring) (m : snapshot)
        (edit : bool) :
  newline_free (author_tag m) ->
  (forall name, guild = Some name ->
                newline_free name /\ newline_free (chan_name (msg_channel m))) ->
  tabbed (logMessage guild m edit).
Proof.
  intros Hauthor Hguild. unfold logMessage.
  assert (He : newline_free (if edit then str "(edit) " else []))
    by (destruct edit; apply newline_free_literal; reflexivity).
  assert (Hsep : newline_free (str "> "))
    by (apply newline_free_literal; reflexivity).
  assert (Hhash : newline_free (str "> #"))
    by (apply newline_free_literal; reflexivity).
  destruct guild as [name|].
  - destruct (Hguild name eq_refl) as [Hname Hchan].
    rewrite !app_assoc.
    apply tabbed_after_header; [|apply tabNewlines_is_tabbed].
    repeat apply newline_free_app; assumption.
  - rewrite !app_assoc.
    apply tabbed_after_header; [|apply tabNewlines_is_tabbed].
    repeat apply newline_free_app; assumption.
Qed.

Lemma X4_logMessage_tabbed_witness :
  tabbed (logMessage (Some (str "snippets")) (version code_text None) true).
Proof.
  refine (@X4_logMessage_tabbed (Some (str "snippets"))
            (version code_text None) true _ _).
  - apply newline_free_literal. reflexivity.
  - intros name H. inversion H.
    split; apply newline_free_literal; reflexivity.
Defined.

(** ** The statements sent to the database *)

Lemma question_marks_app (a b : jsstring) :
  question_marks (a ++ b) = question_marks a + question_marks b.
Proof. unfold question_marks. now rewrite filter_app, length_app. Qed.

Lemma question_marks_placeholders (n : nat) :
  question_marks (join (str ", ") (repeat (str "?") n)) = n.
Proof.
  induction n as [|n IH]; [reflexivity|]. destruct n as [|n]; [reflexivity|].
  change (join (str ", ") (repeat (str "?") (S (S n))))
    with (str "?" ++ str ", " ++ join (str ", ") (repeat (str "?") (S n))).
  rewrite !question_marks_app, IH. reflexivity.
Qed.

Lemma insert_query_question_marks (table : jsstring) (values : list value) :
  question_marks (insert_query table values)
  = question_marks table + length values.
Proof.
  unfold insert_query. rewrite !question_marks_app.
  rewrite question_marks_placeholders.
  change (question_marks (str "INSERT INTO ")) with 0.
  change (question_marks (str " VALUES(")) with 0.
  change (question_marks (str ")")) with 0. lia.
Qed.

(** X5. The statement of [insertRow] holds one placeholder for each value
    it is given, whatever the values are: beyond the question marks of the
    table name itself, the statement has as many question marks as there
    are values, none for an empty row. *)
Theorem X5_insert_query_placeholders (table : jsstring)
        (values : list value) :
  question_marks (insert_query table values)
  = question_marks table + length values
  /\ insert_query table [] = str "INSERT INTO " ++ table ++ str " VALUES()".
Proof. split; [apply insert_query_question_marks | reflexivity]. Qed.

(** ** Rows as they are written *)

Lemma written_app (a b : store) : written a -> written b -> written (a ++ b).
Proof.
  intros Ha Hb. induction Ha; cbn [app]; [assumption | |];
    constructor; assumption.
Qed.

Lemma processMessage_written (cfg : config) (m : snapshot) (edit : bool)
      (d d' : store) :
  processMessage cfg m edit d = Some d' ->
  exists rows, d' = d ++ rows /\ written rows.
Proof.
  unfold processMessage.
  destruct (isRelevant cfg (content m)) as [[|]|]; [| |discriminate];
    intros H; inversion H.
  - unfold storeRevision, createEntry, insertRow.
    fold (entry_row m). fold (revision_row m). destruct edit.
    + exists [revision_row m]. split; [reflexivity | repeat constructor].
    + exists [entry_row m; revision_row m]. rewrite <- app_assoc.
      split; [reflexivity | repeat constructor].
  - exists []. split; [now rewrite app_nil_r | constructor].
Qed.

Lemma forEach_written {X} (f : X -> store -> option store) (l : list X) :
  (forall x d d', f x d = Some d' ->
                  exists rows, d' = d ++ rows /\ written rows) ->
  forall d d', forEach f l d = Some d' ->
               exists rows, d' = d ++ rows /\ written rows.
Proof.
  intros Hf. induction l as [|x l IH]; intros d d'; cbn [forEach].
  - intros H. inversion H. exists []. split; [now rewrite app_nil_r|constructor].
  - destruct (f x d) as [d1|] eqn:E; [|discriminate]. intros H.
    apply Hf in E as (r1 & -> & H1). apply IH in H as (r2 & -> & H2).
    exists (r1 ++ r2). split; [now rewrite app_assoc | now apply written_app].
Qed.

Lemma processMessageEdits_written (cfg : config) (m : message)
      (d d' : store) :
  processMessageEdits cfg m d = Some d' ->
  exists rows, d' = d ++ rows /\ written rows.
Proof.
  unfold processMessageEdits. destruct (rev (edits m)) as [|v later];
    [discriminate|].
  destruct (processMessage cfg v false d) as [d1|] eqn:E; [|discriminate].
  intros H. apply processMessage_written in E as (r1 & -> & H1).
  apply (forEach_written (fun v0 => processMessage cfg v0 true)) in H
    as (r2 & -> & H2).
  - exists (r1 ++ r2). split; [now rewrite app_assoc | now apply written_app].
  - intros x d0 d0'. apply processMessage_written.
Qed.

Lemma step_written (cfg : config) (gw : gateway) (w w' : world) :
  step cfg gw w w' -> exists rows, db w' = db w ++ rows /\ written rows.
Proof.
  assert (Hnone : forall d : store, exists rows, d = d ++ rows /\ written rows).
  { intros d. exists []. split; [now rewrite app_nil_r | constructor]. }
  intros [w0 ch n before pre post w1 _ _ H | w0 m w1 _ H | w0 m0 m1 w1 _ H].
  - unfold on_response in H. destruct (gw ch n before) as [messages|e].
    + cbn [db set_pending] in H.
      destruct (forEach (processMessageEdits cfg) messages (db w0))
        as [d|] eqn:E; [|discriminate].
      apply (forEach_written (processMessageEdits cfg)) in E;
        [|intros x d0 d0'; apply processMessageEdits_written].
      destruct (Nat.eqb (length messages) limit).
      * destruct (rev messages); [discriminate|]. inversion H. exact E.
      * cbn [channelsRemaining log set_db set_remaining] in H.
        destruct (Z.eqb _ 0); [destruct (oneshot cfg)|];
          inversion H; exact E.
    + inversion H. apply Hnone.
  - unfold on_message in H. destruct (parse cfg && oneshot cfg).
    + inversion H. apply Hnone.
    + cbn [db log] in H.
      destruct (processMessage cfg m false (db w0)) as [d|] eqn:E;
        [|discriminate].
      inversion H. cbn [db set_db]. eapply processMessage_written. eassumption.
  - unfold on_messageUpdate in H. destruct (parse cfg && oneshot cfg).
    + inversion H. apply Hnone.
    + cbn [db log] in H.
      destruct (processMessage cfg m1 true (db w0)) as [d|] eqn:E;
        [|discriminate].
      inversion H. cbn [db set_db]. eapply processMessage_written. eassumption.
Qed.

Lemma steps_written (cfg : config) (gw : gateway) (w w' : world) :
  steps cfg gw w w' -> exists rows, db w' = db w ++ rows /\ written rows.
Proof.
  intros H. induction H as [w|w1 w2 w3 Hstep _ IH].
  - exists []. split; [now rewrite app_nil_r | constructor].
  - apply step_written in Hstep as (r1 & E1 & H1).
    destruct IH as (r2 & E2 & H2). exists (r1 ++ r2).
    split; [now rewrite E2, E1, app_assoc | now apply written_app].
Qed.

Lemma entry_row_fits (m : snapshot) : fits_schema (entry_row m).
Proof. eexists. split; reflexivity. Qed.

Lemma revision_row_fits (m : snapshot) : fits_schema (revision_row m).
Proof. eexists. split; reflexivity. Qed.

Lemma written_fits (rows : store) : written rows -> Forall fits_schema rows.
Proof.
  intros H. induction H; repeat constructor;
    auto using entry_row_fits, revision_row_fits.
Qed.

(** X6. Whatever the pipeline runs, every row it hands to the database is
    for a table that [prepareDatabase] asserts and has one value for each
    column of that table, so the statement of [insertRow] has one
    placeholder for each column. *)
Theorem X6_rows_fit_schema (cfg : config) (gw : gateway) (w w' : world) :
  steps cfg gw w w' ->
  exists rows,
    db w' = db w ++ rows
    /\ Forall fits_schema rows
    /\ Forall (fun r =>
                 exists columns,
                   columns_of schema (fst r) = Some columns
                   /\ In (assertTable (fst r) columns) prepareDatabase
                   /\ question_marks (insert_query (fst r) (snd r))
                      = length columns) rows.
Proof.
  intros H. apply steps_written in H as (rows & E & Hw).
  exists rows. split; [exact E|]. split; [now apply written_fits|].
  clear E. induction Hw; repeat constructor; try assumption;
    eexists; (split; [reflexivity|]); split;
      try (rewrite insert_query_question_marks; reflexivity);
      cbn; auto.
Qed.

Lemma created_world_reached (gw : gateway) :
  steps example_config gw start created_world.
Proof.
  eapply rt1n_trans; [|apply rt1n_refl].
  apply step_message with (m := version code_text None);
    [reflexivity | vm_compute; reflexivity].
Qed.

Lemma X6_rows_fit_schema_witness :
  exists rows,
    db created_world = db start ++ rows
    /\ Forall fits_schema rows
    /\ Forall (fun r =>
                 exists columns,
                   columns_of schema (fst r) = Some columns
                   /\ In (assertTable (fst r) columns) prepareDatabase
                   /\ question_marks (insert_query (fst r) (snd r))
                      = length columns) rows.
Proof.
  exact (@X6_rows_fit_schema example_config failing_gateway start
           created_world (created_world_reached failing_gateway)).
Defined.

Lemma written_pairs (rows : store) :
  written rows ->
  forall pre r post,
    rows = pre ++ r :: post -> fst r = str "Message" ->
    exists m post', r = entry_row m /\ post = revision_row m :: post'.
Proof.
  intros H. induction H as [|m rows H IH|m rows H IH]; intros pre r post E Hr.
  - destruct pre; discriminate.
  - destruct pre as [|p pre]; injection E as E1 E2.
    + subst r. discriminate Hr.
    + eapply IH; eassumption.
  - destruct pre as [|p pre]; injection E as E1 E2.
    + subst r post. eauto.
    + destruct pre as [|q pre]; injection E2 as E2 E3.
      * subst r. discriminate Hr.
      * eapply IH; eassumption.
Qed.

Lemma written_counts (rows : store) :
  written rows ->
  length (identity_rows rows) <= length (revision_rows rows).
Proof.
  intros H. induction H as [|m rows H IH|m rows H IH]; [apply Nat.le_refl| |].
  - change (identity_rows (revision_row m :: rows)) with (identity_rows rows).
    change (revision_rows (revision_row m :: rows))
      with (revision_row m :: revision_rows rows).
    cbn [length]. lia.
  - change (identity_rows (entry_row m :: revision_row m :: rows))
      with (entry_row m :: identity_rows rows).
    change (revision_rows (entry_row m :: revision_row m :: rows))
      with (revision_row m :: revision_rows rows).
    cbn [length]. lia.
Qed.

(** X7. In the rows any run of the pipeline hands to the database, an
    identity row is always followed at once by the revision row of the same
    version, so there are never more identity rows than revision rows. *)
Theorem X7_identity_then_revision (cfg : config) (gw : gateway)
        (w w' : world) :
  steps cfg gw w w' ->
  exists rows,
    db w' = db w ++ rows
    /\ (forall pre r post,
           rows = pre ++ r :: post -> fst r = str "Message" ->
           exists m post', r = entry_row m /\ post = revision_row m :: post')
    /\ length (identity_rows rows) <= length (revision_rows rows).
Proof.
  intros H. apply steps_written in H as (rows & E & Hw).
  exists rows. split; [exact E|].
  split; [now apply written_pairs | now apply written_counts].
Qed.

Lemma X7_identity_then_revision_witness :
  exists rows,
    db created_world = db start ++ rows
    /\ (forall pre r post,
           rows = pre ++ r :: post -> fst r = str "Message" ->
           exists m post', r = entry_row m /\ post = revision_row m :: post')
    /\ length (identity_rows rows) <= length (revision_rows rows).
Proof.
  exact (@X7_identity_then_revision example_config failing_gateway start
           created_world (created_world_reached failing_gateway)).
Defined.

(** X8. Identity rows are not deduplicated: a relevant message processed
    twice as new, as when the backfill has stored it and the handler of
    "message" then sees it, gets a second identity row and a second
    revision row. *)
Theorem X8_identity_not_deduplicated (cfg : config) (m : snapshot)
        (d : store) :
  isRelevant cfg (content m) = Some true ->
  match processMessage cfg m false d with
  | Some d1 => processMessage cfg m false d1
  | None => None
  end
  = Some (d ++ [entry_row m; revision_row m; entry_row m; revision_row m])
  /\ (parse cfg && oneshot cfg = false ->
      forall w,
        match processMessageEdits cfg (Message m []) d with
        | Some d1 => option_map db (on_message cfg m (set_db d1 w))
        | None => None
        end
        = Some (d ++ [entry_row m; revision_row m;
                      entry_row m; revision_row m])).
Proof.
  intros Hrel.
  assert (H : forall d0, processMessage cfg m false d0
                         = Some (d0 ++ [entry_row m; revision_row m])).
  { intros d0. erewrite processMessage_rows by exact Hrel. reflexivity. }
  split.
  - rewrite H, H, <- app_assoc. reflexivity.
  - intros Hlive w. unfold processMessageEdits, edits.
    cbn [latest earlier rev app]. rewrite H. cbn [forEach].
    unfold on_message. rewrite Hlive. cbn [db log set_db].
    rewrite H. cbn [option_map db set_db]. now rewrite <- app_assoc.
Qed.

Lemma X8_identity_not_deduplicated_witness :
  match processMessage example_config (version code_text None) false [] with
  | Some d1 => processMessage example_config (version code_text None) false d1
  | None => None
  end
  = Some ([] ++ [entry_row (version code_text None);
                 revision_row (version code_text None);
                 entry_row (version code_text None);
                 revision_row (version code_text None)]).
Proof.
  refine (proj1 (@X8_identity_not_deduplicated example_config
                   (version code_text None) [] _)).
  vm_compute. reflexivity.
Defined.

(** ** The start of the backfill *)

Lemma jseqb_eq (a b : jsstring) : jseqb a b = true <-> a = b.
Proof.
  revert b. induction a as [|x a IH]; intros [|y b]; cbn [jseqb];
    try (split; [discriminate | discriminate]); [tauto|].
  rewrite andb_true_iff, N.eqb_eq, IH.
  split; [intros [-> ->]; reflexivity | intros H; inversion H; auto].
Qed.

Lemma text_channels_in (guilds : list guild) (ch : channel) :
  In ch (text_channels guilds)
  <-> exists g, In g guilds /\ In ch (guild_channels g)
                /\ chan_type ch = str "text".
Proof.
  unfold text_channels. rewrite in_flat_map. split.
  - intros (g & Hg & H). apply filter_In in H as [Hin Ht].
    apply jseqb_eq in Ht. eauto.
  - intros (g & Hg & Hin & Ht). exists g. split; [assumption|].
    apply filter_In. split; [assumption | now apply jseqb_eq].
Qed.

Lemma scan_channels_requests (chs : list channel) :
  forall w,
    let w' := fold_left (fun w1 ch => scanChannel ch w1) chs w in
    requests w' = requests w ++ map first_request chs
    /\ pending w' = pending w ++ map first_request chs
    /\ console w' = console w ++ map Scanning chs
    /\ db w' = db w.
Proof.
  induction chs as [|ch chs IH]; intros w; cbn [fold_left map].
  - cbn zeta. now rewrite !app_nil_r.
  - destruct (IH (scanChannel ch w)) as (Hr & Hp & Hc & Hd).
    cbn zeta. rewrite Hr, Hp, Hc, Hd. cbn. rewrite <- !app_assoc.
    repeat split; reflexivity.
Qed.

Lemma scanHistory_fields (guilds : list guild) (w : world) :
  requests (scanHistory guilds w)
  = requests w ++ map first_request (text_channels guilds)
  /\ pending (scanHistory guilds w)
     = pending w ++ map first_request (text_channels guilds)
  /\ channelsRemaining (scanHistory guilds w)
     = Z.of_nat (length (text_channels guilds))
  /\ console (scanHistory guilds w)
     = console w ++ Preparing :: map Scanning (text_channels guilds)
  /\ db (scanHistory guilds w) = db w.
Proof.
  unfold scanHistory.
  destruct (scan_channels_requests (text_channels guilds)
              (set_remaining (Z.of_nat (length (text_channels guilds)))
                             (log Preparing w)))
    as (Hr & Hp & Hc & Hd).
  destruct (scan_channels_fields (text_channels guilds)
              (set_remaining (Z.of_nat (length (text_channels guilds)))
                             (log Preparing w)))
    as (_ & Hn & _).
  cbn zeta in *. rewrite Hr, Hp, Hc, Hd, Hn. cbn. rewrite <- app_assoc.
  repeat split; reflexivity.
Qed.

(** X9. [scanHistory] sets the counter to the number of text channels of
    all guilds and makes one fetch for each of them, for its newest page,
    in the order of the guilds and of their channels; channels of other
    kinds are not fetched, and nothing is stored yet. *)
Theorem X9_scanHistory_requests (guilds : list guild) (w : world) :
  requests (scanHistory guilds w)
  = requests w ++ map first_request (text_channels guilds)
  /\ pending (scanHistory guilds w)
     = pending w ++ map first_request (text_channels guilds)
  /\ channelsRemaining (scanHistory guilds w)
     = Z.of_nat (length (text_channels guilds))
  /\ console (scanHistory guilds w)
     = console w ++ Preparing :: map Scanning (text_channels guilds)
  /\ db (scanHistory guilds w) = db w
  /\ (forall ch,
         In ch (text_channels guilds)
         <-> exists g, In g guilds /\ In ch (guild_channels g)
                       /\ chan_type ch = str "text").
Proof.
  destruct (scanHistory_fields guilds w) as (Hr & Hp & Hn & Hc & Hd).
  repeat split; try assumption; apply text_channels_in.
Qed.

(** ** Every fetch of the backfill *)

Lemma requests_ok_start (guilds : list guild) :
  requests_ok (text_channels guilds) (scanHistory guilds start).
Proof.
  unfold requests_ok.
  destruct (scanHistory_fields guilds start) as (Hr & Hp & _).
  rewrite Hr, Hp. split; apply Forall_forall; intros r Hin;
    apply in_map_iff in Hin as (ch & <- & Hch); split; auto.
Qed.

Lemma step_requests_ok (cfg : config) (gw : gateway)
      (channels : list channel) (w w' : world) :
  requests_ok channels w -> step cfg gw w w' -> requests_ok channels w'.
Proof.
  intros [Hp Hr] Hstep. unfold requests_ok.
  destruct Hstep as [w ch n before pre post w' _ Hpend H | w m w' _ H
                     | w m0 m1 w' _ H].
  - rewrite Hpend in Hp.
    assert (Hthis : request_ok channels (ch, n, before)).
    { rewrite Forall_forall in Hp. apply Hp. apply in_app_iff.
      right. now left. }
    assert (Hrest : Forall (request_ok channels) (pre ++ post)).
    { apply Forall_app in Hp as [Hpre Hpost].
      apply Forall_app. split; [assumption | now inversion Hpost]. }
    destruct (gw ch n before) as [messages|e].
    + apply on_response_page in H. cbn [requests pending set_pending] in H.
      destruct (Nat.eqb (length messages) limit).
      * destruct H as (front & oldest & _ & Hq & Hq' & _).
        rewrite Hq, Hq'.
        assert (Hnew : request_ok channels
                         (ch, limit, Some (id (latest oldest)))).
        { split; [reflexivity | apply Hthis]. }
        split; apply Forall_app; split; auto.
      * destruct H as (Hq & Hq' & _). rewrite Hq, Hq'. auto.
    + inversion H. cbn. auto.
  - apply on_message_fields in H as (Hq & Hq' & _). now rewrite Hq, Hq'.
  - apply on_messageUpdate_fields in H as (Hq & Hq' & _). now rewrite Hq, Hq'.
Qed.

(** X10. Every fetch the backfill ever makes, first page or later, asks
    for 100 messages of one of the text channels it started from. *)
Theorem X10_fetches_of_text_channels (cfg : config) (gw : gateway)
        (guilds : list guild) (w : world) :
  steps cfg gw (scanHistory guilds start) w ->
  forall ch n before,
    In (ch, n, before) (requests w) ->
    n = 100 /\ chan_type ch = str "text"
    /\ exists g, In g guilds /\ In ch (guild_channels g).
Proof.
  intros Hsteps.
  assert (Hok : requests_ok (text_channels guilds) w).
  { pose proof (requests_ok_start guilds) as H0. revert H0.
    induction Hsteps as [|w1 w2 w3 Hstep _ IH]; [auto|].
    intros H0. apply IH. eapply step_requests_ok; eassumption. }
  intros ch n before Hin. destruct Hok as [_ Hr].
  rewrite Forall_forall in Hr. destruct (Hr _ Hin) as [Hn Hch].
  cbn in Hn, Hch. apply text_channels_in in Hch as (g & Hg & Hc & Ht).
  split; [exact Hn|]. split; [exact Ht | eauto].
Qed.

Lemma X10_fetches_of_text_channels_witness :
  limit = 100 /\ chan_type general = str "text"
  /\ exists g, In g [example_guild] /\ In general (guild_channels g).
Proof.
  refine (@X10_fetches_of_text_channels example_config failing_gateway
            [example_guild] stalled_world _ general limit None _).
  - eapply rt1n_trans; [|apply rt1n_refl].
    eapply step_response with (pre := []) (post := []);
      [reflexivity | reflexivity | reflexivity].
  - vm_compute. left. reflexivity.
Defined.

(** ** When nothing is fetched *)

Lemma step_quiet (cfg : config) (gw : gateway) (w w' : world) :
  quiet w -> step cfg gw w w' -> quiet w' /\ requests w' = requests w.
Proof.
  intros [Hp Hc] Hstep.
  destruct Hstep as [w ch n before pre post w' _ Hpend H | w m w' _ H
                     | w m0 m1 w' _ H].
  - rewrite Hp in Hpend. destruct pre; discriminate.
  - apply on_message_fields in H as (Hr & Hq & _ & Hx & Hl).
    unfold quiet, completed. rewrite Hq, Hx. split; [|assumption].
    split; [assumption|]. intros [Hin|Hex]; apply Hc; [left | now right].
    destruct Hl as [Hl|Hl]; rewrite Hl in Hin; [assumption|].
    apply in_app_iff in Hin as [Hin|[Hin|[]]]; [assumption | discriminate].
  - apply on_messageUpdate_fields in H as (Hr & Hq & _ & Hx & Hl).
    unfold quiet, completed. rewrite Hq, Hx. split; [|assumption].
    split; [assumption|]. intros [Hin|Hex]; apply Hc; [left | now right].
    destruct Hl as [Hl|Hl]; rewrite Hl in Hin; [assumption|].
    apply in_app_iff in Hin as [Hin|[Hin|[]]]; [assumption | discriminate].
Qed.

Lemma steps_quiet (cfg : config) (gw : gateway) (w w' : world) :
  quiet w -> steps cfg gw w w' -> quiet w' /\ requests w' = requests w.
Proof.
  intros Hq H. induction H as [|w1 w2 w3 Hstep _ IH]; [auto|].
  destruct (step_quiet Hq Hstep) as [Hq2 Hr2].
  destruct (IH Hq2) as [Hq3 Hr3]. split; [assumption | congruence].
Qed.

Lemma on_ready_quiet (cfg : config) (guilds : list guild) :
  parse cfg = false \/ text_channels guilds = [] ->
  quiet (on_ready cfg guilds start)
  /\ requests (on_ready cfg guilds start) = [].
Proof.
  unfold on_ready, quiet, completed. intros [Hp|Hn].
  - rewrite Hp. cbn. split; [split|]; try reflexivity.
    intros [[]|H]; now apply H.
  - destruct (parse cfg).
    + destruct (scanHistory_fields guilds start) as (Hr & Hq & _ & Hc & _).
      destruct (scan_channels_fields (text_channels guilds)
                  (set_remaining (Z.of_nat (length (text_channels guilds)))
                                 (log Preparing start)))
        as (_ & _ & _ & _ & Hx).
      unfold scanHistory in *. cbn zeta in *.
      rewrite Hr, Hq, Hc, Hx, Hn. cbn. split; [split|]; try reflexivity.
      intros [[H|[]]|H]; [discriminate | now apply H].
    + cbn. split; [split|]; try reflexivity. intros [[]|H]; now apply H.
Qed.

(** X11. With no text channel to scan, or with the backfill switched off,
    nothing is ever fetched and completion is never signalled: even in
    one-shot mode the process does not log that scanning is complete and
    does not exit. *)
Theorem X11_nothing_to_scan (cfg : config) (gw : gateway)
        (guilds : list guild) (w : world) :
  parse cfg = false \/ text_channels guilds = [] ->
  steps cfg gw (on_ready cfg guilds start) w ->
  requests w = []
  /\ ~ In ScanningComplete (console w)
  /\ exit_code w = None.
Proof.
  intros Hnone Hsteps. destruct (on_ready_quiet cfg guilds Hnone) as [Hq Hr].
  destruct (steps_quiet Hq Hsteps) as [[_ Hc] Hr'].
  split; [congruence|]. unfold completed in Hc. split; [tauto|].
  destruct (exit_code w); [|reflexivity]. exfalso. apply Hc. right. discriminate.
Qed.

Lemma X11_nothing_to_scan_witness :
  requests (on_ready (Config [] true true) [] start) = []
  /\ ~ In ScanningComplete (console (on_ready (Config [] true true) [] start))
  /\ exit_code (on_ready (Config [] true true) [] start) = None.
Proof.
  refine (@X11_nothing_to_scan (Config [] true true) failing_gateway []
            (on_ready (Config [] true true) [] start) _ _).
  - right. reflexivity.
  - apply rt1n_refl.
Defined.

(** ** Completion of the backfill *)

Lemma scanHistory_completion_ok (cfg : config) (guilds : list guild) :
  text_channels guilds <> [] ->
  completion_ok cfg (scanHistory guilds start).
Proof.
  intros Hne. right.
  destruct (scanHistory_fields guilds start) as (_ & _ & Hn & Hc & _).
  destruct (scan_channels_fields (text_channels guilds)
              (set_remaining (Z.of_nat (length (text_channels guilds)))
                             (log Preparing start)))
    as (_ & _ & _ & _ & Hx).
  rewrite Hn, Hc. split; [|split].
  - destruct (text_channels guilds); [contradiction | cbn; lia].
  - cbn. intros [H|H]; [discriminate|].
    apply in_map_iff in H as (ch & H & _). discriminate.
  - exact Hx.
Qed.

Lemma not_in_snoc (l : list logline) (x : logline) :
  x <> ScanningComplete ->
  ~ In ScanningComplete l -> ~ In ScanningComplete (l ++ [x]).
Proof.
  intros Hx Hl H. apply in_app_iff in H as [H|[H|[]]]; [auto | congruence].
Qed.

Lemma step_completion_ok (cfg : config) (gw : gateway) (w w' : world) :
  counter_ok w -> completion_ok cfg w -> step cfg gw w w' ->
  completion_ok cfg w'.
Proof.
  intros [Hcount _] Hc Hstep. unfold completion_ok in *.
  destruct Hstep as [w ch n before pre post w' Hrun Hpend H | w m w' _ H
                     | w m0 m1 w' _ H].
  - assert (Hpos : channelsRemaining w <> 0%Z).
    { rewrite Hcount, Hpend, length_app. cbn. lia. }
    destruct Hc as [(Hz & _) | (_ & Hnot & _)]; [contradiction|].
    destruct (gw ch n before) as [messages|e].
    + apply on_response_page in H.
      cbn [requests pending channelsRemaining console exit_code
           set_pending] in H.
      destruct (Nat.eqb (length messages) limit).
      * destruct H as (front & oldest & _ & _ & _ & Hn & Hl & Hx).
        right. rewrite Hn, Hl, Hx. auto.
      * destruct H as (_ & _ & Hn & [(Hl & Hx & Hnz) | (Hl & Hz & Hx)]).
        -- right. rewrite Hl, Hx. split; [assumption|].
           split; [apply not_in_snoc; [discriminate | assumption] | assumption].
        -- left. rewrite Hl, Hx, Hrun. split; [assumption|].
           split; [|reflexivity]. apply in_app_iff. right. cbn. auto.
    + inversion H. subst w'. right. cbn. split; [assumption|].
      split; [apply not_in_snoc; [discriminate | assumption] | assumption].
  - apply on_message_fields in H as (_ & _ & Hn & Hx & Hl).
    rewrite Hn, Hx. destruct Hl as [-> | ->]; [assumption|].
    destruct Hc as [(Hz & Hin & He) | (Hz & Hnot & He)].
    + left. split; [assumption|]. split; [|assumption].
      apply in_app_iff. now left.
    + right. split; [assumption|].
      split; [apply not_in_snoc; [discriminate | assumption] | assumption].
  - apply on_messageUpdate_fields in H as (_ & _ & Hn & Hx & Hl).
    rewrite Hn, Hx. destruct Hl as [-> | ->]; [assumption|].
    destruct Hc as [(Hz & Hin & He) | (Hz & Hnot & He)].
    + left. split; [assumption|]. split; [|assumption].
      apply in_app_iff. now left.
    + right. split; [assumption|].
      split; [apply not_in_snoc; [discriminate | assumption] | assumption].
Qed.

Lemma steps_completion_ok (cfg : config) (gw : gateway) (w w' : world) :
  counter_ok w -> completion_ok cfg w -> steps cfg gw w w' ->
  counter_ok w' /\ completion_ok cfg w'.
Proof.
  intros Hcount Hc H. induction H as [|w1 w2 w3 Hstep _ IH]; [auto|].
  apply IH.
  - eapply step_counter_ok; eassumption.
  - eapply step_completion_ok; eassumption.
Qed.

Lemma backfill_invariants (cfg : config) (gw : gateway)
      (guilds : list guild) (w : world) :
  text_channels guilds <> [] ->
  steps cfg gw (scanHistory guilds start) w ->
  counter_ok w /\ completion_ok cfg w.
Proof.
  intros Hne. apply steps_completion_ok.
  - apply scanHistory_counter_ok.
  - now apply scanHistory_completion_ok.
Qed.

(** X12. A backfill over at least one text channel signals completion as
    soon as no fetch is under way and none has failed: then "Scanning
    complete." has been logged, and the process has exited with code 0 in
    one-shot mode and is still running otherwise. Before that, nothing of
    the kind has happened. *)
Theorem X12_backfill_completes (cfg : config) (gw : gateway)
        (guilds : list guild) (w : world) :
  text_channels guilds <> [] ->
  steps cfg gw (scanHistory guilds start) w ->
  (pending w = [] -> errors (console w) = 0 ->
   In ScanningComplete (console w)
   /\ exit_code w = if oneshot cfg then Some 0%Z else None)
  /\ (pending w <> [] ->
      ~ In ScanningComplete (console w) /\ exit_code w = None).
Proof.
  intros Hne Hsteps.
  destruct (@backfill_invariants cfg gw guilds w Hne Hsteps)
    as [[Hcount _] Hc].
  split.
  - intros Hp He. rewrite Hp, He in Hcount. cbn in Hcount.
    destruct Hc as [(_ & Hin & Hx) | (Hnz & _)]; [auto | contradiction].
  - intros Hp.
    assert (Hpos : channelsRemaining w <> 0%Z).
    { rewrite Hcount. destruct (pending w); [contradiction | cbn; lia]. }
    destruct Hc as [(Hz & _) | (_ & Hnot & Hx)]; [contradiction | auto].
Qed.

Lemma finished_world_reached :
  steps example_config empty_gateway (scanHistory [example_guild] start)
        finished_world.
Proof.
  eapply rt1n_trans; [|apply rt1n_refl].
  eapply step_response with (pre := []) (post := []);
    [reflexivity | reflexivity | reflexivity].
Qed.

Lemma exited_world_reached :
  steps one_shot_config empty_gateway
        (on_ready one_shot_config [example_guild] start) exited_world.
Proof.
  eapply rt1n_trans; [|apply rt1n_refl].
  eapply step_response with (pre := []) (post := []);
    [reflexivity | reflexivity | reflexivity].
Qed.

Lemma X12_backfill_completes_witness :
  (pending finished_world = [] -> errors (console finished_world) = 0 ->
   In ScanningComplete (console finished_world)
   /\ exit_code finished_world
      = if oneshot example_config then Some 0%Z else None)
  /\ (pending finished_world <> [] ->
      ~ In ScanningComplete (console finished_world)
      /\ exit_code finished_world = None).
Proof.
  refine (@X12_backfill_completes example_config empty_gateway
            [example_guild] finished_world _ finished_world_reached).
  discriminate.
Defined.

(** X13. The pipeline ends the process only by finishing a backfill in
    one-shot mode: whenever the process has exited, the exit code is 0, the
    backfill was on and one-shot, "Scanning complete." has been logged, and
    no fetch is under way or has failed. *)
Theorem X13_exit_only_on_completion (cfg : config) (gw : gateway)
        (guilds : list guild) (w : world) (c : Z) :
  steps cfg gw (on_ready cfg guilds start) w ->
  exit_code w = Some c ->
  c = 0%Z /\ oneshot cfg = true /\ parse cfg = true
  /\ In ScanningComplete (console w)
  /\ pending w = [] /\ errors (console w) = 0.
Proof.
  intros Hsteps Hexit.
  assert (Hquiet : parse cfg = false \/ text_channels guilds = [] -> False).
  { intros Hnone. destruct (on_ready_quiet cfg guilds Hnone) as [Hq _].
    destruct (steps_quiet Hq Hsteps) as [[_ Hc] _].
    apply Hc. right. congruence. }
  destruct (parse cfg) eqn:Hparse; [|exfalso; auto].
  assert (Hne : text_channels guilds <> []) by (intros H; auto).
  unfold on_ready in Hsteps. rewrite Hparse in Hsteps.
  destruct (@backfill_invariants cfg gw guilds w Hne Hsteps)
    as [[Hcount _] Hc].
  destruct Hc as [(Hz & Hin & Hx) | (_ & _ & Hx)]; [|congruence].
  rewrite Hexit in Hx. destruct (oneshot cfg); [|discriminate].
  inversion Hx. rewrite Hz in Hcount.
  repeat split; try assumption; try reflexivity.
  - destruct (pending w); [reflexivity | cbn in Hcount; lia].
  - lia.
Qed.

Lemma X13_exit_only_on_completion_witness :
  0%Z = 0%Z /\ oneshot one_shot_config = true /\ parse one_shot_config = true
  /\ In ScanningComplete (console exited_world)
  /\ pending exited_world = [] /\ errors (console exited_world) = 0.
Proof.
  exact (@X13_exit_only_on_completion one_shot_config empty_gateway
           [example_guild] exited_world 0%Z exited_world_reached eq_refl).
Defined.

(** ** Where extracted blocks come from *)

Lemma has_fence_newlines (j : nat) (t : jsstring) :
  has_fence (newlines j ++ t) = has_fence t.
Proof.
  induction j as [|j IH]; [reflexivity|]. cbn [newlines repeat app].
  now rewrite has_fence_cons.
Qed.

Lemma strip_prefix_fence_head (t r : jsstring) :
  strip_prefix fence t = Some r -> closing t = Some r.
Proof.
  intros H. unfold closing. pose proof H as H'.
  apply strip_prefix_app in H'. subst t. exact H.
Qed.

Lemma find_close_nearest (t : jsstring) :
  forall b r,
    find_close t = Some (b, r) ->
    exists j,
      t = b ++ newlines j ++ fence ++ r
      /\ has_fence (b ++ newlines j ++ [bt; bt]) = false
      /\ ends_clean b = true.
Proof.
  induction t as [|x t IH]; intros b r; cbn [find_close].
  - unfold closing. cbn. discriminate.
  - destruct (closing (x :: t)) as [r0|] eqn:Hc.
    + intros H. inversion H. subst b r0. unfold closing in Hc.
      apply strip_prefix_app in Hc.
      destruct (drop_while_newlines_split (x :: t)) as [j Hj].
      exists j. rewrite Hc in Hj. split; [exact Hj|].
      cbn [app]. rewrite has_fence_newlines. split; reflexivity.
    + destruct (find_close t) as [[b0 r0]|] eqn:E; [|discriminate].
      intros H. inversion H. subst b r0.
      destruct (IH _ _ eq_refl) as (j & Ht & Hf & Hclean).
      exists j. split; [now rewrite Ht|]. split.
      * cbn [app has_fence]. rewrite Hf.
        destruct (strip_prefix fence (x :: b0 ++ newlines j ++ [bt; bt]))
          as [a|] eqn:Hs; [exfalso|reflexivity].
        apply strip_prefix_app in Hs.
        assert (Hwhole : strip_prefix fence (x :: t)
                         = Some (a ++ bt :: r)).
        { apply strip_prefix_app. rewrite Ht.
          assert (Hl : x :: b0 ++ newlines j ++ fence ++ r
                       = (x :: b0 ++ newlines j ++ [bt; bt]) ++ bt :: r)
            by (cbn [app]; rewrite <- !app_assoc; reflexivity).
          rewrite Hl, Hs. now rewrite <- app_assoc. }
        apply strip_prefix_fence_head in Hwhole. congruence.
      * unfold ends_clean in *. cbn [rev].
        destruct (rev b0) as [|y l] eqn:Hrev; [|exact Hclean].
        cbn [app]. destruct (is_newline x) eqn:Hx; [exfalso|reflexivity].
        apply is_newline_eq in Hx. subst x.
        assert (b0 = []) by (destruct b0; [reflexivity|];
                             apply (f_equal (@length _)) in Hrev;
                             rewrite length_rev in Hrev; discriminate).
        subst b0. rewrite closing_newline in Hc.
        destruct t; cbn [find_close] in E; rewrite Hc in E;
          [discriminate|].
        destruct (find_close t) as [[? ?]|]; discriminate.
Qed.

Lemma drop_while_head (p : char -> bool) (t : jsstring) :
  match drop_while p t with
  | x :: _ => p x = false
  | [] => True
  end.
Proof.
  induction t as [|x t IH]; cbn [drop_while]; [exact I|].
  destruct (p x) eqn:Hx; [exact IH | exact Hx].
Qed.

Lemma trimmed_of_find_close (t b r : jsstring) (j : nat) :
  match t with
  | x :: _ => is_newline x = false
  | [] => True
  end ->
  t = b ++ newlines j ++ fence ++ r ->
  ends_clean b = true ->
  trimmed b = true.
Proof.
  intros Ht E Hclean. unfold trimmed. rewrite Hclean, andb_true_r.
  destruct b as [|x b]; [reflexivity|]. subst t. cbn [app] in Ht.
  rewrite Ht. reflexivity.
Qed.

(** A block found at the head of a text has the shape of a fenced block. *)
Lemma block_at_inv (u : jsstring) (tag : option jsstring) (b r : jsstring) :
  block_at u = Some (tag, b, r) ->
  exists a j,
    u = fenced tag a b j ++ r
    /\ match tag with
       | Some l => lower_tag l = true
       | None => lang_tag (newlines a ++ b ++ newlines j ++ fence ++ r) = None
       end
    /\ trimmed b = true
    /\ has_fence (b ++ newlines j ++ [bt; bt]) = false.
Proof.
  unfold block_at.
  destruct (strip_prefix fence u) as [s1|] eqn:Hs; [|discriminate].
  apply strip_prefix_app in Hs. subst u.
  destruct (lang_tag s1) as [[l r1]|] eqn:Htag.
  - destruct (find_close (drop_while is_newline r1)) as [[b1 r2]|] eqn:E;
      [|discriminate].
    intros H. inversion H. subst tag b1 r2.
    apply lang_tag_shape in Htag as (-> & Hne & Hlow).
    destruct (find_close_nearest _ E) as (j & Ht & Hf & Hclean).
    destruct (drop_while_newlines_split r1) as [a Ha].
    exists a, j. split; [|split; [|split]].
    + unfold fenced. cbn [tag_line]. rewrite Ha at 1. rewrite Ht.
      rewrite <- !app_assoc. reflexivity.
    + unfold lower_tag. rewrite Hlow. destruct l; [contradiction|reflexivity].
    + eapply trimmed_of_find_close; [|exact Ht|exact Hclean].
      apply drop_while_head.
    + exact Hf.
  - destruct (find_close (drop_while is_newline s1)) as [[b1 r2]|] eqn:E;
      [|discriminate].
    intros H. inversion H. subst tag b1 r2.
    destruct (find_close_nearest _ E) as (j & Ht & Hf & Hclean).
    destruct (drop_while_newlines_split s1) as [a Ha].
    exists a, j. split; [|split; [|split]].
    + unfold fenced. cbn [tag_line app]. rewrite Ha at 1. rewrite Ht.
      rewrite <- !app_assoc. reflexivity.
    + rewrite <- Ht, <- Ha. exact Htag.
    + eapply trimmed_of_find_close; [|exact Ht|exact Hclean].
      apply drop_while_head.
    + exact Hf.
Qed.

(** The text passed over by the search holds no opening fence. *)
Lemma exec_code_skipped (s skipped : jsstring) (res : match_result) :
  exec code_regex s = Some (skipped, res) ->
  has_fence (skipped ++ [bt; bt]) = false.
Proof.
  revert skipped res. induction s as [|x s IH]; intros skipped res.
  - cbn [exec]. rewrite match_here_code.
    destruct (block_at []) as [[[tag b] r]|]; [|discriminate].
    intros H. inversion H. reflexivity.
  - destruct (block_at (x :: s)) as [[[tag b] r]|] eqn:E.
    + erewrite exec_code_here by exact E. intros H. inversion H. reflexivity.
    + rewrite exec_code_skip by exact E.
      destruct (exec code_regex s) as [[sk res0]|] eqn:Hs; [|discriminate].
      intros H. inversion H. subst skipped res0.
      specialize (IH _ _ eq_refl). cbn [app has_fence]. rewrite IH.
      destruct (strip_prefix fence (x :: sk ++ [bt; bt])) as [a|] eqn:Hp;
        [exfalso|reflexivity].
      apply strip_prefix_app in Hp.
      apply exec_code_inv in Hs as (tag & b & u & Hu & Hb & _).
      assert (Hshape : exists v w, u = fence ++ v ++ fence ++ w)
        by (apply block_at_iff; eauto).
      destruct Hshape as (v & w & ->).
      assert (Hwhole : exists tag' b' r',
                 block_at (x :: s) = Some (tag', b', r')).
      { apply block_at_iff. exists (a ++ bt :: v), w. rewrite Hu.
        assert (Hl : x :: sk ++ fence ++ v ++ fence ++ w
                     = (x :: sk ++ [bt; bt]) ++ bt :: v ++ fence ++ w)
          by (cbn [app]; rewrite <- !app_assoc; reflexivity).
        rewrite Hl, Hp. rewrite <- !app_assoc. reflexivity. }
      destruct Hwhole as (tag' & b' & r' & Hwhole). congruence.
Qed.

Lemma getCodeBlocks_first (s : jsstring) (tag c : option jsstring)
      (blocks : list block) :
  getCodeBlocks s = Some (Block tag c :: blocks) ->
  exists pre a body b post,
    c = Some body
    /\ s = pre ++ fenced tag a body b ++ post
    /\ getCodeBlocks post = Some blocks
    /\ has_fence (pre ++ [bt; bt]) = false
    /\ match tag with
       | Some l => lower_tag l = true
       | None =>
           lang_tag (newlines a ++ body ++ newlines b ++ fence ++ post) = None
       end
    /\ trimmed body = true
    /\ has_fence (body ++ newlines b ++ [bt; bt]) = false.
Proof.
  rewrite getCodeBlocks_unfold.
  destruct (exec code_regex s) as [[sk res]|] eqn:E; [|discriminate].
  pose proof (exec_code_skipped _ E) as Hsk.
  apply exec_code_inv in E as (tag0 & b0 & u & Hu & Hb & Hc).
  destruct (getCodeBlocks (rest res)) as [bs|] eqn:Hbs; [|discriminate].
  cbn [option_map]. rewrite Hc.
  destruct (capture_tag tag0 b0) as [-> ->].
  intros H. inversion H. subst tag0 c bs.
  apply block_at_inv in Hb as (a & j & Hshape & Htag & Ht & Hf).
  exists sk, a, b0, j, (rest res).
  rewrite Hu, Hshape. repeat split; assumption.
Qed.

(** X14. Every block [getCodeBlocks] returns comes from a fenced block of
    the text: when the result starts with a tag and a code, the text reads
    a part without opening fence, then an opening fence, the tag line if
    there is a tag, newlines, the code, newlines and the nearest closing
    fence, and the rest of the result is the result for the rest of the
    text. The code is always present and has no newline at either end. *)
Theorem X14_blocks_come_from_fences (s : jsstring) (tag c : option jsstring)
        (blocks : list block) :
  getCodeBlocks s = Some (Block tag c :: blocks) ->
  exists pre a body b post,
    c = Some body
    /\ s = pre ++ fenced tag a body b ++ post
    /\ getCodeBlocks post = Some blocks
    /\ has_fence (pre ++ [bt; bt]) = false
    /\ match tag with
       | Some l => lower_tag l = true
       | None =>
           lang_tag (newlines a ++ body ++ newlines b ++ fence ++ post) = None
       end
    /\ trimmed body = true
    /\ has_fence (body ++ newlines b ++ [bt; bt]) = false.
Proof. apply getCodeBlocks_first. Qed.

Lemma X14_blocks_come_from_fences_witness :
  exists pre a body b post,
    Some (str "console.log(1)") = Some body
    /\ code_text = pre ++ fenced (Some (str "js")) a body b ++ post
    /\ getCodeBlocks post = Some []
    /\ has_fence (pre ++ [bt; bt]) = false
    /\ lower_tag (str "js") = true
    /\ trimmed body = true
    /\ has_fence (body ++ newlines b ++ [bt; bt]) = false.
Proof.
  refine (@X14_blocks_come_from_fences code_text (Some (str "js"))
            (Some (str "console.log(1)")) [] _).
  vm_compute. reflexivity.
Defined.

Lemma has_fence_prefix (u v : jsstring) :
  has_fence (u ++ v) = false -> has_fence u = false.
Proof.
  intros H. destruct (has_fence u) eqn:E; [|reflexivity].
  apply has_fence_iff in E as (a & w & ->).
  assert (Ht : has_fence ((a ++ fence ++ w) ++ v) = true).
  { apply has_fence_iff. exists a, (w ++ v). now rewrite <- !app_assoc. }
  congruence.
Qed.

Lemma fenced_length (tag : option jsstring) (a : nat) (body : jsstring)
      (b : nat) :
  6 <= length (fenced tag a body b).
Proof.
  unfold fenced. rewrite !length_app. unfold fence. cbn [length]. lia.
Qed.

Lemma blocks_bodies (n : nat) :
  forall s blocks,
    length s < n ->
    getCodeBlocks s = Some blocks ->
    (forall tag c, In (Block tag c) blocks ->
       exists body, c = Some body /\ trimmed body = true
                    /\ has_fence body = false
                    /\ exists pre post, s = pre ++ body ++ post)
    /\ 6 * length blocks <= length s.
Proof.
  induction n as [|n IH]; intros s blocks Hlen Hs; [lia|].
  destruct blocks as [|[tag0 c0] blocks].
  - split; [intros tag c []|cbn [length]; lia].
  - apply getCodeBlocks_first in Hs
      as (pre & a & body & b & post & -> & -> & Hpost & _ & _ & Ht & Hf).
    pose proof (fenced_length tag0 a body b) as Hfl.
    assert (Hshort : length post < n)
      by (rewrite !length_app in Hlen; lia).
    destruct (IH post blocks Hshort Hpost) as [Hall Hcount]. split.
    + intros tag c [H|H].
      * inversion H. subst tag c. exists body.
        repeat split; [assumption|now apply has_fence_prefix in Hf|].
        exists (pre ++ fence ++ tag_line tag0 ++ newlines a),
               (newlines b ++ fence ++ post).
        unfold fenced. now rewrite <- !app_assoc.
      * destruct (Hall tag c H) as (body' & Hc & Ht' & Hf' & p & q & Hpq).
        exists body'. repeat split; try assumption.
        exists (pre ++ fenced tag0 a body b ++ p), q.
        rewrite Hpq. now rewrite <- !app_assoc.
    + rewrite !length_app. cbn [length]. lia.
Qed.

(** X15. Every block [getCodeBlocks] returns has a code, which is a piece
    of the text with no newline at either end and no triple backtick in it,
    and a text yields at most one block per six characters. *)
Theorem X15_codes_trimmed_and_bounded (s : jsstring) (blocks : list block) :
  getCodeBlocks s = Some blocks ->
  (forall tag c, In (Block tag c) blocks ->
     exists body, c = Some body /\ trimmed body = true
                  /\ has_fence body = false
                  /\ exists pre post, s = pre ++ body ++ post)
  /\ 6 * length blocks <= length s.
Proof. apply (@blocks_bodies (S (length s))). lia. Qed.

Lemma X15_codes_trimmed_and_bounded_witness :
  (forall tag c,
     In (Block tag c) [Block (Some (str "js")) (Some (str "console.log(1)"))] ->
     exists body, c = Some body /\ trimmed body = true
                  /\ has_fence body = false
                  /\ exists pre post, code_text = pre ++ body ++ post)
  /\ 6 * length [Block (Some (str "js")) (Some (str "console.log(1)"))]
     <= length code_text.
Proof.
  refine (@X15_codes_trimmed_and_bounded code_text
            [Block (Some (str "js")) (Some (str "console.log(1)"))] _).
  vm_compute. reflexivity.
Defined.

(** ** What the links are *)

Lemma found_in_skip (r : regex) (ms : list jsstring) (x : char) (v : jsstring) :
  found_in r ms v -> found_in r ms (x :: v).
Proof.
  intros H. destruct H as [s|u m v ms Hm Hrest].
  - constructor.
  - exact (@found_next r (x :: u) m v ms Hm Hrest).
Qed.

Lemma found_in_parts (r : regex) (ms : list jsstring) (s : jsstring) :
  found_in r ms s ->
  forall m, In m ms -> matches r m /\ exists u v, s = u ++ m ++ v.
Proof.
  induction 1 as [s|u m v ms Hm Hrest IH]; intros m' Hin; [destruct Hin|].
  destruct Hin as [<-|Hin].
  - split; [assumption|]. now exists u, v.
  - destruct (IH _ Hin) as (Hm' & p & q & ->). split; [assumption|].
    exists (u ++ m ++ p), q. now rewrite <- !app_assoc.
Qed.

Lemma match_all_found_in (r : regex) (fuel : nat) :
  forall s ms, match_all fuel r s = Some ms -> found_in r ms s.
Proof.
  induction fuel as [|f IH]; intros s ms; [discriminate|]. cbn [match_all].
  destruct (exec r s) as [[sk res]|] eqn:E.
  - apply exec_sound in E as [Hs Hm].
    destruct (matched res) as [|y m] eqn:Em; destruct (rest res) as [|z t] eqn:Er.
    + intros H. inversion H. subst ms. rewrite Hs.
      apply found_next; [assumption | constructor].
    + destruct (match_all f r t) as [ms'|] eqn:Et; [|discriminate].
      intros H. inversion H. subst ms. rewrite Hs.
      apply found_next; [assumption|]. apply found_in_skip. now apply IH.
    + destruct (match_all f r []) as [ms'|] eqn:Et; [|discriminate].
      intros H. inversion H. subst ms. rewrite Hs.
      apply found_next; [assumption | now apply IH].
    + destruct (match_all f r (z :: t)) as [ms'|] eqn:Et; [|discriminate].
      intros H. inversion H. subst ms. rewrite Hs.
      apply found_next; [assumption | now apply IH].
  - intros H. inversion H. constructor.
Qed.

Lemma matchUrlWithDomain_found_in (s d : jsstring) (ms : list jsstring) :
  matchUrlWithDomain s d = Some ms ->
  exists r, url_regex d = Some r /\ found_in r ms s.
Proof.
  unfold matchUrlWithDomain.
  destruct (url_regex d) as [r|]; [|discriminate].
  intros H. exists r. split; [reflexivity|].
  eapply match_all_found_in. exact H.
Qed.

Lemma concat_map_opt_in {X Y : Type} (f : X -> option (list Y)) (l : list X) :
  forall ys y,
    concat_map_opt f l = Some ys -> In y ys ->
    exists x xs, In x l /\ f x = Some xs /\ In y xs.
Proof.
  induction l as [|x l IH]; intros ys y; cbn [concat_map_opt].
  - intros H. inversion H. intros [].
  - destruct (f x) as [xs|] eqn:Ex; [|discriminate].
    destruct (concat_map_opt f l) as [zs|]; [|discriminate].
    intros H. inversion H. subst ys. intros Hin.
    apply in_app_or in Hin as [Hin|Hin].
    + exists x, xs. repeat split; [now left | assumption..].
    + destruct (IH zs y eq_refl Hin) as (x' & xs' & Hx' & Hf & Hy).
      exists x', xs'. repeat split; [now right | assumption..].
Qed.

(** X16. The matches [matchUrlWithDomain] returns are parts of the text,
    one after the other in the order of the text and without overlap, each
    matched by the pattern built from the domain. *)
Theorem X16_matches_in_text_order (s d : jsstring) (ms : list jsstring) :
  matchUrlWithDomain s d = Some ms ->
  exists r, url_regex d = Some r /\ found_in r ms s.
Proof. apply matchUrlWithDomain_found_in. Qed.

Lemma X16_matches_in_text_order_witness :
  exists r, url_regex (str "pastebin.com") = Some r
            /\ found_in r [str "https://pastebin.com/Ab12"] link_text.
Proof.
  refine (@X16_matches_in_text_order link_text (str "pastebin.com")
            [str "https://pastebin.com/Ab12"] _).
  vm_compute. reflexivity.
Defined.

(** X17. Every link [getLinks] returns is a part of the text that the
    pattern of one of the configured domains matches. *)
Theorem X17_links_match_a_domain (cfg : config) (s : jsstring)
        (links : list jsstring) (l : jsstring) :
  getLinks cfg s = Some links ->
  In l links ->
  exists d r,
    In d (domains cfg) /\ url_regex d = Some r /\ matches r l
    /\ exists u v, s = u ++ l ++ v.
Proof.
  unfold getLinks. intros H Hin.
  destruct (@concat_map_opt_in _ _ _ _ _ _ H Hin) as (d & ms & Hd & Hms & Hl).
  apply matchUrlWithDomain_found_in in Hms as (r & Hr & Hfound).
  destruct (@found_in_parts _ _ _ Hfound _ Hl) as [Hm Hsub].
  exists d, r. auto.
Qed.

Lemma X17_links_match_a_domain_witness :
  exists d r,
    In d (domains example_config) /\ url_regex d = Some r
    /\ matches r (str "https://pastebin.com/Ab12")
    /\ exists u v, link_text = u ++ str "https://pastebin.com/Ab12" ++ v.
Proof.
  refine (@X17_links_match_a_domain example_config link_text
            [str "https://pastebin.com/Ab12"]
            (str "https://pastebin.com/Ab12") _ _).
  - vm_compute. reflexivity.
  - left. reflexivity.
Defined.

(** ** The pattern built from a domain *)

Lemma then_nonempty (t r : regex) : r <> Empty -> then_ t r = Seq t r.
Proof. destruct r; [contradiction | reflexivity..]. Qed.

Lemma domain_part_nonempty (d : jsstring) (r : regex) :
  r <> Empty -> domain_part d r <> Empty.
Proof. destruct d; [auto | discriminate]. Qed.

Lemma alt_step (f n : nat) (s s1 : jsstring) (a : regex) (n1 : nat)
      (t : regex) (s2 : jsstring) :
  match s with
  | c :: _ => N.eqb c 124 || N.eqb c 41 = false
  | [] => False
  end ->
  parse_atom f n s = Some (a, n1, s1) ->
  parse_quantifier a s1 = (t, s2) ->
  parse_alternative (S f) n s
  = match parse_alternative f n1 s2 with
    | Some (r, n2, s3) => Some (then_ t r, n2, s3)
    | None => None
    end.
Proof.
  intros Hc Ha Hq. destruct s as [|c s']; [contradiction|].
  cbn [parse_alternative]. rewrite Hc, Ha, Hq. reflexivity.
Qed.

Lemma domain_char_cases (c : char) :
  domain_char c = true ->
  c = 46%N
  \/ (N.eqb c 46 = false /\ N.eqb c 124 = false /\ N.eqb c 41 = false
      /\ N.eqb c 40 = false /\ N.eqb c 91 = false /\ N.eqb c 92 = false
      /\ N.eqb c 42 = false /\ N.eqb c 43 = false /\ N.eqb c 63 = false
      /\ is_syntax_char c = false).
Proof.
  unfold domain_char. destruct (N.eqb c 46) eqn:E.
  - left. now apply N.eqb_eq.
  - right. cbn [orb] in H. apply negb_true_iff in H. pose proof H as Hs.
    unfold is_syntax_char in H. cbn in H.
    repeat (apply orb_false_iff in H as [? H]).
    repeat split; assumption.
Qed.

Lemma parse_quantifier_none (a : regex) (s : jsstring) :
  starts_quantifier s = false -> parse_quantifier a s = (a, s).
Proof.
  destruct s as [|c s]; [reflexivity|]. cbn [starts_quantifier].
  intros H. apply orb_false_iff in H as [H H3].
  apply orb_false_iff in H as [H1 H2].
  cbn [parse_quantifier]. now rewrite H1, H2, H3.
Qed.

Lemma domain_char_no_quantifier (d rest : jsstring) :
  forallb domain_char d = true ->
  starts_quantifier rest = false ->
  starts_quantifier (d ++ rest) = false.
Proof.
  destruct d as [|c d]; [auto|]. cbn [forallb app starts_quantifier].
  intros H _. apply andb_true_iff in H as [H _].
  apply domain_char_cases in H as [->|H]; [reflexivity|].
  destruct H as (_ & _ & _ & _ & _ & _ & H1 & H2 & H3 & _).
  now rewrite H1, H2, H3.
Qed.

Lemma parse_atom_domain_char (f n : nat) (c : char) (s : jsstring) :
  domain_char c = true ->
  parse_atom (S f) n (c :: s) = Some (domain_atom c, n, s).
Proof.
  intros H. apply domain_char_cases in H as [->|H]; [reflexivity|].
  destruct H as (H46 & _ & _ & H40 & H91 & H92 & _ & _ & _ & Hs).
  cbn [parse_atom]. unfold domain_atom. now rewrite H40, H91, H46, H92, Hs.
Qed.

Lemma parse_domain (d : jsstring) :
  forallb domain_char d = true ->
  forall k n rest r n2 s3,
    starts_quantifier rest = false ->
    r <> Empty ->
    parse_alternative (S k) n rest = Some (r, n2, s3) ->
    parse_alternative (S (length d + k)) n (d ++ rest)
    = Some (domain_part d r, n2, s3).
Proof.
  induction d as [|c d IH]; intros Hd k n rest r n2 s3 Hq Hr Hrest.
  - exact Hrest.
  - cbn [forallb] in Hd. apply andb_true_iff in Hd as [Hc Hd].
    cbn [app length Nat.add].
    erewrite alt_step;
      [ | | apply parse_atom_domain_char; exact Hc
        | apply parse_quantifier_none; now apply domain_char_no_quantifier ].
    + erewrite IH by eassumption.
      rewrite then_nonempty by now apply domain_part_nonempty.
      reflexivity.
    + apply domain_char_cases in Hc as [->|Hc]; [reflexivity|].
      destruct Hc as (_ & H1 & H2 & _). now rewrite H1, H2.
Qed.

Lemma parse_suffix (k : nat) :
  parse_alternative (S (15 + k)) 2 url_suffix = Some (path_part, 3, [41%N]).
Proof. vm_compute. reflexivity. Qed.

Lemma parse_quantifier_opt (a : regex) (s : jsstring) :
  starts_quantifier s = false ->
  parse_quantifier a (63%N :: s) = (Opt true a, s).
Proof.
  destruct s as [|c s]; [reflexivity|]. cbn [starts_quantifier].
  intros H. apply orb_false_iff in H as [_ H3].
  cbn [parse_quantifier N.eqb Pos.eqb]. now rewrite H3.
Qed.

Lemma parse_prefix (f : nat) (tail : jsstring) (r : regex) (n2 : nat)
      (s3 : jsstring) :
  starts_quantifier tail = false ->
  r <> Empty ->
  parse_alternative (S (5 + f)) 2 tail = Some (r, n2, s3) ->
  parse_alternative (10 + (5 + f)) 1 (str "https?:\/\/(.+?\.)?" ++ tail)
  = Some (Seq (Lit 104) (Seq (Lit 116) (Seq (Lit 116) (Seq (Lit 112)
           (Seq (Opt true (Lit 115))
             (Seq (Lit 58) (Seq slash (Seq slash
               (Seq subdomain_part r)))))))), n2, s3).
Proof.
  intros Hq Hr Hrest. cbn [Nat.add].
  do 8 (erewrite alt_step; [ | reflexivity | reflexivity | reflexivity ]).
  erewrite alt_step;
    [ | reflexivity | reflexivity | apply parse_quantifier_opt; exact Hq ].
  cbn [Nat.add] in Hrest. rewrite Hrest.
  rewrite (@then_nonempty _ r) by exact Hr. reflexivity.
Qed.

Lemma parse_group (f : nat) (q : char) (P : jsstring) (R : regex) (n : nat) :
  N.eqb q 63 = false ->
  parse_alternative f 1 (q :: P) = Some (R, n, [41%N]) ->
  parse_disjunction (S (S (S (S f)))) 0 (40%N :: q :: P)
  = Some (Group 1 R, n, []).
Proof.
  intros Hq H.
  assert (Hd : parse_disjunction (S f) 1 (q :: P) = Some (R, n, [41%N])).
  { cbn [parse_disjunction]. rewrite H. reflexivity. }
  assert (Ha : parse_atom (S (S f)) 0 (40%N :: q :: P)
               = Some (Group 1 R, n, [])).
  { cbn [parse_atom N.eqb Pos.eqb]. rewrite Hq, Hd. reflexivity. }
  assert (Hl : parse_alternative (S (S (S f))) 0 (40%N :: q :: P)
               = Some (Group 1 R, n, [])).
  { erewrite alt_step; [ | reflexivity | exact Ha | reflexivity ].
    reflexivity. }
  cbn [parse_disjunction]. rewrite Hl. reflexivity.
Qed.

Lemma url_regex_plain (d : jsstring) :
  forallb domain_char d = true -> url_regex d = Some (url_pattern d).
Proof.
  intros Hd. unfold url_regex, parse_regex.
  assert (Hfuel : 3 * length (url_prefix ++ d ++ url_suffix) + 3
                  = 4 + (10 + (5 + (length d + (15 + (2 * length d + 167)))))).
  { rewrite !length_app.
    change (length url_prefix) with 20. change (length url_suffix) with 46.
    lia. }
  rewrite Hfuel.
  set (k := 2 * length d + 167).
  assert (Hin : parse_alternative (10 + (5 + (length d + (15 + k)))) 1
                  (str "https?:\/\/(.+?\.)?" ++ d ++ url_suffix)
                = Some (Seq (Lit 104) (Seq (Lit 116) (Seq (Lit 116)
                         (Seq (Lit 112) (Seq (Opt true (Lit 115))
                           (Seq (Lit 58) (Seq slash (Seq slash
                             (Seq subdomain_part (domain_part d path_part))))))))),
                        3, [41%N])).
  { apply parse_prefix.
    - now apply domain_char_no_quantifier.
    - now apply domain_part_nonempty.
    - replace (S (5 + (length d + (15 + k))))
        with (S (length d + (15 + (5 + k)))) by lia.
      apply parse_domain;
        [exact Hd | reflexivity | discriminate | apply parse_suffix]. }
  pose proof (@parse_group _ 104%N (str "ttps?:\/\/(.+?\.)?" ++ d ++ url_suffix)
                _ 3 eq_refl Hin) as Hgroup.
  change (parse_disjunction (4 + (10 + (5 + (length d + (15 + k))))) 0
            (url_prefix ++ d ++ url_suffix) = Some (url_pattern d, 3, []))
    in Hgroup.
  rewrite Hgroup. reflexivity.
Qed.

Lemma matches_lit_seq (c : char) (r : regex) (w : jsstring) :
  matches (Seq (Lit c) r) w -> exists w', w = c :: w' /\ matches r w'.
Proof.
  intros H. inversion H as [| |r1 r2 w1 w2 H1 H2| | | | | | |]. subst.
  unfold Lit in H1. inversion H1 as [|neg items x Hx| | | | | | | |]. subst.
  rewrite in_class_lit in Hx. apply N.eqb_eq in Hx. subst x.
  exists w2. auto.
Qed.

Lemma matches_opt_group_seq (g : bool) (n : nat) (r1 r2 : regex)
      (w : jsstring) :
  matches (Opt g (Group n (Seq r1 r2))) w ->
  w = [] \/ exists w1 w2, w = w1 ++ w2 /\ matches r1 w1 /\ matches r2 w2.
Proof.
  intros H. inversion H as [| | | | | | |g' r'|g' r' w' Hg|]; subst.
  - now left.
  - right. inversion Hg as [| | | | | | | | |n' r' w' Hs]. subst.
    inversion Hs as [| |r1' r2' w1 w2 H1 H2| | | | | | |]. subst.
    exists w1, w2. auto.
Qed.

Lemma matches_domain_atom (c : char) (w : jsstring) :
  matches (domain_atom c) w <-> exists x, w = [x] /\ stands_for c x = true.
Proof.
  unfold domain_atom, stands_for, Dot, Lit. split.
  - intros H. destruct (N.eqb c 46);
      inversion H as [|neg items x Hx| | | | | | | |]; subst; exists x.
    + auto.
    + rewrite in_class_lit in Hx. auto.
  - intros (x & -> & Hx). destruct (N.eqb c 46); constructor.
    + exact Hx.
    + now rewrite in_class_lit.
Qed.

Lemma matches_domain_part (d : jsstring) (r : regex) :
  forall w,
    matches (domain_part d r) w <->
    exists host rest,
      w = host ++ rest
      /\ Forall2 (fun c x => stands_for c x = true) d host
      /\ matches r rest.
Proof.
  induction d as [|c d IH]; intros w; cbn [domain_part].
  - split.
    + intros H. exists [], w. repeat split; [constructor | assumption].
    + intros (host & rest & -> & Hh & Hr). inversion Hh. exact Hr.
  - split.
    + intros H. inversion H as [| |r1 r2 w1 w2 H1 H2| | | | | | |]. subst.
      apply matches_domain_atom in H1 as (x & -> & Hx).
      apply IH in H2 as (host & rest & -> & Hh & Hr).
      exists (x :: host), rest. repeat split; [now constructor | assumption].
    + intros (host & rest & -> & Hh & Hr).
      inversion Hh as [|c' x d' host' Hx Hrest]. subst.
      change ((x :: host') ++ rest) with ([x] ++ host' ++ rest).
      constructor.
      * apply matches_domain_atom. eauto.
      * apply IH. eauto.
Qed.

Lemma url_pattern_shape (d l : jsstring) :
  matches (url_pattern d) l ->
  exists secure sub host path,
    l = scheme secure ++ sub ++ host ++ path
    /\ Forall2 (fun c x => stands_for c x = true) d host
    /\ (sub = [] \/ exists t, sub = t ++ [46%N])
    /\ (path = [] \/ exists p, path = 47%N :: p).
Proof.
  unfold url_pattern. intros H.
  inversion H as [| | | | | | | | |n r w Hg]. subst. clear H.
  do 4 (apply matches_lit_seq in Hg as (? & -> & Hg)).
  inversion Hg as [| |r1 r2 w1 w2 Hs Hrest| | | | | | |]. subst. clear Hg.
  do 3 (apply matches_lit_seq in Hrest as (? & -> & Hrest)).
  inversion Hrest as [| |r1 r2 sub w3 Hsub Hd| | | | | | |]. subst.
  clear Hrest.
  apply matches_domain_part in Hd as (host & path & -> & Hh & Hp).
  assert (Hsec : exists secure,
             (104 :: 116 :: 116 :: 112 :: w1
              ++ 58 :: 47 :: 47 :: sub ++ host ++ path)%N
             = scheme secure ++ sub ++ host ++ path).
  { inversion Hs as [| | | | | | |g r|g r w Hw|]; subst.
    - exists false. reflexivity.
    - unfold Lit in Hw. inversion Hw as [|neg items x Hx| | | | | | | |].
      subst. rewrite in_class_lit in Hx. apply N.eqb_eq in Hx. subst x.
      exists true. reflexivity. }
  destruct Hsec as [secure Hsec]. exists secure, sub, host, path.
  split; [exact Hsec|]. split; [exact Hh|]. split.
  - apply matches_opt_group_seq in Hsub as [->|(w1' & w2' & -> & _ & H2)];
      [now left|right].
    inversion H2 as [|neg items x Hx| | | | | | | |]. subst.
    rewrite in_class_lit in Hx. apply N.eqb_eq in Hx. subst x. now exists w1'.
  - unfold path_part in Hp.
    apply matches_opt_group_seq in Hp as [->|(w1' & w2' & -> & H1 & _)];
      [now left|right].
    unfold slash in H1. inversion H1 as [|neg items x Hx| | | | | | | |].
    subst. rewrite in_class_lit in Hx. apply N.eqb_eq in Hx. subst x.
    now exists w2'.
Qed.

Lemma url_pattern_intro (d host : jsstring) (secure : bool) :
  Forall2 (fun c x => stands_for c x = true) d host ->
  matches (url_pattern d) (scheme secure ++ host).
Proof.
  intros Hh. unfold url_pattern. constructor.
  assert (Htail : matches (Seq subdomain_part (domain_part d path_part)) host).
  { change host with ([] ++ host). constructor; [constructor|].
    apply matches_domain_part. exists host, []. rewrite app_nil_r.
    repeat split; [assumption | constructor]. }
  assert (Hlit : forall c r w, matches r w -> matches (Seq (Lit c) r) (c :: w)).
  { intros c r w Hw. change (c :: w) with ([c] ++ w). constructor; [|exact Hw].
    constructor. rewrite in_class_lit. apply N.eqb_refl. }
  assert (Hrest : matches (Seq (Lit 58) (Seq slash (Seq slash
                    (Seq subdomain_part (domain_part d path_part)))))
                    (str "://" ++ host)).
  { apply Hlit. apply (Hlit 47%N). apply (Hlit 47%N). exact Htail. }
  destruct secure.
  - do 4 apply Hlit.
    change (matches (Seq (Opt true (Lit 115)) (Seq (Lit 58) (Seq slash
              (Seq slash (Seq subdomain_part (domain_part d path_part))))))
              ([115%N] ++ str "://" ++ host)).
    constructor; [|exact Hrest]. apply M_opt_some. constructor.
    rewrite in_class_lit. reflexivity.
  - do 4 apply Hlit.
    change (matches (Seq (Opt true (Lit 115)) (Seq (Lit 58) (Seq slash
              (Seq slash (Seq subdomain_part (domain_part d path_part))))))
              ([] ++ str "://" ++ host)).
    constructor; [|exact Hrest]. constructor.
Qed.

Lemma plain_config_ok (cfg : config) : plain_config cfg -> domains_ok cfg.
Proof.
  intros H d Hd. exists (url_pattern d). apply url_regex_plain. now apply H.
Qed.

(** X18. For a domain made of characters that stand for themselves in a
    pattern source, and dots, [new RegExp] accepts the source that
    [matchUrlWithDomain] builds, and the pattern is [url_pattern]: [http],
    an optional [s], [://], an optional subdomain that ends with a dot, the
    domain with any character but a line terminator where it has a dot, and
    an optional path that starts with a slash. *)
Theorem X18_domain_pattern (d : jsstring) :
  forallb domain_char d = true -> url_regex d = Some (url_pattern d).
Proof. apply url_regex_plain. Qed.

Lemma X18_domain_pattern_witness :
  url_regex (str "pastebin.com") = Some (url_pattern (str "pastebin.com")).
Proof. apply X18_domain_pattern. reflexivity. Defined.

(** X19. For such a domain, every match [matchUrlWithDomain] returns reads
    [http://] or [https://], then nothing or a part that ends with a dot,
    then the domain, character by character, with any character but a line
    terminator where the domain has a dot, then nothing or a part that
    starts with a slash. *)
Theorem X19_link_shape (s d : jsstring) (ms : list jsstring) (l : jsstring) :
  forallb domain_char d = true ->
  matchUrlWithDomain s d = Some ms ->
  In l ms ->
  exists secure sub host path,
    l = scheme secure ++ sub ++ host ++ path
    /\ Forall2 (fun c x => stands_for c x = true) d host
    /\ (sub = [] \/ exists t, sub = t ++ [46%N])
    /\ (path = [] \/ exists p, path = 47%N :: p).
Proof.
  intros Hd Hms Hl.
  apply matchUrlWithDomain_found_in in Hms as (r & Hr & Hfound).
  rewrite url_regex_plain in Hr by exact Hd. inversion Hr. subst r.
  destruct (@found_in_parts _ _ _ Hfound _ Hl) as [Hm _].
  now apply url_pattern_shape.
Qed.

Lemma X19_link_shape_witness :
  exists secure sub host path,
    str "https://pastebin.com/Ab12" = scheme secure ++ sub ++ host ++ path
    /\ Forall2 (fun c x => stands_for c x = true) (str "pastebin.com") host
    /\ (sub = [] \/ exists t, sub = t ++ [46%N])
    /\ (path = [] \/ exists p, path = 47%N :: p).
Proof.
  refine (@X19_link_shape link_text (str "pastebin.com")
            [str "https://pastebin.com/Ab12"] _ _ _ _).
  - reflexivity.
  - vm_compute. reflexivity.
  - left. reflexivity.
Defined.

(** X20. The domain goes into the pattern as it is written, so its dots
    stand for any character: with such domains configured, a text that
    holds [http://] or [https://] followed by a domain, or by a domain with
    other characters (no line terminators) in the place of its dots, is
    relevant. *)
Theorem X20_domain_dot_is_wildcard (cfg : config) (d host pre post : jsstring)
        (secure : bool) :
  plain_config cfg ->
  In d (domains cfg) ->
  Forall2 (fun c x => stands_for c x = true) d host ->
  isRelevant cfg (pre ++ scheme secure ++ host ++ post) = Some true.
Proof.
  intros Hcfg Hd Hh.
  destruct (@isRelevant_iff cfg (pre ++ scheme secure ++ host ++ post)
              (plain_config_ok Hcfg)) as (b & Hb & Hiff).
  rewrite Hb. f_equal. apply Hiff. right.
  exists d, (url_pattern d). split; [exact Hd|]. split.
  - apply url_regex_plain. now apply Hcfg.
  - exists pre, (scheme secure ++ host), post. split.
    + now rewrite <- !app_assoc.
    + now apply url_pattern_intro.
Qed.

Lemma X20_domain_dot_is_wildcard_witness :
  isRelevant example_config
    (str "see " ++ scheme false ++ str "pastebin-com" ++ str " now")
  = Some true.
Proof.
  apply (@X20_domain_dot_is_wildcard example_config (str "pastebin.com")).
  - intros d [<-|[<-|[]]]; reflexivity.
  - left. reflexivity.
  - repeat constructor.
Defined.

(** ** The order of the two checks *)

Lemma isRelevant_code (cfg : config) (s : jsstring) :
  contains_fenced s -> isRelevant cfg s = Some true.
Proof.
  intros H. apply containsCode_positive in H as [n Hn].
  unfold isRelevant. now rewrite Hn.
Qed.

(** X21. A text with a fenced block is relevant whatever domains are
    configured: the link check is the second operand of [||] and is not
    evaluated once a block is found, so no pattern is built from the domains
    and the message is stored even when a domain gives no usable pattern. *)
Theorem X21_code_short_circuits_links (cfg : config) (m : snapshot)
        (edit : bool) (d : store) :
  contains_fenced (content m) ->
  isRelevant cfg (content m) = Some true
  /\ processMessage cfg m edit d
     = Some (d ++ (if edit then [] else [entry_row m]) ++ [revision_row m]).
Proof.
  intros H. apply (isRelevant_code cfg) in H. split; [exact H|].
  now rewrite (@processMessage_rows cfg m edit d true H).
Qed.

Lemma X21_code_short_circuits_links_witness :
  url_regex (str "(") = None
  /\ isRelevant (Config [str "("] false false)
                (content (version code_text None)) = Some true
  /\ processMessage (Config [str "("] false false) (version code_text None)
                    false []
     = Some ([] ++ [entry_row (version code_text None)]
                ++ [revision_row (version code_text None)]).
Proof.
  split; [vm_compute; reflexivity|].
  apply (@X21_code_short_circuits_links (Config [str "("] false false)
           (version code_text None) false []).
  exists (str "check this out "), (str "js" ++ nl :: str "console.log(1)" ++ [nl]), [].
  reflexivity.
Defined.
